(** * DialogRE baselines: the evaluation and bookkeeping code of [run.py]

    A shallow embedding of the repository's own logic in [src/run.py]:
    the threshold-search F1 evaluator ([f1_eval] with its local functions
    [getpred] and [geteval]), the optimizer bridge
    ([set_optimizer_params_grad], [copy_optimizer_params_to_model]), the
    batch collator ([datset_collate_fn]), the shard loader
    ([build_dataloader]), the optimizer-step part of [train] and the
    start-up validation of the command-line arguments.

    Conventions.
    - A score held by an array is modelled by the number it stands for, a
      rational [Q]; [getpred] only compares scores, and a comparison of
      two floats is the comparison of their values. Equality of scores
      is [==].
    - Python's [float] is binary64, Rocq's primitive [float]. The
      thresholds [T2 / 100.0] and the F1 values compared by the threshold
      search are such floats, computed with the operations of binary64;
      a threshold enters [getpred] through its value ([float_value]).
      [geteval] itself carries the exact value of its expression, and
      [geteval_double] the binary64 value the interpreter computes.
    - Python [int]s are [Z]; counters that only grow from zero are [nat].
    - A raised exception is the left summand of [result]. *)

From Stdlib Require Import String Ascii DecimalString.
From Stdlib Require Import List ZArith QArith Qabs Bool Lia Lqa Permutation.
From Stdlib Require Import Floats.
From Stdlib Require Uint63.
Import ListNotations.

Local Open Scope Z_scope.

(** ** Exceptions *)

Inductive exn : Set :=
| ValueError
| AssertionError
| IndexError
| TypeError
| RuntimeError
| ZeroDivisionError
| AttributeError.

Definition result (A : Type) : Type := (exn + A)%type.

Definition ret {A : Type} (a : A) : result A := inr a.
Definition raise {A : Type} (e : exn) : result A := inl e.

Definition bind {A B : Type} (m : result A) (k : A -> result B) : result B :=
  match m with
  | inl e => inl e
  | inr a => k a
  end.

Notation "x <- m ;; k" := (bind m (fun x => k))
  (at level 61, m at next level, right associativity).

Definition assert (b : bool) : result unit :=
  if b then ret tt else raise AssertionError.

Fixpoint mapM {A B : Type} (f : A -> result B) (l : list A) : result (list B) :=
  match l with
  | [] => ret []
  | a :: l' =>
      b <- f a ;;
      bs <- mapM f l' ;;
      ret (b :: bs)
  end.

(** ** Scores *)

(** [a > b] on scores. *)
Definition Qgtb (a b : Q) : bool := negb (Qle_bool a b).

(** ** [getpred] (run.py, lines 88-105) *)

(** The loop-carried variables of the inner loop: [r], [maxl], [maxj]. *)
Record scan : Type := mkScan {
  sc_r : list Z;
  sc_maxl : Q;
  sc_maxj : Z
}.

Definition scan0 : scan := mkScan [] (-1 # 1) (-1).

(** One iteration of [for j in range(len(result[i]))]. *)
Definition getpred_step (T1 : Q) (st : scan) (j : Z) (x : Q) : scan :=
  let r := if Qgtb x T1 then sc_r st ++ [j] else sc_r st in
  if Qgtb x (sc_maxl st)
  then mkScan r x j
  else mkScan r (sc_maxl st) (sc_maxj st).

Fixpoint getpred_scan (T1 : Q) (row : list Q) (j : Z) (st : scan) : scan :=
  match row with
  | [] => st
  | x :: row' => getpred_scan T1 row' (j + 1) (getpred_step T1 st j x)
  end.

(** The body of [for i in range(len(result))]: the value appended to [ret]. *)
Definition getpred_row (T1 T2 : Q) (row : list Q) : list Z :=
  let st := getpred_scan T1 row 0 scan0 in
  if (length (sc_r st) =? 0)%nat
  then (if Qle_bool (sc_maxl st) T2 then [36] else sc_r st ++ [sc_maxj st])
  else sc_r st.

Definition getpred (result : list (list Q)) (T1 T2 : Q) : list (list Z) :=
  map (getpred_row T1 T2) result.

(** ** [geteval] (run.py, lines 107-125) *)

Record counts : Type := mkCounts {
  correct_sys : nat;
  all_sys : nat;
  correct_gt : nat
}.

Definition mem (id : Z) (l : list Z) : bool := existsb (Z.eqb id) l.

(** [for id in data[i]]. *)
Fixpoint count_gold (devp_i : list Z) (data_i : list Z) (c : counts) : counts :=
  match data_i with
  | [] => c
  | id :: rest =>
      let c' :=
        if negb (id =? 36)
        then mkCounts (if mem id devp_i then S (correct_sys c) else correct_sys c)
                      (all_sys c) (S (correct_gt c))
        else c in
      count_gold devp_i rest c'
  end.

(** [for id in devp[i]]. *)
Fixpoint count_sys (devp_i : list Z) (c : counts) : counts :=
  match devp_i with
  | [] => c
  | id :: rest =>
      let c' :=
        if negb (id =? 36)
        then mkCounts (correct_sys c) (S (all_sys c)) (correct_gt c)
        else c in
      count_sys rest c'
  end.

(** [for i in range(len(data))]; [devp[i]] raises [IndexError] when [devp]
    is shorter than [data]. *)
Fixpoint geteval_loop (devp data : list (list Z)) (c : counts) {struct data}
  : result counts :=
  match data with
  | [] => ret c
  | data_i :: data' =>
      match devp with
      | [] => raise IndexError
      | devp_i :: devp' =>
          geteval_loop devp' data' (count_sys devp_i (count_gold devp_i data_i c))
      end
  end.

Definition Qnat (n : nat) : Q := inject_Z (Z.of_nat n).

Definition f1_of_counts (c : counts) : Q :=
  let precision :=
    if (all_sys c =? 0)%nat then 1%Q else (Qnat (correct_sys c) / Qnat (all_sys c))%Q in
  let recall :=
    if (correct_gt c =? 0)%nat then 0%Q else (Qnat (correct_sys c) / Qnat (correct_gt c))%Q in
  if negb (Qeq_bool (precision + recall) 0)
  then (2 * precision * recall / (precision + recall))%Q
  else 0%Q.

Definition geteval (devp data : list (list Z)) : result Q :=
  c <- geteval_loop devp data (mkCounts 0 0 0) ;;
  ret (f1_of_counts c).

(** ** Datasets (run.py, lines 199-220 and 130-143)

    A data set is a Python list of seven parallel lists; an entry of a field
    is an [int] (the sequence length) or a list of [int]s (token ids, masks,
    the 36-way label vector). *)

Inductive item : Type :=
| IInt (n : Z)
| IVec (v : list Z).

Definition dataset : Type := list (list item).

(** [x[i]] on a Python list. *)
Definition getitem {A : Type} (l : list A) (i : nat) : result A :=
  match nth_error l i with
  | Some a => ret a
  | None => raise IndexError
  end.

(** ** The gold labels of [f1_eval] (run.py, lines 130-143) *)

(** [for i in range(36): if label_id[i] == 1: label += [i]]. *)
Definition label_scan (v : list Z) : list Z :=
  fold_left (fun label i => if nth i v 0 =? 1 then label ++ [Z.of_nat i] else label)
            (seq 0 36) [].

Arguments label_scan : simpl never.

(** The body of [for idx in range(len(label_id_lst))]: the value appended to
    [labels]. *)
Definition gold_label (label_id : item) : result (list Z) :=
  match label_id with
  | IInt _ => raise TypeError
  | IVec v =>
      _ <- assert (length v =? 36)%nat ;;
      let label := label_scan v in
      ret (if (length label =? 0)%nat then [36] else label)
  end.

Definition gold_labels (label_id_lst : list item) : result (list (list Z)) :=
  mapM gold_label label_id_lst.

(** ** [f1_eval] (run.py, lines 87-153) *)

(** [float(n)] for a counter [n]. The conversion is exact below [2^53],
    where [a / b] on two [int]s is the binary64 quotient of the two
    converted operands; a counter of [geteval] reaches [2^53] only on
    more than [2^53] labels. *)
Definition float_of_nat (n : nat) : float :=
  PrimFloat.of_uint63 (Uint63.of_Z (Z.of_nat n)).

(** The number a finite float stands for (0 for infinities and NaN, which
    no threshold is). *)
Definition float_value (x : float) : Q :=
  match Prim2SF x with
  | S754_finite s m e => ((if s then -1 else 1) * inject_Z (Z.pos m) * 2 ^ e)%Q
  | _ => 0%Q
  end.

(** Lines 122-124 as the interpreter evaluates them: [precision] and
    [recall] are binary64 quotients of the counters, and so are the
    product, the sum and the quotient of the F1; an [int] 0, 1 or 2 mixed
    with a float is that float. *)
Definition f1_double (c : counts) : float :=
  let precision :=
    if (all_sys c =? 0)%nat then 1%float
    else (float_of_nat (correct_sys c) / float_of_nat (all_sys c))%float in
  let recall :=
    if (correct_gt c =? 0)%nat then 0%float
    else (float_of_nat (correct_sys c) / float_of_nat (correct_gt c))%float in
  if negb (precision + recall =? 0)%float
  then (2 * precision * recall / (precision + recall))%float
  else 0%float.

(** [geteval] with the float it returns. *)
Definition geteval_double (devp data : list (list Z)) : result float :=
  c <- geteval_loop devp data (mkCounts 0 0 0) ;;
  ret (f1_double c).

(** [T2 / 100.0]. *)
Definition threshold (T2 : nat) : float := (float_of_nat T2 / 100)%float.

(** The default [T1=0.5] of [getpred]. *)
Definition T1_default : Q := (1 # 2)%Q.

(** [for T2 in range(51)] with the loop-carried pair [(bestf_1, bestT2)];
    [f_1 > bestf_1] compares two floats. *)
Fixpoint f1_search (probs : list (list Q)) (labels : list (list Z))
         (T2s : list nat) (best : float * float) : result (float * float) :=
  match T2s with
  | [] => ret best
  | T2 :: rest =>
      let devp := getpred probs T1_default (float_value (threshold T2)) in
      f_1 <- geteval_double devp labels ;;
      f1_search probs labels rest
                (if (fst best <? f_1)%float then (f_1, threshold T2) else best)
  end.

(** [np.asarray(logits)] on a list of rows: rows of unequal length do not
    make an array of numbers, and the conversion raises [ValueError]. *)
Definition asarray (logits : list (list Q)) : result (list (list Q)) :=
  match logits with
  | [] => ret []
  | row :: rest =>
      if forallb (fun row' => (length row' =? length row)%nat) rest
      then ret logits
      else raise ValueError
  end.

Section F1Eval.

(** [1 / (1 + np.exp(-x))], a function of the numerical library. *)
Variable sigmoid : Q -> Q.

Definition f1_eval (logits : list (list Q)) (examples : dataset)
  : result (float * float) :=
  logits <- asarray logits ;;
  let probs := map (map sigmoid) logits in
  label_id_lst <- getitem examples 6 ;;
  labels <- gold_labels label_id_lst ;;
  _ <- assert (length labels =? length probs)%nat ;;
  f1_search probs labels (seq 0 51) (0%float, 0%float).

End F1Eval.

(** ** The optimizer bridge and the training step
       (run.py, lines 53-84 and 223-292) *)

Inductive event : Set :=
| EvOptimizerStep      (* optimizer.step() *)
| EvCopyToModel        (* copy_optimizer_params_to_model(...) returned *)
| EvZeroGrad           (* model.zero_grad() *)
| EvLogNan.            (* logger.info("FP16 TRAINING: Nan in gradients, ...") *)

Section Training.

(** Tensors and the operations of the tensor library used on them. *)
Variable tensor : Type.
(** [torch.isnan(t).sum() > 0] *)
Variable has_nan : tensor -> bool.
(** [dst.copy_(src)]: the new contents of [dst]. *)
Variable copy_ : tensor -> tensor -> tensor.
(** [t.new()] resized to the size of [t]: a fresh tensor for the gradient *)
Variable new_like : tensor -> tensor.
(** [t / c] *)
Variable tdiv : tensor -> Q -> tensor.
(** the gradient left by [zero_grad] *)
Variable zeros_like : tensor -> tensor.

(** A parameter of the model on the device; the bridge reads
    [param_model.grad] unconditionally, after [loss.backward()]. *)
Record model_param : Type := mkModelParam {
  m_data : tensor;
  m_grad : tensor
}.

(** A parameter of the CPU copy handed to the optimizer; its [grad] is
    [None] until the first call of [set_optimizer_params_grad]. *)
Record opti_param : Type := mkOptiParam {
  o_data : tensor;
  o_grad : option tensor
}.

Definition named_model : Type := list (string * model_param).
Definition named_opti : Type := list (string * opti_param).

(** [copy_optimizer_params_to_model]; the result is the model after the
    in-place copies. The loop runs over [zip(optimizer, model)]: entries
    of the longer sequence beyond the shorter one are not visited. *)
Fixpoint copy_optimizer_params_to_model
         (named_params_model : named_model) (named_params_optimizer : named_opti)
  : result named_model :=
  match named_params_optimizer, named_params_model with
  | (name_opti, param_opti) :: rest_opti, (name_model, param_model) :: rest_model =>
      if negb (String.eqb name_opti name_model) then raise ValueError
      else
        rest <- copy_optimizer_params_to_model rest_model rest_opti ;;
        ret ((name_model,
              mkModelParam (copy_ (m_data param_model) (o_data param_opti))
                           (m_grad param_model)) :: rest)
  | _, _ => ret named_params_model
  end.

(** The loop of [set_optimizer_params_grad] with its flag [is_nan]; the
    result is the flag and the optimizer's parameters after the in-place
    copies of the gradients. *)
Fixpoint set_grad_loop
         (named_params_optimizer : named_opti) (named_params_model : named_model)
         (test_nan : bool) (is_nan : bool) : result (bool * named_opti) :=
  match named_params_optimizer, named_params_model with
  | (name_opti, param_opti) :: rest_opti, (name_model, param_model) :: rest_model =>
      if negb (String.eqb name_opti name_model) then raise ValueError
      else
        let is_nan' :=
          if test_nan && has_nan (m_grad param_model) then true else is_nan in
        let g :=
          match o_grad param_opti with
          | None => new_like (o_data param_opti)
          | Some g0 => g0
          end in
        let param_opti' :=
          mkOptiParam (o_data param_opti) (Some (copy_ g (m_grad param_model))) in
        r <- set_grad_loop rest_opti rest_model test_nan is_nan' ;;
        ret (fst r, (name_opti, param_opti') :: snd r)
  | _, _ => ret (is_nan, named_params_optimizer)
  end.

Definition set_optimizer_params_grad
           (named_params_optimizer : named_opti) (named_params_model : named_model)
           (test_nan : bool) : result (bool * named_opti) :=
  set_grad_loop named_params_optimizer named_params_model test_nan false.

(** *** The training loop *)

(** The optimizer's own state (moments, step counts) and its [step()]. *)
Variable opt_state : Type.
(** [optimizer.step()] on the CPU copy (fp16 or optimize_on_cpu). *)
Variable optimizer_step : opt_state -> named_opti -> opt_state * named_opti.
(** [optimizer.step()] when the optimizer holds the model's own parameters. *)
Variable optimizer_step_model : opt_state -> named_model -> opt_state * named_model.

(** A batch, the loss of the model on it, and [loss.backward()] for the
    loss multiplied by a scalar: the model with accumulated gradients. *)
Variable batch : Type.
Variable model_loss : named_model -> batch -> Q.
Variable backward : named_model -> batch -> Q -> named_model.

Record train_args : Type := mkTrainArgs {
  fp16 : bool;
  optimize_on_cpu : bool;
  gradient_accumulation_steps : Z
}.

(** What the loop of [train] reads and writes: the model, the
    optimizer's parameter list and state, [args.loss_scale],
    [global_step], and the calls made so far. *)
Record train_state : Type := mkTrainState {
  ts_model : named_model;
  ts_param_optimizer : named_opti;
  ts_optimizer : opt_state;
  ts_loss_scale : Q;
  ts_global_step : Z;
  ts_events : list event
}.

Definition zero_grad (m : named_model) : named_model :=
  map (fun np => (fst np, mkModelParam (m_data (snd np)) (zeros_like (m_grad (snd np))))) m.

(** [for param in model.parameters(): param.grad.data = param.grad.data / args.loss_scale] *)
Definition scale_down (m : named_model) (loss_scale : Q) : named_model :=
  map (fun np => (fst np, mkModelParam (m_data (snd np)) (tdiv (m_grad (snd np)) loss_scale))) m.

(** Lines 270-289: the end of the loop body, after [loss.backward()]. *)
Definition optimizer_boundary (args : train_args) (step : Z) (s : train_state)
  : result train_state :=
  if gradient_accumulation_steps args =? 0 then raise ZeroDivisionError
  else if (step + 1) mod gradient_accumulation_steps args =? 0 then
    if fp16 args || optimize_on_cpu args then
      let model1 :=
        if fp16 args && negb (Qeq_bool (ts_loss_scale s) 1)
        then scale_down (ts_model s) (ts_loss_scale s)
        else ts_model s in
      r <- set_optimizer_params_grad (ts_param_optimizer s) model1 true ;;
      let '(is_nan, po1) := r in
      if is_nan then
        (* halve the loss scale, zero the gradients, continue *)
        ret (mkTrainState (zero_grad model1) po1 (ts_optimizer s)
                          (ts_loss_scale s / 2)%Q (ts_global_step s)
                          (ts_events s ++ [EvLogNan; EvZeroGrad]))
      else
        let '(opt2, po2) := optimizer_step (ts_optimizer s) po1 in
        model2 <- copy_optimizer_params_to_model model1 po2 ;;
        ret (mkTrainState (zero_grad model2) po2 opt2
                          (ts_loss_scale s) (ts_global_step s + 1)
                          (ts_events s ++ [EvOptimizerStep; EvCopyToModel; EvZeroGrad]))
    else
      let '(opt2, model2) := optimizer_step_model (ts_optimizer s) (ts_model s) in
      ret (mkTrainState (zero_grad model2) (ts_param_optimizer s) opt2
                        (ts_loss_scale s) (ts_global_step s + 1)
                        (ts_events s ++ [EvOptimizerStep; EvZeroGrad]))
  else ret s.

(** The scalar by which the loss is multiplied before [backward()]
    (lines 259-264). *)
Definition loss_factor (args : train_args) (loss_scale : Q) : Q :=
  let f1 := if fp16 args && negb (Qeq_bool loss_scale 1) then loss_scale else 1%Q in
  if 1 <? gradient_accumulation_steps args
  then (f1 / inject_Z (gradient_accumulation_steps args))%Q
  else f1.

(** One iteration of [for step, batch in enumerate(epoch_iterator)]:
    forward, backward, then the optimizer boundary. The second component
    carries [tr_loss] and [nb_tr_steps]. The dump of the first batch to
    [dummy.json] (lines 238-247) and the progress-bar postfix write
    nothing of this state and are left out. *)
Definition train_batch (args : train_args) (step : Z) (b : batch)
           (st : train_state * (Q * Z)) : result (train_state * (Q * Z)) :=
  let '(s, (tr_loss, nb_tr_steps)) := st in
  let c := loss_factor args (ts_loss_scale s) in
  let loss := (model_loss (ts_model s) b * c)%Q in
  let s1 := mkTrainState (backward (ts_model s) b c) (ts_param_optimizer s)
                         (ts_optimizer s) (ts_loss_scale s) (ts_global_step s)
                         (ts_events s) in
  s2 <- optimizer_boundary args step s1 ;;
  ret (s2, ((tr_loss + loss)%Q, nb_tr_steps + 1)).

Fixpoint train_loop (args : train_args) (step : Z) (batches : list batch)
         (st : train_state * (Q * Z)) : result (train_state * (Q * Z)) :=
  match batches with
  | [] => ret st
  | b :: rest =>
      st' <- train_batch args step b st ;;
      train_loop args (step + 1) rest st'
  end.

End Training.

Arguments mkModelParam {tensor}.
Arguments m_data {tensor}.
Arguments m_grad {tensor}.
Arguments mkOptiParam {tensor}.
Arguments o_data {tensor}.
Arguments o_grad {tensor}.
Arguments mkTrainState {tensor opt_state}.
Arguments ts_model {tensor opt_state}.
Arguments ts_param_optimizer {tensor opt_state}.
Arguments ts_optimizer {tensor opt_state}.
Arguments ts_loss_scale {tensor opt_state}.
Arguments ts_global_step {tensor opt_state}.
Arguments ts_events {tensor opt_state}.

(** *** The bridge on parameters without gradient

    A parameter of torch has no gradient ([param.grad] is [None]) until
    a [backward()] reaches it. The two functions of the bridge are given
    here on such parameters, for both sequences; the functions of the
    training step above are these on a model whose gradients are all
    present. *)

Module Bridge.

Section Bridge.

Variable tensor : Type.
Variable has_nan : tensor -> bool.
Variable copy_ : tensor -> tensor -> tensor.
Variable new_like : tensor -> tensor.

Record parameter : Type := mkParameter {
  p_data : tensor;
  p_grad : option tensor
}.

Definition named_parameters : Type := list (string * parameter).

(** Only [param.data] is read, on both sides. *)
Fixpoint copy_optimizer_params_to_model
         (named_params_model named_params_optimizer : named_parameters)
  : result named_parameters :=
  match named_params_optimizer, named_params_model with
  | (name_opti, param_opti) :: rest_opti, (name_model, param_model) :: rest_model =>
      if negb (String.eqb name_opti name_model) then raise ValueError
      else
        rest <- copy_optimizer_params_to_model rest_model rest_opti ;;
        ret ((name_model,
              mkParameter (copy_ (p_data param_model) (p_data param_opti))
                          (p_grad param_model)) :: rest)
  | _, _ => ret named_params_model
  end.

(** Line 77 hands [param_model.grad] to [torch.isnan], which raises
    [TypeError] on [None]; line 83 reads [param_model.grad.data], which
    raises [AttributeError] on [None]. *)
Fixpoint set_grad_loop
         (named_params_optimizer named_params_model : named_parameters)
         (test_nan : bool) (is_nan : bool) : result (bool * named_parameters) :=
  match named_params_optimizer, named_params_model with
  | (name_opti, param_opti) :: rest_opti, (name_model, param_model) :: rest_model =>
      if negb (String.eqb name_opti name_model) then raise ValueError
      else
        is_nan' <- (if test_nan
                    then match p_grad param_model with
                         | None => raise TypeError
                         | Some g => ret (if has_nan g then true else is_nan)
                         end
                    else ret is_nan) ;;
        let g :=
          match p_grad param_opti with
          | None => new_like (p_data param_opti)
          | Some g0 => g0
          end in
        match p_grad param_model with
        | None => raise AttributeError
        | Some g_model =>
            r <- set_grad_loop rest_opti rest_model test_nan is_nan' ;;
            ret (fst r,
                 (name_opti, mkParameter (p_data param_opti) (Some (copy_ g g_model)))
                   :: snd r)
        end
  | _, _ => ret (is_nan, named_params_optimizer)
  end.

Definition set_optimizer_params_grad
           (named_params_optimizer named_params_model : named_parameters)
           (test_nan : bool) : result (bool * named_parameters) :=
  set_grad_loop named_params_optimizer named_params_model test_nan false.

End Bridge.

Arguments mkParameter {tensor}.
Arguments p_data {tensor}.
Arguments p_grad {tensor}.

End Bridge.

(** ** [datset_collate_fn] (run.py, lines 156-168) *)

(** A sample of the [TensorDataset]: seven tensors. *)
Record sample : Type := mkSample {
  s_input_ids : list Z;
  s_input_len : Z;
  s_input_mask : list Z;
  s_segment_ids : list Z;
  s_e1_mask : list Z;
  s_e2_mask : list Z;
  s_label_ids : list Q
}.

Record collated : Type := mkCollated {
  b_input_ids : list (list Z);
  b_input_lens : list Z;
  b_input_mask : list (list Z);
  b_segment_ids : list (list Z);
  b_e1_mask : list (list Z);
  b_e2_mask : list (list Z);
  b_label_ids : list (list Q)
}.

(** [torch.stack(rows, dim=0)] of one-dimensional tensors: the list must
    be non-empty and the tensors of equal size. *)
Definition stack {A : Type} (rows : list (list A)) : result (list (list A)) :=
  match rows with
  | [] => raise RuntimeError
  | r :: rest =>
      if forallb (fun r' => (length r' =? length r)%nat) rest
      then ret rows
      else raise RuntimeError
  end.

(** [torch.stack] of zero-dimensional tensors. *)
Definition stack0 {A : Type} (xs : list A) : result (list A) :=
  match xs with
  | [] => raise RuntimeError
  | _ => ret xs
  end.

(** The number of columns of a stacked matrix. *)
Definition width {A : Type} (m : list (list A)) : nat :=
  match m with
  | [] => 0%nat
  | r :: _ => length r
  end.

(** [m.ne(pad).any(dim=0)]: entry [j] tells whether column [j] holds a
    token other than [pad] in some row. *)
Definition ne_any (pad : Z) (m : list (list Z)) : list bool :=
  map (fun j => existsb (fun row => negb (nth j row pad =? pad)) m) (seq 0 (width m)).

(** The entries of a row at the positions where the mask is true. *)
Fixpoint select {A : Type} (mask : list bool) (row : list A) : list A :=
  match mask, row with
  | b :: mask', x :: row' => if b then x :: select mask' row' else select mask' row'
  | _, _ => []
  end.

(** [m[:, mask]]: the mask must be as long as the rows. *)
Definition index_columns {A : Type} (m : list (list A)) (mask : list bool)
  : result (list (list A)) :=
  if (length mask =? width m)%nat
  then ret (map (select mask) m)
  else raise IndexError.

Section Collate.

(** [tokenizer.pad_token_id] *)
Variable pad_token_id : Z.

Definition datset_collate_fn (samples : list sample) : result collated :=
  input_ids <- stack (map s_input_ids samples) ;;
  input_lens <- stack0 (map s_input_len samples) ;;
  input_mask <- stack (map s_input_mask samples) ;;
  segment_ids <- stack (map s_segment_ids samples) ;;
  e1_mask <- stack (map s_e1_mask samples) ;;
  e2_mask <- stack (map s_e2_mask samples) ;;
  label_ids <- stack (map s_label_ids samples) ;;
  let keep_column_mask := ne_any pad_token_id input_ids in
  ids' <- index_columns input_ids keep_column_mask ;;
  mask' <- index_columns input_mask keep_column_mask ;;
  seg' <- index_columns segment_ids keep_column_mask ;;
  e1' <- index_columns e1_mask keep_column_mask ;;
  e2' <- index_columns e2_mask keep_column_mask ;;
  ret (mkCollated ids' input_lens mask' seg' e1' e2' label_ids).

End Collate.

(** ** [get_dataloader] and [build_dataloader] (run.py, lines 170-220) *)

Record loader_args : Type := mkLoaderArgs {
  save_data : string;
  train_batch_size : Z;
  eval_batch_size : Z;
  shuffle : bool
}.

Definition string_of_nat (n : nat) : string :=
  DecimalString.NilEmpty.string_of_uint (Nat.to_uint n).

(** [args.save_data + "/{}-{}.pkl".format(datatype, idx)] *)
Definition shard_path (save_data datatype : string) (idx : nat) : string :=
  (save_data ++ "/" ++ datatype ++ "-" ++ string_of_nat idx ++ ".pkl")%string.

Definition valid_datatype (datatype : string) : bool :=
  existsb (String.eqb datatype) ["train"; "dev"; "test"]%string
  || String.prefix "devc" datatype || String.prefix "testc" datatype.

Definition max_split : nat := 10.

Section Loader.

(** The files under [args.save_data]: a path that exists holds a pickled
    list of parallel lists. *)
Variable fs : string -> option dataset.

(** The tensor library as [get_dataloader] calls it. Every call may
    raise: [torch.tensor] on a field that is no array of numbers of the
    requested type, [TensorDataset] on tensors of different first
    dimensions, [DataLoader] on a batch size that is not positive or when
    asked to shuffle an empty data set. *)
Variable Tensor : Type.
(** [torch.tensor(field, dtype=torch.long)] *)
Variable tensor_long : list item -> result Tensor.
(** [torch.tensor(field, dtype=torch.float)] *)
Variable tensor_float : list item -> result Tensor.
Variable tensor_dataset : Type.
(** [TensorDataset(t0, ..., t6)] *)
Variable TensorDataset : list Tensor -> result tensor_dataset.
Variable data_loader : Type.
(** [DataLoader(data, batch_size=..., shuffle=..., collate_fn=datset_collate_fn)] *)
Variable DataLoader : tensor_dataset -> Z -> bool -> result data_loader.

Definition get_dataloader (data_set : dataset) (args : loader_args)
           (batch_size : Z) (datatype : string) : result data_loader :=
  field0 <- getitem data_set 0 ;;
  tensor_word_inp <- tensor_long field0 ;;
  field1 <- getitem data_set 1 ;;
  tensor_context_len <- tensor_long field1 ;;
  field2 <- getitem data_set 2 ;;
  tensor_inp_mask <- tensor_long field2 ;;
  field3 <- getitem data_set 3 ;;
  tensor_seg_mask <- tensor_long field3 ;;
  field4 <- getitem data_set 4 ;;
  tensor_e1_mask <- tensor_long field4 ;;
  field5 <- getitem data_set 5 ;;
  tensor_e2_mask <- tensor_long field5 ;;
  field6 <- getitem data_set 6 ;;
  tensor_rid <- tensor_float field6 ;;
  data <- TensorDataset [tensor_word_inp; tensor_context_len; tensor_inp_mask;
                         tensor_seg_mask; tensor_e1_mask; tensor_e2_mask;
                         tensor_rid] ;;
  if String.eqb datatype "train" && shuffle args
  then DataLoader data batch_size true
  else DataLoader data batch_size false.

(** [[data_set[i] + ith_data_set[i] for i in range(len(data_set))]] *)
Definition concat_fields (data_set ith_data_set : dataset) : result dataset :=
  mapM (fun i =>
          a <- getitem data_set i ;;
          b <- getitem ith_data_set i ;;
          ret (a ++ b))
       (seq 0 (length data_set)).

(** [for idx in range(max_split)] with the loop-carried [data_set]. *)
Fixpoint load_shards (save_data datatype : string) (idxs : list nat)
         (data_set : dataset) : result dataset :=
  match idxs with
  | [] => ret data_set
  | idx :: rest =>
      match fs (shard_path save_data datatype idx) with
      | Some ith_data_set =>
          (* print(len(ith_data_set), len(ith_data_set[0]), len(ith_data_set[1])) *)
          _ <- getitem ith_data_set 0 ;;
          _ <- getitem ith_data_set 1 ;;
          data_set' <- concat_fields data_set ith_data_set ;;
          load_shards save_data datatype rest data_set'
      | None => load_shards save_data datatype rest data_set
      end
  end.

Definition build_dataloader (args : loader_args) (datatype : string)
  : result (dataset * data_loader) :=
  _ <- assert (valid_datatype datatype) ;;
  data_set <- load_shards (save_data args) datatype (seq 0 max_split)
                          (repeat [] 7) ;;
  (* print("concatted dataset:{}x{}".format(len(data_set), len(data_set[0]))) *)
  _ <- getitem data_set 0 ;;
  let batch_size :=
    if String.eqb datatype "train" then train_batch_size args
    else eval_batch_size args in
  loader <- get_dataloader data_set args batch_size datatype ;;
  ret (data_set, loader).

End Loader.

(** ** Start-up validation (run.py, lines 375-400) *)

Record start_args : Type := mkStartArgs {
  a_gradient_accumulation_steps : Z;
  a_train_batch_size : Z;
  a_do_train : bool;
  a_do_eval : bool;
  a_resume : bool
}.

(** The output directory: [None] when the path does not exist, otherwise
    the names listed by [os.listdir]. The log file of line 350 is opened
    inside it, so an existing path is a directory. *)
Definition directory : Type := option (list string).

Definition has_model_pt (d : directory) : bool :=
  match d with
  | Some entries => existsb (String.eqb "model.pt") entries
  | None => false
  end.

(** The three checks, in program order, with the assignment to
    [args.train_batch_size] between the first two and [os.makedirs] in the
    [else] branch of the third. The assignment of line 382 is
    [int(n / g)], a division of floats; it is the integer quotient taken
    here for a batch size below [2^53], and none of the checks reads
    it. *)
Definition startup_checks (args : start_args) (output_dir : directory)
  : result (start_args * directory) :=
  if a_gradient_accumulation_steps args <? 1 then raise ValueError
  else
    let args1 :=
      mkStartArgs (a_gradient_accumulation_steps args)
                  (Z.quot (a_train_batch_size args) (a_gradient_accumulation_steps args))
                  (a_do_train args) (a_do_eval args) (a_resume args) in
    if negb (a_do_train args1) && negb (a_do_eval args1) then raise ValueError
    else if has_model_pt output_dir then
      if a_do_train args1 && negb (a_resume args1) then raise ValueError
      else ret (args1, output_dir)
    else
      (* os.makedirs(args.output_dir, exist_ok=True) *)
      ret (args1, match output_dir with
                  | Some entries => Some entries
                  | None => Some []
                  end).

(** * Properties *)

(** ** The error monad *)

Lemma bind_inr {A B : Type} (m : result A) (k : A -> result B) (b : B) :
  bind m k = inr b -> exists a, m = inr a /\ k a = inr b.
Proof.
  destruct m as [e | a]; simpl; intros H.
  - discriminate.
  - exists a. split; [reflexivity | exact H].
Qed.

Lemma bind_ret {A B : Type} (a : A) (k : A -> result B) : bind (ret a) k = k a.
Proof. reflexivity. Qed.

Lemma bind_inr_l {A B : Type} (a : A) (k : A -> result B) : bind (inr a) k = k a.
Proof. reflexivity. Qed.

Lemma inr_inj {A B : Type} (a b : B) : @inr A B a = inr b -> a = b.
Proof.
  intros H. exact (f_equal (fun r => match r with inr x => x | inl _ => a end) H).
Qed.

Lemma assert_inr (b : bool) (u : unit) : assert b = inr u -> b = true.
Proof. destruct b; simpl; [reflexivity | discriminate]. Qed.

Lemma mapM_inr_length {A B : Type} (f : A -> result B) (l : list A) (bs : list B) :
  mapM f l = inr bs -> length bs = length l.
Proof.
  revert bs. induction l as [| a l IH]; simpl; intros bs H.
  - inversion H. reflexivity.
  - apply bind_inr in H. destruct H as [b [_ H]].
    apply bind_inr in H. destruct H as [bs' [Hbs' H]].
    inversion H. simpl. f_equal. apply IH. exact Hbs'.
Qed.

Lemma mapM_inr_nth {A B : Type} (f : A -> result B) (l : list A) (bs : list B) :
  mapM f l = inr bs ->
  forall i a, nth_error l i = Some a ->
              exists b, nth_error bs i = Some b /\ f a = inr b.
Proof.
  revert bs. induction l as [| a0 l IH]; simpl; intros bs H i a Hi.
  - destruct i; discriminate.
  - apply bind_inr in H. destruct H as [b [Hb H]].
    apply bind_inr in H. destruct H as [bs' [Hbs' H]].
    inversion H; subst bs. destruct i as [| i]; simpl in *.
    + inversion Hi; subst a0. exists b. split; [reflexivity | exact Hb].
    + eapply IH; eassumption.
Qed.

Lemma mapM_total {A B : Type} (f : A -> result B) (l : list A) :
  (forall a, In a l -> exists b, f a = inr b) ->
  exists bs, mapM f l = inr bs.
Proof.
  induction l as [| a l IH]; simpl; intros H.
  - exists []. reflexivity.
  - destruct (H a (or_introl eq_refl)) as [b Hb].
    destruct IH as [bs Hbs]; [intros a' Ha'; apply H; right; exact Ha' |].
    exists (b :: bs). rewrite Hb. simpl. rewrite Hbs. reflexivity.
Qed.

(** ** Comparisons of scores *)

Lemma Qgtb_true (a b : Q) : Qgtb a b = true <-> (b < a)%Q.
Proof.
  unfold Qgtb. rewrite negb_true_iff. split; intros H.
  - apply Qnot_le_lt. intros Hle. apply Qle_bool_iff in Hle. congruence.
  - destruct (Qle_bool a b) eqn:E; [| reflexivity].
    apply Qle_bool_iff in E. exfalso. apply (Qlt_not_le _ _ H). exact E.
Qed.

Lemma Qgtb_false (a b : Q) : Qgtb a b = false <-> (a <= b)%Q.
Proof.
  unfold Qgtb. rewrite negb_false_iff. apply Qle_bool_iff.
Qed.

(** ** [getpred]: the inner loop *)

(** The classes [j0 + k] whose score [row[k]] is above [T1], in order. *)
Fixpoint above (T1 : Q) (row : list Q) (j0 : Z) : list Z :=
  match row with
  | [] => []
  | x :: row' => if Qgtb x T1 then j0 :: above T1 row' (j0 + 1) else above T1 row' (j0 + 1)
  end.

Lemma getpred_scan_r (T1 : Q) (row : list Q) :
  forall j0 st, sc_r (getpred_scan T1 row j0 st) = sc_r st ++ above T1 row j0.
Proof.
  induction row as [| x row IH]; simpl; intros j0 st.
  - rewrite app_nil_r. reflexivity.
  - rewrite IH. unfold getpred_step.
    destruct (Qgtb x T1), (Qgtb x (sc_maxl st)); simpl;
      try rewrite <- app_assoc; reflexivity.
Qed.

Lemma above_In (T1 : Q) (row : list Q) :
  forall j0 c,
    In c (above T1 row j0) <->
    exists k, c = j0 + Z.of_nat k /\ (k < length row)%nat /\ (T1 < nth k row 0)%Q.
Proof.
  induction row as [| x row IH]; simpl; intros j0 c.
  - split; [intros [] | intros [k [_ [Hk _]]]; lia].
  - destruct (Qgtb x T1) eqn:E.
    + simpl. rewrite IH. split.
      * intros [H | [k [Hc [Hk Hx]]]].
        -- exists 0%nat. repeat split; [lia | lia |]. apply Qgtb_true. exact E.
        -- exists (S k). repeat split; [lia | lia | exact Hx].
      * intros [[| k] [Hc [Hk Hx]]].
        -- left. lia.
        -- right. exists k. repeat split; [lia | lia | exact Hx].
    + rewrite IH. split.
      * intros [k [Hc [Hk Hx]]]. exists (S k). repeat split; [lia | lia | exact Hx].
      * intros [[| k] [Hc [Hk Hx]]].
        -- simpl in Hx. apply Qgtb_false in E. exfalso.
           apply (Qlt_not_le _ _ Hx). exact E.
        -- exists k. repeat split; [lia | lia | exact Hx].
Qed.

Lemma above_lower (T1 : Q) (row : list Q) :
  forall j0 c, In c (above T1 row j0) -> j0 <= c.
Proof.
  intros j0 c H. apply above_In in H. destruct H as [k [Hc _]]. lia.
Qed.

Lemma above_NoDup (T1 : Q) (row : list Q) :
  forall j0, NoDup (above T1 row j0).
Proof.
  induction row as [| x row IH]; simpl; intros j0.
  - constructor.
  - destruct (Qgtb x T1).
    + constructor; [| apply IH].
      intros H. apply above_lower in H. lia.
    + apply IH.
Qed.

Ltac scan_max_case Hall Hfirst :=
  first
    [ lia
    | assumption
    | lra
    | let i := fresh "i" in
      let Hi := fresh "Hi" in
      intros [| i] Hi; simpl;
      first [ lia | lra | apply Qle_refl | assumption
            | apply Hall; lia | apply Hfirst; lia ] ].

(** The running maximum: either no score of the row beats the incoming
    [maxl], or the loop stops at the first position of the largest score. *)
Lemma getpred_scan_max (T1 : Q) (row : list Q) :
  forall j0 st,
    let st' := getpred_scan T1 row j0 st in
    (sc_maxl st' = sc_maxl st /\ sc_maxj st' = sc_maxj st /\
     forall i, (i < length row)%nat -> (nth i row 0 <= sc_maxl st)%Q)
    \/
    (exists k, (k < length row)%nat /\
               sc_maxj st' = j0 + Z.of_nat k /\
               sc_maxl st' = nth k row 0%Q /\
               (sc_maxl st < nth k row 0)%Q /\
               (forall i, (i < length row)%nat -> (nth i row 0 <= nth k row 0)%Q) /\
               (forall i, (i < k)%nat -> (nth i row 0 < nth k row 0)%Q)).
Proof.
  induction row as [| x row IH]; intros j0 st; simpl.
  - left. repeat split. intros i Hi. lia.
  - specialize (IH (j0 + 1) (getpred_step T1 st j0 x)). simpl in IH.
    unfold getpred_step in IH |- *.
    destruct (Qgtb x (sc_maxl st)) eqn:E; simpl in IH |- *.
    + apply Qgtb_true in E.
      destruct IH as [[Hl [Hj Hall]] | [k [Hk [Hj [Hl [Hlt [Hall Hfirst]]]]]]].
      * right. exists 0%nat. simpl. repeat split; scan_max_case Hall Hall.
      * right. exists (S k). simpl. repeat split; scan_max_case Hall Hfirst.
    + apply Qgtb_false in E.
      destruct IH as [[Hl [Hj Hall]] | [k [Hk [Hj [Hl [Hlt [Hall Hfirst]]]]]]].
      * left. repeat split; scan_max_case Hall Hall.
      * right. exists (S k). simpl. repeat split; scan_max_case Hall Hfirst.
Qed.

(** ** [getpred]: what is predicted for an example *)

(** A row of a probability matrix: one score per class, each in [[0, 1]]. *)
Definition prob_row (row : list Q) : Prop :=
  row <> [] /\ Forall (fun s => 0 <= s /\ s <= 1)%Q row.

Definition prob_matrix (result : list (list Q)) : Prop := Forall prob_row result.

(** Class [c] has a score strictly above [T1]. *)
Definition above_T1 (T1 : Q) (row : list Q) (c : Z) : Prop :=
  exists j, c = Z.of_nat j /\ (j < length row)%nat /\ (T1 < nth j row 0)%Q.

(** Class [j] is the highest-scoring class (the first one among ties). *)
Definition highest_scoring (row : list Q) (j : nat) : Prop :=
  (j < length row)%nat /\
  (forall i, (i < length row)%nat -> (nth i row 0 <= nth j row 0)%Q) /\
  (forall i, (i < j)%nat -> (nth i row 0 < nth j row 0)%Q).

(** The prediction [r] the claim describes for a row. *)
Definition predicts (T1 T2 : Q) (row : list Q) (r : list Z) : Prop :=
  ((exists c, above_T1 T1 row c) ->
   NoDup r /\ forall c, In c r <-> above_T1 T1 row c)
  /\
  ((forall c, ~ above_T1 T1 row c) ->
   exists j, highest_scoring row j /\
             (((T2 < nth j row 0)%Q /\ r = [Z.of_nat j]) \/
              ((nth j row 0 <= T2)%Q /\ r = [36]))).

Lemma above_T1_iff (T1 : Q) (row : list Q) (c : Z) :
  In c (above T1 row 0) <-> above_T1 T1 row c.
Proof.
  rewrite above_In. unfold above_T1.
  split; intros [k [Hc H]]; exists k; (split; [lia | exact H]).
Qed.

Lemma getpred_row_above (T1 T2 : Q) (row : list Q) :
  above T1 row 0 <> [] -> getpred_row T1 T2 row = above T1 row 0.
Proof.
  intros Hne. unfold getpred_row. rewrite getpred_scan_r. simpl.
  destruct (above T1 row 0) as [| c l]; [contradiction | reflexivity].
Qed.

Lemma getpred_row_fallback (T1 T2 : Q) (row : list Q) :
  above T1 row 0 = [] ->
  getpred_row T1 T2 row =
  let st := getpred_scan T1 row 0 scan0 in
  if Qle_bool (sc_maxl st) T2 then [36] else [sc_maxj st].
Proof.
  intros He. unfold getpred_row. rewrite getpred_scan_r. simpl. rewrite He.
  reflexivity.
Qed.

(** On an empty row the sentinel [maxj = -1] is what is left to predict
    when [T2] is below the sentinel [maxl = -1]. *)
Lemma getpred_row_nil (T1 T2 : Q) :
  getpred_row T1 T2 [] = if Qle_bool (-1 # 1) T2 then [36] else [-1].
Proof. reflexivity. Qed.

Lemma getpred_row_predicts (T1 T2 : Q) (row : list Q) :
  prob_row row -> predicts T1 T2 row (getpred_row T1 T2 row).
Proof.
  intros [Hne Hprob]. split.
  - intros [c Hc]. apply above_T1_iff in Hc.
    rewrite getpred_row_above.
    + split; [apply above_NoDup | intros c'; apply above_T1_iff].
    + intros He. rewrite He in Hc. exact Hc.
  - intros Hnone.
    assert (He : above T1 row 0 = []).
    { destruct (above T1 row 0) as [| c l] eqn:E; [reflexivity |].
      exfalso. apply (Hnone c). apply above_T1_iff. rewrite E. left. reflexivity. }
    rewrite (getpred_row_fallback _ _ _ He). cbv zeta.
    destruct (getpred_scan_max T1 row 0 scan0)
      as [[_ [_ Hall]] | [k [Hk [Hj [Hl [_ [Hall Hfirst]]]]]]].
    + exfalso. destruct row as [| x row]; [contradiction |].
      specialize (Hall 0%nat). simpl in Hall.
      inversion Hprob as [| ? ? [Hx _] _]; subst.
      assert (H : (x <= -1 # 1)%Q) by (apply Hall; lia).
      lra.
    + exists k. split; [repeat split; assumption |].
      rewrite Hl, Hj.
      destruct (Qle_bool (nth k row 0%Q) T2) eqn:E.
      * right. split; [apply Qle_bool_iff; exact E | reflexivity].
      * left. split; [| reflexivity].
        apply Qnot_le_lt. intros Hle. apply Qle_bool_iff in Hle. congruence.
Qed.

(** C2. On a probability matrix [getpred] predicts, for every example,
    exactly the classes whose score is strictly above [T1]; when there is
    none it predicts the single highest-scoring class if the score of that
    class is strictly above [T2], and only the no-relation class 36
    otherwise. *)
Theorem getpred_predicts (result : list (list Q)) (T1 T2 : Q) :
  prob_matrix result ->
  Forall2 (predicts T1 T2) result (getpred result T1 T2).
Proof.
  unfold prob_matrix, getpred. intros H.
  induction H as [| row result Hrow _ IH]; simpl; constructor.
  - apply getpred_row_predicts. exact Hrow.
  - exact IH.
Qed.

Definition probs_example : list (list Q) :=
  [[1 # 10; 7 # 10; 3 # 10]; [2 # 10; 45 # 100; 45 # 100]; [1 # 10; 0; 3 # 10]]%Q.

Lemma getpred_example :
  getpred probs_example (1 # 2) (2 # 5) = [[1]; [1]; [36]].
Proof. reflexivity. Qed.

Lemma probs_example_prob : prob_matrix probs_example.
Proof.
  unfold prob_matrix, probs_example, prob_row.
  repeat constructor; try discriminate; unfold Qle; simpl; lia.
Defined.

Lemma getpred_predicts_witness :
  prob_matrix probs_example /\
  Forall2 (predicts (1 # 2) (2 # 5)) probs_example
          (getpred probs_example (1 # 2) (2 # 5)).
Proof.
  split; [exact probs_example_prob |].
  apply (getpred_predicts probs_example (1 # 2) (2 # 5)).
  exact probs_example_prob.
Defined.

(** The prediction for a row is never empty. *)
Lemma getpred_row_nonempty (T1 T2 : Q) (row : list Q) :
  getpred_row T1 T2 row <> [].
Proof.
  unfold getpred_row.
  destruct (length (sc_r (getpred_scan T1 row 0 scan0)) =? 0)%nat eqn:E.
  - destruct (Qle_bool _ T2); [discriminate |].
    intros H. apply app_eq_nil in H. destruct H as [_ H]. discriminate.
  - intros H. rewrite H in E. simpl in E. discriminate.
Qed.

(** ** [geteval]: the three counters *)

Definition not36 (id : Z) : bool := negb (id =? 36).

(** Gold relations of one example, and predicted relations of one example. *)
Definition n_rel (ids : list Z) : nat := length (filter not36 ids).

(** Gold relations of one example that are predicted. *)
Definition n_hit (devp_i data_i : list Z) : nat :=
  length (filter (fun id => not36 id && mem id devp_i) data_i).

Lemma count_gold_spec (devp_i data_i : list Z) :
  forall c,
    count_gold devp_i data_i c =
    mkCounts (correct_sys c + n_hit devp_i data_i) (all_sys c)
             (correct_gt c + n_rel data_i).
Proof.
  unfold n_hit, n_rel, not36.
  induction data_i as [| id rest IH]; intros c; simpl.
  - destruct c; simpl. f_equal; lia.
  - rewrite IH. destruct (id =? 36); simpl.
    + reflexivity.
    + destruct (mem id devp_i); simpl; f_equal; lia.
Qed.

Lemma count_sys_spec (devp_i : list Z) :
  forall c,
    count_sys devp_i c =
    mkCounts (correct_sys c) (all_sys c + n_rel devp_i) (correct_gt c).
Proof.
  unfold n_rel, not36.
  induction devp_i as [| id rest IH]; intros c; simpl.
  - destruct c; simpl. f_equal; lia.
  - rewrite IH. destruct (id =? 36); simpl; f_equal; lia.
Qed.

(** The totals over the examples visited by the loop. *)
Fixpoint sum_hit (devp data : list (list Z)) {struct data} : nat :=
  match data, devp with
  | d :: ds, p :: ps => (n_hit p d + sum_hit ps ds)%nat
  | _, _ => 0%nat
  end.

Fixpoint sum_sys (devp data : list (list Z)) {struct data} : nat :=
  match data, devp with
  | _ :: ds, p :: ps => (n_rel p + sum_sys ps ds)%nat
  | _, _ => 0%nat
  end.

Fixpoint sum_gold (data : list (list Z)) : nat :=
  match data with
  | d :: ds => (n_rel d + sum_gold ds)%nat
  | [] => 0%nat
  end.

Lemma geteval_loop_spec (data : list (list Z)) :
  forall devp c,
    (length data <= length devp)%nat ->
    geteval_loop devp data c =
    inr (mkCounts (correct_sys c + sum_hit devp data)
                  (all_sys c + sum_sys devp data)
                  (correct_gt c + sum_gold data)).
Proof.
  induction data as [| d ds IH]; intros devp c Hlen; simpl.
  - unfold ret. destruct c; simpl. f_equal. f_equal; lia.
  - destruct devp as [| p ps]; simpl in Hlen; [lia |].
    rewrite IH by lia. rewrite count_sys_spec, count_gold_spec. simpl.
    f_equal. f_equal; lia.
Qed.

Lemma geteval_loop_short (data : list (list Z)) :
  forall devp c,
    (length devp < length data)%nat ->
    geteval_loop devp data c = inl IndexError.
Proof.
  induction data as [| d ds IH]; intros devp c Hlen; simpl in *.
  - lia.
  - destruct devp as [| p ps]; [reflexivity |].
    apply IH. simpl in Hlen. lia.
Qed.

Lemma geteval_spec (devp data : list (list Z)) :
  (length data <= length devp)%nat ->
  geteval devp data =
  inr (f1_of_counts (mkCounts (sum_hit devp data) (sum_sys devp data) (sum_gold data))).
Proof.
  intros Hlen. unfold geteval. rewrite geteval_loop_spec by exact Hlen. reflexivity.
Qed.

(** ** The F1 value *)


Lemma Qnat_pos (n : nat) : (0 < n)%nat -> (0 < Qnat n)%Q.
Proof. intros H. unfold Qnat, Qlt. simpl. lia. Qed.



Lemma ratio_same (n : nat) : (0 < n)%nat -> (Qnat n / Qnat n == 1)%Q.
Proof.
  intros Hn. pose proof (Qnat_pos n Hn). field. lra.
Qed.


Definition precision_of (c : counts) : Q :=
  if (all_sys c =? 0)%nat then 1%Q else (Qnat (correct_sys c) / Qnat (all_sys c))%Q.

Definition recall_of (c : counts) : Q :=
  if (correct_gt c =? 0)%nat then 0%Q else (Qnat (correct_sys c) / Qnat (correct_gt c))%Q.



Lemma f1_of_counts_unfold (c : counts) :
  f1_of_counts c =
  if negb (Qeq_bool (precision_of c + recall_of c) 0)
  then (2 * precision_of c * recall_of c / (precision_of c + recall_of c))%Q
  else 0%Q.
Proof. reflexivity. Qed.



(** Recall is defined as 0 when there is no gold relation: F1 is 0. *)
Lemma f1_no_gold (c : counts) : correct_gt c = 0%nat -> (f1_of_counts c == 0)%Q.
Proof.
  intros Hgt. rewrite f1_of_counts_unfold.
  assert (Hr : recall_of c = 0%Q) by (unfold recall_of; rewrite Hgt; reflexivity).
  rewrite Hr.
  destruct (Qeq_bool (precision_of c + 0) 0) eqn:E; simpl; [reflexivity |].
  apply Qeq_bool_neq in E. field. intros H. apply E. lra.
Qed.

(** All three counters equal and positive: F1 is 1. *)
Lemma f1_perfect (n : nat) :
  (0 < n)%nat -> (f1_of_counts (mkCounts n n n) == 1)%Q.
Proof.
  intros Hn. rewrite f1_of_counts_unfold. unfold precision_of, recall_of. simpl.
  destruct (n =? 0)%nat eqn:E; [apply Nat.eqb_eq in E; lia |].
  pose proof (ratio_same n Hn) as H1.
  assert (Hs : (Qnat n / Qnat n + Qnat n / Qnat n == 2)%Q) by (rewrite H1; reflexivity).
  destruct (Qeq_bool (Qnat n / Qnat n + Qnat n / Qnat n) 0) eqn:E2; simpl.
  - apply Qeq_bool_iff in E2. rewrite Hs in E2. discriminate.
  - rewrite Hs. rewrite H1. reflexivity.
Qed.

(** ** Data sets without a gold relation *)

Definition all_no_relation (data : list (list Z)) : Prop :=
  Forall (Forall (fun id => id = 36)) data.

Lemma n_rel_no_relation (d : list Z) : Forall (fun id => id = 36) d -> n_rel d = 0%nat.
Proof.
  unfold n_rel, not36. induction 1 as [| id d Hid _ IH]; simpl.
  - reflexivity.
  - subst id. simpl. exact IH.
Qed.

Lemma sum_gold_no_relation (data : list (list Z)) :
  all_no_relation data -> sum_gold data = 0%nat.
Proof.
  induction 1 as [| d data Hd _ IH]; simpl.
  - reflexivity.
  - rewrite (n_rel_no_relation d Hd), IH. reflexivity.
Qed.

(** C10. Whatever the scores and the thresholds, [getpred] returns one
    non-empty prediction per example; and on a data set whose gold labels
    are all the no-relation class 36, [geteval] returns an F1 of 0 for any
    predictions, recall being 0 when no gold relation is counted and
    precision 1 when no predicted relation is counted. *)
Theorem getpred_never_empty (result : list (list Q)) (T1 T2 : Q) :
  length (getpred result T1 T2) = length result /\
  (forall r, In r (getpred result T1 T2) -> r <> []) /\
  (forall devp data,
      (length data <= length devp)%nat ->
      all_no_relation data ->
      exists f, geteval devp data = inr f /\ (f == 0)%Q) /\
  (forall c, correct_gt c = 0%nat -> recall_of c = 0%Q) /\
  (forall c, all_sys c = 0%nat -> precision_of c = 1%Q).
Proof.
  repeat split.
  - unfold getpred. apply length_map.
  - intros r Hr. unfold getpred in Hr. apply in_map_iff in Hr.
    destruct Hr as [row [Hrow _]]. subst r. apply getpred_row_nonempty.
  - intros devp data Hlen Hall. rewrite (geteval_spec devp data Hlen).
    eexists. split; [reflexivity |].
    apply f1_no_gold. simpl. apply sum_gold_no_relation. exact Hall.
  - intros c Hc. unfold recall_of. rewrite Hc. reflexivity.
  - intros c Hc. unfold precision_of. rewrite Hc. reflexivity.
Qed.

(** ** The gold labels *)

(** The loop of [label_scan] collects, in order, the positions holding 1. *)
Lemma label_scan_fold (v : list Z) (idxs : list nat) :
  forall acc,
    fold_left (fun label i => if nth i v 0 =? 1 then label ++ [Z.of_nat i] else label)
              idxs acc =
    acc ++ map Z.of_nat (filter (fun i => nth i v 0 =? 1) idxs).
Proof.
  induction idxs as [| i idxs IH]; intros acc; simpl.
  - rewrite app_nil_r. reflexivity.
  - rewrite IH. destruct (nth i v 0 =? 1); simpl.
    + rewrite <- app_assoc. reflexivity.
    + reflexivity.
Qed.

Lemma label_scan_spec (v : list Z) :
  label_scan v = map Z.of_nat (filter (fun i => nth i v 0 =? 1) (seq 0 36)).
Proof. unfold label_scan. rewrite label_scan_fold. reflexivity. Qed.

Lemma label_scan_zeros (v : list Z) :
  Forall (fun x => x = 0) v -> label_scan v = [].
Proof.
  intros Hz. rewrite label_scan_spec.
  assert (Hnth : forall i, nth i v 0 = 0).
  { intros i. destruct (Nat.lt_ge_cases i (length v)) as [Hi | Hi].
    - rewrite Forall_forall in Hz. apply Hz. apply nth_In. exact Hi.
    - apply nth_overflow. exact Hi. }
  induction (seq 0 36) as [| i l IH]; simpl.
  - reflexivity.
  - rewrite Hnth. simpl. exact IH.
Qed.



Lemma gold_label_vec (v : list Z) :
  length v = 36%nat ->
  gold_label (IVec v) =
  inr (if (length (label_scan v) =? 0)%nat then [36] else label_scan v).
Proof.
  intros Hlen. unfold gold_label. rewrite Hlen. reflexivity.
Qed.

Lemma gold_label_inr (it : item) (l : list Z) :
  gold_label it = inr l ->
  exists v, it = IVec v /\ length v = 36%nat /\
            l = if (length (label_scan v) =? 0)%nat then [36] else label_scan v.
Proof.
  destruct it as [n | v]; intros H; [discriminate H |].
  exists v. split; [reflexivity |].
  destruct (Nat.eq_dec (length v) 36) as [E | E].
  - split; [exact E |]. rewrite (gold_label_vec v E) in H.
    apply inr_inj in H. symmetry. exact H.
  - exfalso. unfold gold_label in H. apply Nat.eqb_neq in E. rewrite E in H.
    discriminate H.
Qed.


(** A well-formed entry of the label field: a vector of 36 entries. *)
Definition label_vector (it : item) : Prop :=
  exists v, it = IVec v /\ length v = 36%nat.

Lemma gold_labels_total (label_id_lst : list item) :
  Forall label_vector label_id_lst ->
  exists labels, gold_labels label_id_lst = inr labels.
Proof.
  intros Hwf. unfold gold_labels. apply mapM_total.
  intros it Hin. rewrite Forall_forall in Hwf.
  destruct (Hwf it Hin) as [v [Hv Hlen]]. subst it.
  rewrite (gold_label_vec v Hlen). eexists. reflexivity.
Qed.

(** C3. For an example whose 36-entry label vector is all zeros, the gold
    label built by [f1_eval] for that example is the singleton [[36]]:
    the loop body yields it, the loop over well-formed label vectors
    returns, and the list it returns holds [[36]] at that example. *)
Theorem all_zero_label_is_no_relation (v : list Z) :
  length v = 36%nat ->
  Forall (fun x => x = 0) v ->
  gold_label (IVec v) = inr [36] /\
  forall label_id_lst idx,
    nth_error label_id_lst idx = Some (IVec v) ->
    (Forall label_vector label_id_lst ->
     exists labels, gold_labels label_id_lst = inr labels) /\
    (forall labels,
        gold_labels label_id_lst = inr labels -> nth_error labels idx = Some [36]).
Proof.
  intros Hlen Hz.
  assert (Hg : gold_label (IVec v) = inr [36]).
  { rewrite (gold_label_vec v Hlen). rewrite (label_scan_zeros v Hz). reflexivity. }
  split; [exact Hg |].
  intros label_id_lst idx Hidx. split.
  - apply gold_labels_total.
  - intros labels Hl. unfold gold_labels in Hl.
    destruct (mapM_inr_nth _ _ _ Hl idx _ Hidx) as [l [Hnth Hgold]].
    rewrite Hnth. rewrite Hg in Hgold. inversion Hgold. reflexivity.
Qed.

Definition one_hot (i : nat) : item :=
  IVec (map (fun j => if (j =? i)%nat then 1 else 0) (seq 0 36)).

Definition label_ids_example : list item := [one_hot 3; IVec (repeat 0 36); one_hot 35].

Lemma gold_labels_example :
  gold_labels label_ids_example = inr [[3]; [36]; [35]].
Proof. reflexivity. Qed.

Lemma all_zero_label_is_no_relation_witness :
  gold_label (IVec (repeat 0 36)) = inr [36] /\
  nth_error [[3]; [36]; [35]] 1 = Some [36].
Proof.
  assert (Hlen : length (repeat 0 36) = 36%nat) by reflexivity.
  assert (Hz : Forall (fun x => x = 0) (repeat 0 36)) by (repeat constructor).
  destruct (all_zero_label_is_no_relation (repeat 0 36) Hlen Hz) as [Hg Hlst].
  split; [exact Hg |].
  destruct (Hlst label_ids_example 1%nat eq_refl) as [_ Hnth].
  apply Hnth. reflexivity.
Defined.

(** ** Comparisons of floats *)

(** The place of a float on the number line: the sign class first, then
    exponent and mantissa, negated below zero. NaN has no place. *)
Definition key (x : spec_float) : option (Z * Z * Z) :=
  match x with
  | S754_nan => None
  | S754_infinity true => Some (-2, 0, 0)
  | S754_finite true m e => Some (-1, - e, - Z.pos m)
  | S754_zero _ => Some (0, 0, 0)
  | S754_finite false m e => Some (1, e, Z.pos m)
  | S754_infinity false => Some (2, 0, 0)
  end.

Definition lt3 (a b : Z * Z * Z) : Prop :=
  fst (fst a) < fst (fst b) \/
  (fst (fst a) = fst (fst b) /\
   (snd (fst a) < snd (fst b) \/ (snd (fst a) = snd (fst b) /\ snd a < snd b))).

Definition eq3 (a b : Z * Z * Z) : Prop :=
  fst (fst a) = fst (fst b) /\ snd (fst a) = snd (fst b) /\ snd a = snd b.

Ltac compare_cases :=
  repeat match goal with
         | |- context [Pos.compare_cont Eq ?a ?b] =>
             change (Pos.compare_cont Eq a b) with (Pos.compare a b);
             destruct (Pos.compare_spec a b)
         | |- context [Z.compare ?a ?b] => destruct (Z.compare_spec a b)
         end;
  cbn [CompOpp].

Ltac key_cases close :=
  split;
  [ intros Hcmp;
    first [ discriminate Hcmp
          | do 2 eexists;
            split; [reflexivity | split; [reflexivity |
              unfold lt3, eq3; cbn [fst snd]; close ]] ]
  | intros [a [b [Ha [Hb Hab]]]];
    first [ discriminate Ha | discriminate Hb
          | injection Ha as <-; injection Hb as <-; unfold lt3, eq3 in Hab;
            cbn [fst snd] in Hab; first [reflexivity | lia] ] ].

Lemma SFltb_key (x y : spec_float) :
  SFltb x y = true <-> exists a b, key x = Some a /\ key y = Some b /\ lt3 a b.
Proof.
  unfold SFltb.
  destruct x as [sx | sx | | sx mx ex], y as [sy | sy | | sy my ey];
    try destruct sx; try destruct sy; cbn [SFcompare key]; compare_cases;
    key_cases lia.
Qed.

Lemma SFleb_key (x y : spec_float) :
  SFleb x y = true <->
  exists a b, key x = Some a /\ key y = Some b /\ (lt3 a b \/ eq3 a b).
Proof.
  unfold SFleb.
  destruct x as [sx | sx | | sx mx ex], y as [sy | sy | | sy my ey];
    try destruct sx; try destruct sy; cbn [SFcompare key]; compare_cases;
    key_cases lia.
Qed.

Lemma SFeqb_key (x y : spec_float) :
  SFeqb x y = true <-> exists a b, key x = Some a /\ key y = Some b /\ eq3 a b.
Proof.
  unfold SFeqb.
  destruct x as [sx | sx | | sx mx ex], y as [sy | sy | | sy my ey];
    try destruct sx; try destruct sy; cbn [SFcompare key]; compare_cases;
    key_cases lia.
Qed.

(** A relation on keys, read on two floats. *)
Definition on_keys (R : Z * Z * Z -> Z * Z * Z -> Prop) (x y : float) : Prop :=
  match key (Prim2SF x), key (Prim2SF y) with
  | Some a, Some b => R a b
  | _, _ => False
  end.

Lemma on_keys_iff (R : Z * Z * Z -> Z * Z * Z -> Prop) (x y : float) :
  (exists a b, key (Prim2SF x) = Some a /\ key (Prim2SF y) = Some b /\ R a b) <->
  on_keys R x y.
Proof.
  unfold on_keys. split.
  - intros [a [b [Ha [Hb H]]]]. rewrite Ha, Hb. exact H.
  - destruct (key (Prim2SF x)) as [a |]; [| intros []].
    destruct (key (Prim2SF y)) as [b |]; [| intros []].
    intros H. exists a, b. repeat split. exact H.
Qed.

Lemma ltb_keys (x y : float) : (x <? y)%float = true <-> on_keys lt3 x y.
Proof. rewrite ltb_spec, SFltb_key. apply on_keys_iff. Qed.

Lemma leb_keys (x y : float) :
  (x <=? y)%float = true <-> on_keys (fun a b => lt3 a b \/ eq3 a b) x y.
Proof. rewrite leb_spec, SFleb_key. apply on_keys_iff. Qed.

Lemma eqb_keys (x y : float) : (x =? y)%float = true <-> on_keys eq3 x y.
Proof. rewrite eqb_spec, SFeqb_key. apply on_keys_iff. Qed.

(** Comparisons among a few floats, decided on their keys. *)
Ltac float_order :=
  repeat match goal with
         | H : (_ <? _)%float = true |- _ => apply ltb_keys in H
         | H : (_ <=? _)%float = true |- _ => apply leb_keys in H
         | H : (_ =? _)%float = true |- _ => apply eqb_keys in H
         | H : (_ <? _)%float = false |- _ =>
             apply not_true_iff_false in H; rewrite ltb_keys in H
         | H : (_ <=? _)%float = false |- _ =>
             apply not_true_iff_false in H; rewrite leb_keys in H
         | H : (_ =? _)%float = false |- _ =>
             apply not_true_iff_false in H; rewrite eqb_keys in H
         | |- (_ <? _)%float = true => apply ltb_keys
         | |- (_ <=? _)%float = true => apply leb_keys
         | |- (_ =? _)%float = true => apply eqb_keys
         | |- (_ <? _)%float = false => apply not_true_iff_false; rewrite ltb_keys
         | |- (_ <=? _)%float = false => apply not_true_iff_false; rewrite leb_keys
         | |- (_ =? _)%float = false => apply not_true_iff_false; rewrite eqb_keys
         end;
  unfold on_keys in *;
  repeat match goal with
         | |- context [key (Prim2SF ?x)] =>
             destruct (key (Prim2SF x)) as [[[? ?] ?] |]
         | H : context [key (Prim2SF ?x)] |- _ =>
             destruct (key (Prim2SF x)) as [[[? ?] ?] |]
         end;
  unfold lt3, eq3 in *; cbn [fst snd] in *; try tauto; try lia.

Lemma ltb_irrefl (x : float) : (x <? x)%float = false.
Proof. float_order. Qed.

Lemma ltb_trans (a b c : float) :
  (a <? b)%float = true -> (b <? c)%float = true -> (a <? c)%float = true.
Proof. intros H1 H2. float_order. Qed.

Lemma ltb_asym (a b : float) : (a <? b)%float = true -> (b <? a)%float = false.
Proof. intros H1. float_order. Qed.

Lemma ltb_not_leb (a b : float) : (a <? b)%float = true -> (b <=? a)%float = false.
Proof. intros H1. float_order. Qed.

(** After [best] was replaced by a larger [f], a value that did not
    exceed [best] neither exceeds nor reaches [f]. *)
Lemma ltb_not_exceeded (best f x : float) :
  (best <? f)%float = true -> (best <? x)%float = false -> (f <? x)%float = false.
Proof. intros H1 H2. float_order. Qed.

Lemma ltb_not_reached (best f x : float) :
  (best <? f)%float = true -> (best <? x)%float = false -> (f <=? x)%float = false.
Proof. intros H1 H2. float_order. Qed.

Lemma leb_not_ltb (a b : float) :
  (a <=? b)%float = true -> (a <? b)%float = false -> (b =? a)%float = true.
Proof. intros H1 H2. float_order. Qed.



(** ** Counters as floats *)

(** A finite float other than zero divided by itself is 1.0: the quotient
    of the mantissas is exact. *)
Lemma div_same (x : float) (s : bool) (m : positive) (e : Z) :
  Prim2SF x = S754_finite s m e -> (x / x)%float = 1%float.
Proof.
  intros H. apply Prim2SF_inj. rewrite FloatAxioms.div_spec, H.
  unfold SF64div, SFdiv, SFdiv_core_binary.
  rewrite !Z.sub_diag.
  change (Z.min (fexp prec emax 0) 0) with (-53).
  change (0 - -53) with 53.
  cbv iota beta.
  rewrite Z.shiftl_mul_pow2 by lia.
  assert (Hq : Z.div_eucl (Z.pos m * 2 ^ 53) (Z.pos m) = (2 ^ 53, 0)).
  { pose proof (Z.div_eucl_eq (Z.pos m * 2 ^ 53) (Z.pos m)) as Heq.
    pose proof (Z.mod_pos_bound (Z.pos m * 2 ^ 53) (Z.pos m)) as Hb.
    unfold Z.modulo, Z.div in *.
    destruct (Z.div_eucl (Z.pos m * 2 ^ 53) (Z.pos m)) as [q r].
    assert (Hm : 0 < Z.pos m) by lia.
    specialize (Heq ltac:(lia)). specialize (Hb Hm).
    assert (q = 2 ^ 53) by nia. subst q. f_equal. lia. }
  rewrite Hq.
  assert (Hl : new_location (Z.pos m) 0 = loc_Exact).
  { unfold new_location. destruct (Z.even (Z.pos m)); reflexivity. }
  rewrite Hl. destruct s; reflexivity.
Qed.

Lemma digits2_pos_lower (p : positive) : 2 ^ (Z.pos (digits2_pos p) - 1) <= Z.pos p.
Proof.
  induction p as [p IH | p IH |]; cbn [digits2_pos].
  - rewrite Pos2Z.inj_succ.
    replace (Z.succ (Z.pos (digits2_pos p)) - 1)
      with (Z.succ (Z.pos (digits2_pos p) - 1)) by lia.
    rewrite Z.pow_succ_r by lia. lia.
  - rewrite Pos2Z.inj_succ.
    replace (Z.succ (Z.pos (digits2_pos p)) - 1)
      with (Z.succ (Z.pos (digits2_pos p) - 1)) by lia.
    rewrite Z.pow_succ_r by lia. lia.
  - reflexivity.
Qed.

Lemma digits2_pos_iter (p k : positive) :
  digits2_pos (Pos.iter xO p k) = (digits2_pos p + k)%positive.
Proof.
  induction k as [| k IH] using Pos.peano_ind.
  - cbn. lia.
  - rewrite Pos.iter_succ. cbn [digits2_pos]. rewrite IH. lia.
Qed.

(** Rounding leaves a mantissa of 53 digits as it is. *)
Lemma binary_round_aux_full (sx : bool) (m : positive) (e : Z) :
  Z.pos (digits2_pos m) = 53 -> -1074 <= e <= 971 ->
  binary_round_aux prec emax sx (Z.pos m) e loc_Exact = S754_finite sx m e.
Proof.
  intros Hd He. unfold binary_round_aux, shr_fexp.
  cbn [Zdigits2 shr_record_of_loc]. rewrite Hd.
  assert (Hf : fexp prec emax (53 + e) - e = 0).
  { unfold fexp, emin. change prec with 53. change emax with 1024. lia. }
  rewrite Hf.
  cbn [shr shr_m loc_of_shr_record round_nearest_even Zdigits2 shr_record_of_loc].
  rewrite Hd, Hf. cbn [shr shr_m].
  change (emax - prec) with 971.
  destruct (Z.leb_spec e 971); [reflexivity | lia].
Qed.

(** A counter between 1 and [2^53] is converted to a finite float above
    zero. *)
Lemma float_of_nat_finite (n : nat) :
  0 < Z.of_nat n < 2 ^ 53 ->
  exists m e, Prim2SF (float_of_nat n) = S754_finite false m e.
Proof.
  intros Hn. unfold float_of_nat. rewrite of_uint63_spec.
  rewrite Uint63.of_Z_spec. rewrite Z.mod_small
    by (change Uint63.wB with (2 ^ 63);
        assert (2 ^ 53 < 2 ^ 63) by reflexivity; lia).
  destruct (Z.of_nat n) as [| p | p]; try lia.
  cbn [binary_normalize]. unfold binary_round.
  pose proof (digits2_pos_lower p) as Hlow.
  assert (Hd : Z.pos (digits2_pos p) <= 53).
  { destruct (Z.le_gt_cases (Z.pos (digits2_pos p)) 53) as [H | H]; [exact H |].
    exfalso. assert (2 ^ 53 <= 2 ^ (Z.pos (digits2_pos p) - 1))
      by (apply Z.pow_le_mono_r; lia). lia. }
  assert (Hf : fexp prec emax (Z.pos (digits2_pos p) + 0)
               = Z.pos (digits2_pos p) - 53).
  { unfold fexp, emin. change prec with 53. change emax with 1024. lia. }
  rewrite Hf. unfold shl_align.
  destruct (Z.pos (digits2_pos p) - 53 - 0) as [| k | k] eqn:Ek; try lia.
  - eexists. eexists. apply binary_round_aux_full; lia.
  - rewrite binary_round_aux_full.
    + eexists. eexists. reflexivity.
    + rewrite digits2_pos_iter. lia.
    + lia.
Qed.

Lemma float_of_nat_div_same (n : nat) :
  0 < Z.of_nat n < 2 ^ 53 -> (float_of_nat n / float_of_nat n)%float = 1%float.
Proof.
  intros Hn. destruct (float_of_nat_finite n Hn) as [m [e H]].
  exact (div_same _ _ _ _ H).
Qed.

(** All three counters equal, above 0 and below [2^53]: the F1 is 1.0. *)
Lemma f1_double_perfect (n : nat) :
  0 < Z.of_nat n < 2 ^ 53 -> f1_double (mkCounts n n n) = 1%float.
Proof.
  intros Hn. unfold f1_double. cbn [correct_sys all_sys correct_gt].
  destruct (n =? 0)%nat eqn:E; [apply Nat.eqb_eq in E; lia |].
  rewrite (float_of_nat_div_same n Hn). reflexivity.
Qed.

(** The two F1 values that exact arithmetic cannot tell apart, 2/3 from
    the counters (3, 5, 4) and from (2, 2, 4), differ as floats. *)
Example f1_double_rounding :
  (f1_double (mkCounts 3 5 4) <? f1_double (mkCounts 2 2 4))%float = true /\
  (f1_of_counts (mkCounts 3 5 4) == f1_of_counts (mkCounts 2 2 4))%Q.
Proof. split; reflexivity. Qed.

(** ** The threshold search *)

(** The micro-F1 of given counts of predicted gold relations, predicted
    relations and gold relations, in binary64. *)
Definition precision_double (hit sys : nat) : float :=
  if (sys =? 0)%nat then 1%float else (float_of_nat hit / float_of_nat sys)%float.

Definition recall_double (hit gold : nat) : float :=
  if (gold =? 0)%nat then 0%float else (float_of_nat hit / float_of_nat gold)%float.

Definition harmonic_double (p r : float) : float :=
  if (p + r =? 0)%float then 0%float else (2 * p * r / (p + r))%float.

(** The micro-F1 of the predictions that [getpred] makes at the [k]-th of
    the thresholds 0.00, 0.01, ..., 0.50, against the gold labels. *)
Definition micro_f1 (probs : list (list Q)) (labels : list (list Z)) (k : nat)
  : float :=
  let devp := getpred probs (1 # 2) (float_value (float_of_nat k / 100)) in
  harmonic_double
    (precision_double (sum_hit devp labels) (sum_sys devp labels))
    (recall_double (sum_hit devp labels) (sum_gold labels)).

Lemma geteval_double_spec (devp data : list (list Z)) :
  (length data <= length devp)%nat ->
  geteval_double devp data =
  inr (harmonic_double
         (precision_double (sum_hit devp data) (sum_sys devp data))
         (recall_double (sum_hit devp data) (sum_gold data))).
Proof.
  intros Hlen. unfold geteval_double. rewrite geteval_loop_spec by exact Hlen.
  rewrite bind_inr_l. unfold ret. apply (f_equal (@inr exn float)).
  unfold f1_double, harmonic_double, precision_double, recall_double.
  cbn [correct_sys all_sys correct_gt Nat.add].
  destruct (_ + _ =? 0)%float; reflexivity.
Qed.

Lemma micro_f1_spec (probs : list (list Q)) (labels : list (list Z)) (k : nat) :
  (length labels <= length probs)%nat ->
  geteval_double (getpred probs T1_default (float_value (threshold k))) labels
  = inr (micro_f1 probs labels k).
Proof.
  intros Hlen. unfold micro_f1. apply geteval_double_spec.
  unfold getpred. rewrite length_map. exact Hlen.
Qed.

(** The search over consecutive thresholds: either no threshold exceeds
    the incoming best, which is kept, or the result is the micro-F1 and
    the threshold of some [k]; then no threshold exceeds it and no
    earlier threshold reaches it. *)
Lemma f1_search_spec (probs : list (list Q)) (labels : list (list Z)) :
  (length labels <= length probs)%nat ->
  forall n a best,
  exists best',
    f1_search probs labels (seq a n) best = inr best' /\
    ((best' = best /\
      forall k, (a <= k < a + n)%nat ->
                (fst best <? micro_f1 probs labels k)%float = false) \/
     (exists k, (a <= k < a + n)%nat /\
                best' = (micro_f1 probs labels k, (float_of_nat k / 100)%float) /\
                (fst best <? micro_f1 probs labels k)%float = true /\
                (forall k', (a <= k' < a + n)%nat ->
                            (micro_f1 probs labels k <? micro_f1 probs labels k')%float
                            = false) /\
                (forall k', (a <= k' < k)%nat ->
                            (micro_f1 probs labels k <=? micro_f1 probs labels k')%float
                            = false))).
Proof.
  intros Hlen. induction n as [| n IH]; intros a best.
  - exists best. split; [reflexivity |]. left. split; [reflexivity |].
    intros k Hk. lia.
  - cbn [seq f1_search]. rewrite (micro_f1_spec _ _ _ Hlen), bind_inr_l.
    destruct (fst best <? micro_f1 probs labels a)%float eqn:E.
    + destruct (IH (S a) (micro_f1 probs labels a, threshold a))
        as [best' [Hrun [[Heq Hall] | [k [Hk [Heq [Hgt [Hmax Hfirst]]]]]]]];
        exists best'; (split; [exact Hrun |]); right; cbn [fst] in *.
      * exists a. split; [lia |]. split; [exact Heq |]. split; [exact E |]. split.
        -- intros k' Hk'. destruct (Nat.eq_dec k' a) as [-> | Hne];
             [apply ltb_irrefl | apply Hall; lia].
        -- intros k' Hk'. lia.
      * exists k. split; [lia |]. split; [exact Heq |].
        split; [exact (ltb_trans _ _ _ E Hgt) |]. split.
        -- intros k' Hk'. destruct (Nat.eq_dec k' a) as [-> | Hne];
             [apply ltb_asym; exact Hgt | apply Hmax; lia].
        -- intros k' Hk'. destruct (Nat.eq_dec k' a) as [-> | Hne];
             [apply ltb_not_leb; exact Hgt | apply Hfirst; lia].
    + destruct (IH (S a) best)
        as [best' [Hrun [[Heq Hall] | [k [Hk [Heq [Hgt [Hmax Hfirst]]]]]]]];
        exists best'; (split; [exact Hrun |]).
      * left. split; [exact Heq |].
        intros k' Hk'. destruct (Nat.eq_dec k' a) as [-> | Hne];
          [exact E | apply Hall; lia].
      * right. exists k. split; [lia |]. split; [exact Heq |]. split; [exact Hgt |].
        split.
        -- intros k' Hk'. destruct (Nat.eq_dec k' a) as [-> | Hne];
             [exact (ltb_not_exceeded _ _ _ Hgt E) | apply Hmax; lia].
        -- intros k' Hk'. destruct (Nat.eq_dec k' a) as [-> | Hne];
             [exact (ltb_not_reached _ _ _ Hgt E) | apply Hfirst; lia].
Qed.

(** The logits form a matrix: [np.asarray] makes an array of numbers of
    them. *)
Definition rectangular (logits : list (list Q)) : Prop :=
  forall row row', In row logits -> In row' logits -> length row = length row'.

Lemma asarray_cases (logits : list (list Q)) :
  (rectangular logits /\ asarray logits = inr logits) \/
  (~ rectangular logits /\ asarray logits = inl ValueError).
Proof.
  destruct logits as [| row rest].
  - left. split; [intros r r' [] | reflexivity].
  - unfold asarray.
    destruct (forallb (fun row' => (length row' =? length row)%nat) rest) eqn:E.
    + left. split; [| reflexivity]. rewrite forallb_forall in E.
      assert (Hall : forall r, In r (row :: rest) -> length r = length row).
      { intros r [<- | Hr]; [reflexivity | apply Nat.eqb_eq; apply E; exact Hr]. }
      intros r r' Hr Hr'. rewrite (Hall r Hr), (Hall r' Hr'). reflexivity.
    + right. split; [| reflexivity]. intros Hrect.
      assert (H : forallb (fun row' => (length row' =? length row)%nat) rest = true).
      { apply forallb_forall. intros row' Hin. apply Nat.eqb_eq.
        apply Hrect; [right; exact Hin | left; reflexivity]. }
      rewrite H in E. discriminate E.
Qed.

Lemma asarray_rectangular (logits : list (list Q)) :
  rectangular logits -> asarray logits = inr logits.
Proof.
  intros Hrect. destruct (asarray_cases logits) as [[_ H] | [Hnot _]];
    [exact H | contradiction].
Qed.

Lemma asarray_ragged (logits : list (list Q)) :
  ~ rectangular logits -> asarray logits = inl ValueError.
Proof.
  intros Hnot. destruct (asarray_cases logits) as [[Hrect _] | [_ H]];
    [contradiction | exact H].
Qed.

Lemma asarray_inr (logits array : list (list Q)) :
  asarray logits = inr array -> array = logits /\ rectangular logits.
Proof.
  intros H. destruct (asarray_cases logits) as [[Hrect Ha] | [_ Ha]];
    rewrite Ha in H.
  - apply inr_inj in H. split; [symmetry; exact H | exact Hrect].
  - discriminate H.
Qed.

Lemma in_seq_51 (k : nat) : In k (seq 0 51) <-> (k <= 50)%nat.
Proof. rewrite in_seq. lia. Qed.

(** The 51 thresholds are 0.00, 0.01, ..., 0.50 as floats have them: the
    value of [T2 / 100.0] is within [2^-55] of [T2 / 100]. *)
Lemma threshold_near (k : nat) :
  (k <= 50)%nat ->
  (Qabs (float_value (float_of_nat k / 100) - inject_Z (Z.of_nat k) / 100)
   <= 1 # 36028797018963968)%Q.
Proof.
  intros Hk. apply in_seq_51 in Hk.
  assert (H : forallb
                (fun k => Qle_bool
                            (Qabs (float_value (float_of_nat k / 100)
                                   - inject_Z (Z.of_nat k) / 100))
                            (1 # 36028797018963968))
                (seq 0 51) = true) by (vm_compute; reflexivity).
  rewrite forallb_forall in H. apply Qle_bool_iff. apply H. exact Hk.
Qed.

Section F1EvalProperties.

Variable sigmoid : Q -> Q.

Lemma f1_eval_unfold (logits : list (list Q)) (examples : dataset)
      (label_id_lst : list item) (labels : list (list Z)) :
  rectangular logits ->
  nth_error examples 6 = Some label_id_lst ->
  gold_labels label_id_lst = inr labels ->
  length label_id_lst = length logits ->
  f1_eval sigmoid logits examples =
  f1_search (map (map sigmoid) logits) labels (seq 0 51) (0%float, 0%float).
Proof.
  intros Hrect H6 Hl Hlen. unfold f1_eval, getitem.
  rewrite (asarray_rectangular logits Hrect), bind_inr_l. rewrite H6.
  rewrite bind_ret, Hl, bind_ret.
  pose proof (mapM_inr_length _ _ _ Hl) as Hll.
  rewrite length_map. rewrite Hll, Hlen, Nat.eqb_refl.
  change (assert true) with (@ret unit tt). rewrite bind_ret. reflexivity.
Qed.

(** C1. On a matrix of per-example logits with matching label vectors,
    [f1_eval] returns a pair [(bestf_1, bestT2)]. [bestT2] is the float
    [T2 / 100.0] of some [T2] among 0, ..., 50, whose value is [T2 / 100]
    up to the rounding of a float. No threshold among the 51
    gives [getpred]'s predictions a micro-F1 above [bestf_1]. Either
    [bestf_1] is the micro-F1 at [bestT2], and above 0; or no threshold
    beats 0, the pair is [(0, 0)], and every micro-F1 that is a number not
    below 0 is 0. *)
Theorem f1_eval_best (logits : list (list Q)) (examples : dataset)
        (label_id_lst : list item) :
  rectangular logits ->
  nth_error examples 6 = Some label_id_lst ->
  length label_id_lst = length logits ->
  Forall label_vector label_id_lst ->
  exists labels bestf_1 bestT2 T2,
    gold_labels label_id_lst = inr labels /\
    f1_eval sigmoid logits examples = inr (bestf_1, bestT2) /\
    (T2 <= 50)%nat /\ bestT2 = (float_of_nat T2 / 100)%float /\
    (Qabs (float_value bestT2 - inject_Z (Z.of_nat T2) / 100)
     <= 1 # 36028797018963968)%Q /\
    (forall k, (k <= 50)%nat ->
               (bestf_1 <? micro_f1 (map (map sigmoid) logits) labels k)%float = false) /\
    ((bestf_1 = micro_f1 (map (map sigmoid) logits) labels T2 /\
      (0 <? bestf_1)%float = true) \/
     (bestf_1 = 0%float /\ T2 = 0%nat /\
      forall k, (k <= 50)%nat ->
                (0 <=? micro_f1 (map (map sigmoid) logits) labels k)%float = true ->
                (micro_f1 (map (map sigmoid) logits) labels k =? 0)%float = true)).
Proof.
  intros Hrect H6 Hlen Hwf.
  destruct (gold_labels_total label_id_lst Hwf) as [labels Hl].
  set (probs := map (map sigmoid) logits).
  assert (Hle : (length labels <= length probs)%nat).
  { unfold probs. rewrite length_map. unfold gold_labels in Hl.
    rewrite (mapM_inr_length _ _ _ Hl). lia. }
  pose proof (f1_eval_unfold logits examples label_id_lst labels Hrect H6 Hl Hlen)
    as Hunfold.
  destruct (f1_search_spec probs labels Hle 51 0 (0%float, 0%float))
    as [best' [Hrun [[Heq Hall] | [k [Hk [Heq [Hgt [Hmax _]]]]]]]]; subst best';
    cbn [fst] in *.
  - exists labels, 0%float, 0%float, 0%nat. split; [exact Hl |].
    split; [rewrite Hunfold; exact Hrun |]. split; [lia |].
    split; [reflexivity |]. split; [exact (threshold_near 0 (Nat.le_0_l 50)) |].
    split.
    + intros k Hk. apply Hall. lia.
    + right. split; [reflexivity |]. split; [reflexivity |].
      intros k Hk Hge. apply leb_not_ltb; [exact Hge | apply Hall; lia].
  - exists labels, (micro_f1 probs labels k), (float_of_nat k / 100)%float, k.
    split; [exact Hl |]. split; [rewrite Hunfold; exact Hrun |]. split; [lia |].
    split; [reflexivity |]. split; [apply threshold_near; lia |]. split.
    + intros k' Hk'. apply Hmax. lia.
    + left. split; [reflexivity | exact Hgt].
Qed.

End F1EvalProperties.

(** A rational stand-in for the logistic function, used to run the
    definitions on examples; like the logistic function it is increasing,
    has its values in (0, 1) and maps 0 to 1/2. *)
Definition rational_sigmoid (x : Q) : Q := ((1 # 2) + x / (2 * (1 + Qabs x)))%Q.

Definition logits_of (hot : option nat) (high low : Q) : list Q :=
  map (fun j => match hot with
                | Some i => if (j =? i)%nat then high else low
                | None => low
                end) (seq 0 36).

Definition logits_example : list (list Q) :=
  [logits_of (Some 3%nat) 4 (-4); logits_of None 0 (-4);
   logits_of (Some 35%nat) (-1 # 3) (-4)]%Q.

Definition examples_example : dataset := [[]; []; []; []; []; []; label_ids_example].

Example f1_eval_example :
  f1_eval rational_sigmoid logits_example examples_example
  = inr (1%float, (float_of_nat 10 / 100)%float).
Proof. vm_compute. reflexivity. Qed.

Lemma label_ids_example_wf : Forall label_vector label_ids_example.
Proof.
  unfold label_ids_example, label_vector, one_hot.
  repeat constructor; eexists; split; reflexivity.
Defined.

Lemma logits_example_rectangular : rectangular logits_example.
Proof. apply (asarray_inr logits_example logits_example). reflexivity. Qed.

Lemma f1_eval_best_witness :
  exists labels bestf_1 bestT2 T2,
    gold_labels label_ids_example = inr labels /\
    f1_eval rational_sigmoid logits_example examples_example = inr (bestf_1, bestT2) /\
    (T2 <= 50)%nat /\ bestT2 = (float_of_nat T2 / 100)%float /\
    (Qabs (float_value bestT2 - inject_Z (Z.of_nat T2) / 100)
     <= 1 # 36028797018963968)%Q /\
    (forall k, (k <= 50)%nat ->
               (bestf_1 <? micro_f1 (map (map rational_sigmoid) logits_example) labels k)%float
               = false) /\
    ((bestf_1 = micro_f1 (map (map rational_sigmoid) logits_example) labels T2 /\
      (0 <? bestf_1)%float = true) \/
     (bestf_1 = 0%float /\ T2 = 0%nat /\
      forall k, (k <= 50)%nat ->
                (0 <=? micro_f1 (map (map rational_sigmoid) logits_example) labels k)%float
                = true ->
                (micro_f1 (map (map rational_sigmoid) logits_example) labels k =? 0)%float
                = true)).
Proof.
  apply (f1_eval_best rational_sigmoid logits_example examples_example label_ids_example).
  - exact logits_example_rectangular.
  - reflexivity.
  - reflexivity.
  - exact label_ids_example_wf.
Defined.

(** The scores are compared with the float threshold. A row whose largest
    score is the float 0.2 and whose gold label is class 36 is predicted
    right from the threshold [20 / 100.0] on, which is that float; the
    rational 1/5 is below it. The score is given as it is: the stand-in
    for the sigmoid is the identity. *)
Definition row_of (hot : nat) (high low : Q) : list Q := logits_of (Some hot) high low.

Example f1_eval_float_threshold :
  f1_eval (fun x => x)
          [row_of 3 (9 # 10) 0; row_of 5 (3602879701896397 # 18014398509481984) 0]
          [[]; []; []; []; []; []; [one_hot 3; IVec (repeat 0 36)]]
  = inr (1%float, (float_of_nat 20 / 100)%float) /\
  (1 # 5 < float_value (float_of_nat 20 / 100))%Q.
Proof. vm_compute. split; reflexivity. Qed.

(** ** Perfect predictions *)

(** The predicted label sets are exactly the gold label sets. *)
Definition perfect (devp data : list (list Z)) : Prop :=
  Forall2 (fun p d => forall id, In id p <-> In id d) devp data.

Lemma mem_In (id : Z) (l : list Z) : mem id l = true <-> In id l.
Proof.
  unfold mem. rewrite existsb_exists. split.
  - intros [x [Hx Heq]]. apply Z.eqb_eq in Heq. subst x. exact Hx.
  - intros H. exists id. split; [exact H | apply Z.eqb_refl].
Qed.



Lemma n_perfect (p d : list Z) :
  NoDup p -> NoDup d -> (forall id, In id p <-> In id d) ->
  n_hit p d = n_rel d /\ n_rel p = n_rel d.
Proof.
  intros Hp Hd Heq. unfold n_hit, n_rel. split.
  - f_equal. apply filter_ext_in. intros id Hid.
    assert (Hm : mem id p = true) by (apply mem_In; apply Heq; exact Hid).
    rewrite Hm. apply andb_true_r.
  - apply Permutation_length. apply NoDup_Permutation.
    + apply NoDup_filter. exact Hp.
    + apply NoDup_filter. exact Hd.
    + intros id. rewrite !filter_In. rewrite Heq. reflexivity.
Qed.


Lemma sum_perfect (devp data : list (list Z)) :
  perfect devp data -> Forall (@NoDup Z) devp -> Forall (@NoDup Z) data ->
  sum_hit devp data = sum_gold data /\ sum_sys devp data = sum_gold data.
Proof.
  induction 1 as [| p d ps ds Heq _ IH]; intros Hp Hd; simpl.
  - split; reflexivity.
  - apply Forall_cons_iff in Hp. destruct Hp as [Hp Hps].
    apply Forall_cons_iff in Hd. destruct Hd as [Hd Hds].
    destruct (IH Hps Hds) as [Hhit Hsys].
    destruct (n_perfect p d Hp Hd Heq) as [Hhit0 Hsys0].
    lia.
Qed.

Lemma sum_gold_pos (data : list (list Z)) :
  (exists d id, In d data /\ In id d /\ id <> 36) -> (0 < sum_gold data)%nat.
Proof.
  intros [d [id [Hd [Hid Hne]]]].
  induction data as [| d0 data IH]; simpl in *; [contradiction |].
  destruct Hd as [Heq | Hd].
  - subst d0.
    assert (Hin : In id (filter not36 d)).
    { apply filter_In. split; [exact Hid |]. unfold not36.
      apply negb_true_iff. apply Z.eqb_neq. exact Hne. }
    unfold n_rel. destruct (filter not36 d); [contradiction | simpl; lia].
  - specialize (IH Hd). lia.
Qed.

Lemma getpred_row_NoDup (T1 T2 : Q) (row : list Q) : NoDup (getpred_row T1 T2 row).
Proof.
  unfold getpred_row. rewrite getpred_scan_r. simpl.
  destruct (above T1 row 0) as [| c l] eqn:E; simpl.
  - destruct (Qle_bool _ T2); constructor; try (intros []); constructor.
  - rewrite <- E. apply above_NoDup.
Qed.



Lemma geteval_perfect (devp data : list (list Z)) :
  perfect devp data -> Forall (@NoDup Z) devp -> Forall (@NoDup Z) data ->
  (exists d id, In d data /\ In id d /\ id <> 36) ->
  exists f_1, geteval devp data = inr f_1 /\ (f_1 == 1)%Q.
Proof.
  intros Hperf Hp Hd Hgold.
  assert (Hlen : (length data <= length devp)%nat).
  { rewrite (Forall2_length Hperf). lia. }
  rewrite (geteval_spec devp data Hlen). eexists. split; [reflexivity |].
  destruct (sum_perfect devp data Hperf Hp Hd) as [H1 H2].
  rewrite H1, H2. apply f1_perfect. apply sum_gold_pos. exact Hgold.
Qed.











Section PerfectPrediction.

Variable sigmoid : Q -> Q.


End PerfectPrediction.



(** ** The optimizer bridge *)

Section BridgeProperties.

Variable tensor : Type.
Variable has_nan : tensor -> bool.
Variable copy_ : tensor -> tensor -> tensor.
Variable new_like : tensor -> tensor.

Local Abbreviation copy_to_model := (copy_optimizer_params_to_model tensor copy_).
Local Abbreviation set_loop := (set_grad_loop tensor has_nan copy_ new_like).
Local Abbreviation set_grad := (set_optimizer_params_grad tensor has_nan copy_ new_like).

(** Some position visited by [zip] holds two different names. *)
Definition name_mismatch (named_params_optimizer : named_opti tensor)
           (named_params_model : named_model tensor) : Prop :=
  exists i name_opti param_opti name_model param_model,
    nth_error named_params_optimizer i = Some (name_opti, param_opti) /\
    nth_error named_params_model i = Some (name_model, param_model) /\
    name_opti <> name_model.

Lemma name_mismatch_nil_l (nm : named_model tensor) : ~ name_mismatch [] nm.
Proof. intros [i [n1 [p1 [n2 [p2 [H _]]]]]]. destruct i; discriminate H. Qed.

Lemma name_mismatch_nil_r (no : named_opti tensor) : ~ name_mismatch no [].
Proof. intros [i [n1 [p1 [n2 [p2 [_ [H _]]]]]]]. destruct i; discriminate H. Qed.

Lemma name_mismatch_head (n1 n2 : string) (p1 : opti_param tensor)
      (p2 : model_param tensor) (no : named_opti tensor) (nm : named_model tensor) :
  n1 <> n2 -> name_mismatch ((n1, p1) :: no) ((n2, p2) :: nm).
Proof.
  intros Hne. exists 0%nat, n1, p1, n2, p2. repeat split; [reflexivity .. | exact Hne].
Qed.

Lemma name_mismatch_tail (n : string) (p1 : opti_param tensor)
      (p2 : model_param tensor) (no : named_opti tensor) (nm : named_model tensor) :
  name_mismatch ((n, p1) :: no) ((n, p2) :: nm) <-> name_mismatch no nm.
Proof.
  split.
  - intros [i [n1 [q1 [n2 [q2 [H1 [H2 Hne]]]]]]]. destruct i as [| i]; simpl in *.
    + inversion H1; subst. inversion H2; subst. contradiction.
    + exists i, n1, q1, n2, q2. repeat split; assumption.
  - intros [i [n1 [q1 [n2 [q2 [H1 [H2 Hne]]]]]]].
    exists (S i), n1, q1, n2, q2. repeat split; assumption.
Qed.

(** Either some visited pair of names differs and the copy raises
    [ValueError], or none does and the copy returns the model. *)
Lemma copy_to_model_cases (no : named_opti tensor) :
  forall nm : named_model tensor,
    (name_mismatch no nm /\ copy_to_model nm no = inl ValueError) \/
    (~ name_mismatch no nm /\ exists nm', copy_to_model nm no = inr nm').
Proof.
  induction no as [| [n1 p1] no IH]; intros nm.
  - right. split; [apply name_mismatch_nil_l |]. exists nm. destruct nm; reflexivity.
  - destruct nm as [| [n2 p2] nm].
    + right. split; [apply name_mismatch_nil_r |]. exists []. reflexivity.
    + simpl. destruct (String.eqb_spec n1 n2) as [Heq | Hne]; simpl.
      * subst n2. destruct (IH nm) as [[Hm Hr] | [Hm [nm' Hr]]].
        -- left. split; [apply name_mismatch_tail; exact Hm |].
           rewrite Hr. reflexivity.
        -- right. split; [rewrite name_mismatch_tail; exact Hm |].
           rewrite Hr. simpl. eexists. reflexivity.
      * left. split; [apply name_mismatch_head; exact Hne | reflexivity].
Qed.

Lemma set_loop_cases (no : named_opti tensor) :
  forall (nm : named_model tensor) (test_nan is_nan : bool),
    (name_mismatch no nm /\ set_loop no nm test_nan is_nan = inl ValueError) \/
    (~ name_mismatch no nm /\ exists r, set_loop no nm test_nan is_nan = inr r).
Proof.
  induction no as [| [n1 p1] no IH]; intros nm test_nan is_nan.
  - right. split; [apply name_mismatch_nil_l |]. eexists. reflexivity.
  - destruct nm as [| [n2 p2] nm].
    + right. split; [apply name_mismatch_nil_r |]. eexists. reflexivity.
    + simpl. destruct (String.eqb_spec n1 n2) as [Heq | Hne]; simpl.
      * subst n2.
        destruct (IH nm test_nan
                     (if test_nan && has_nan (m_grad p2) then true else is_nan))
          as [[Hm Hr] | [Hm [r Hr]]].
        -- left. split; [apply name_mismatch_tail; exact Hm |].
           rewrite Hr. reflexivity.
        -- right. split; [rewrite name_mismatch_tail; exact Hm |].
           rewrite Hr. simpl. eexists. reflexivity.
      * left. split; [apply name_mismatch_head; exact Hne | reflexivity].
Qed.

End BridgeProperties.

(** ** The training step on a NaN gradient *)

Section TrainingProperties.

Variable tensor : Type.
Variable has_nan : tensor -> bool.
Variable copy_ : tensor -> tensor -> tensor.
Variable new_like : tensor -> tensor.
Variable tdiv : tensor -> Q -> tensor.
Variable zeros_like : tensor -> tensor.
Variable opt_state : Type.
Variable optimizer_step :
  opt_state -> named_opti tensor -> opt_state * named_opti tensor.
Variable optimizer_step_model :
  opt_state -> named_model tensor -> opt_state * named_model tensor.
Variable batch : Type.
Variable model_loss : named_model tensor -> batch -> Q.
Variable backward : named_model tensor -> batch -> Q -> named_model tensor.

Local Abbreviation state := (@train_state tensor opt_state).
Local Abbreviation set_loop := (set_grad_loop tensor has_nan copy_ new_like).
Local Abbreviation set_grad := (set_optimizer_params_grad tensor has_nan copy_ new_like).
Local Abbreviation boundary :=
  (optimizer_boundary tensor has_nan copy_ new_like tdiv zeros_like opt_state
                      optimizer_step optimizer_step_model).
Local Abbreviation run_batch :=
  (train_batch tensor has_nan copy_ new_like tdiv zeros_like opt_state
               optimizer_step optimizer_step_model batch model_loss backward).
Local Abbreviation run_loop :=
  (train_loop tensor has_nan copy_ new_like tdiv zeros_like opt_state
              optimizer_step optimizer_step_model batch model_loss backward).

(** The names and values of the model's parameters, without gradients. *)
Definition model_values (m : named_model tensor) : list (string * tensor) :=
  map (fun np => (fst np, m_data (snd np))) m.

(** The names and values of the optimizer's copy, without gradients. *)
Definition shadow_values (po : named_opti tensor) : list (string * tensor) :=
  map (fun np => (fst np, o_data (snd np))) po.

(** The model whose gradients the bridge reads: scaled down by
    [args.loss_scale] under fp16 with a loss scale other than 1. *)
Definition descaled (args : train_args) (s : state) : named_model tensor :=
  if fp16 args && negb (Qeq_bool (ts_loss_scale s) 1)
  then scale_down tensor tdiv (ts_model s) (ts_loss_scale s)
  else ts_model s.

(** The state after [loss.backward()] on batch [b]. *)
Definition after_backward (args : train_args) (b : batch) (s : state) : state :=
  mkTrainState (backward (ts_model s) b (loss_factor args (ts_loss_scale s)))
               (ts_param_optimizer s) (ts_optimizer s) (ts_loss_scale s)
               (ts_global_step s) (ts_events s).

Lemma zero_grad_values (m : named_model tensor) :
  model_values (zero_grad tensor zeros_like m) = model_values m.
Proof.
  unfold model_values, zero_grad. rewrite map_map. reflexivity.
Qed.

Lemma scale_down_values (m : named_model tensor) (c : Q) :
  model_values (scale_down tensor tdiv m c) = model_values m.
Proof.
  unfold model_values, scale_down. rewrite map_map. reflexivity.
Qed.

Lemma descaled_values (args : train_args) (s : state) :
  model_values (descaled args s) = model_values (ts_model s).
Proof.
  unfold descaled. destruct (fp16 args && negb (Qeq_bool (ts_loss_scale s) 1)).
  - apply scale_down_values.
  - reflexivity.
Qed.

Lemma zero_grad_zeroed (m : named_model tensor) :
  Forall (fun np => exists g, m_grad (snd np) = zeros_like g)
         (zero_grad tensor zeros_like m).
Proof.
  unfold zero_grad. apply Forall_forall. intros np Hin.
  apply in_map_iff in Hin. destruct Hin as [np0 [Heq _]]. subst np.
  simpl. eexists. reflexivity.
Qed.

(** The bridge writes gradients only: names and values of the optimizer's
    copy are unchanged; and the flag is raised exactly by a NaN in the
    gradient of a visited model parameter. *)
Lemma set_loop_result (no : named_opti tensor) :
  forall (nm : named_model tensor) (test_nan is_nan flag : bool)
         (no' : named_opti tensor),
    set_loop no nm test_nan is_nan = inr (flag, no') ->
    shadow_values no' = shadow_values no /\
    flag = is_nan
           || (test_nan &&
               existsb (fun np => has_nan (m_grad (snd np))) (firstn (length no) nm)).
Proof.
  induction no as [| [n1 p1] no IH]; intros nm test_nan is_nan flag no' H.
  - simpl in H. inversion H; subst. split; [reflexivity |].
    simpl. rewrite andb_false_r, orb_false_r. reflexivity.
  - destruct nm as [| [n2 p2] nm].
    + simpl in H. inversion H; subst. split; [reflexivity |].
      simpl. rewrite andb_false_r, orb_false_r. reflexivity.
    + simpl in H. destruct (String.eqb n1 n2); simpl in H; [| discriminate H].
      apply bind_inr in H. destruct H as [[f r] [Hr H]].
      inversion H; subst flag no'. simpl.
      destruct (IH _ _ _ _ _ Hr) as [Hvals Hflag]. split.
      * unfold shadow_values in *. simpl. rewrite Hvals. reflexivity.
      * rewrite Hflag. destruct test_nan, (has_nan (m_grad p2)), is_nan; reflexivity.
Qed.

(** With matching names, a NaN in the gradient of a visited model
    parameter is reported by the bridge. *)
Lemma set_grad_detects_nan (po : named_opti tensor) (m : named_model tensor) :
  ~ name_mismatch tensor po m ->
  (exists np, In np (firstn (length po) m) /\ has_nan (m_grad (snd np)) = true) ->
  exists po1, set_grad po m true = inr (true, po1).
Proof.
  intros Hnames Hnan. unfold set_optimizer_params_grad.
  destruct (set_loop_cases tensor has_nan copy_ new_like po m true false)
    as [[Hm _] | [_ [[flag po1] Hr]]]; [contradiction |].
  exists po1. rewrite Hr.
  destruct (set_loop_result _ _ _ _ _ _ Hr) as [_ Hflag]. simpl in Hflag.
  assert (Ht : existsb (fun np => has_nan (m_grad (snd np))) (firstn (length po) m)
               = true) by (apply existsb_exists; exact Hnan).
  rewrite Ht in Hflag. subst flag. reflexivity.
Qed.

(** C7. At an optimizer-step boundary of fp16 or CPU-optimizer training,
    when [set_optimizer_params_grad] reports a NaN the loop body halves
    the loss scale, zeroes the model's gradients and goes on with the next
    batch: it does not raise, makes no call of [optimizer.step()], leaves
    the optimizer's state, the values of its parameter copy, the values of
    the model's parameters and [global_step] as they were. *)
Theorem nan_step_is_skipped
        (args : train_args) (step : Z) (b : batch) (s0 : state)
        (po1 : named_opti tensor) :
  fp16 args || optimize_on_cpu args = true ->
  gradient_accumulation_steps args <> 0 ->
  (step + 1) mod gradient_accumulation_steps args = 0 ->
  set_grad (ts_param_optimizer s0)
           (descaled args (after_backward args b s0)) true = inr (true, po1) ->
  exists s',
    boundary args step (after_backward args b s0) = inr s' /\
    ts_loss_scale s' = (ts_loss_scale s0 / 2)%Q /\
    ts_model s' =
      zero_grad tensor zeros_like (descaled args (after_backward args b s0)) /\
    Forall (fun np => exists g, m_grad (snd np) = zeros_like g) (ts_model s') /\
    model_values (ts_model s') = model_values (ts_model (after_backward args b s0)) /\
    shadow_values (ts_param_optimizer s') = shadow_values (ts_param_optimizer s0) /\
    ts_optimizer s' = ts_optimizer s0 /\
    ts_global_step s' = ts_global_step s0 /\
    ts_events s' = ts_events s0 ++ [EvLogNan; EvZeroGrad] /\
    (exists np, In np (descaled args (after_backward args b s0)) /\
                has_nan (m_grad (snd np)) = true) /\
    forall rest tr_loss nb_tr_steps,
      run_loop args step (b :: rest) (s0, (tr_loss, nb_tr_steps)) =
      run_loop args (step + 1) rest
               (s', ((tr_loss + model_loss (ts_model s0) b
                                * loss_factor args (ts_loss_scale s0))%Q,
                     nb_tr_steps + 1)).
Proof.
  intros Hmode Hgas Hmod Hset.
  set (s1 := after_backward args b s0) in *.
  set (s' := mkTrainState (zero_grad tensor zeros_like (descaled args s1)) po1
                          (ts_optimizer s1) (ts_loss_scale s1 / 2)%Q
                          (ts_global_step s1)
                          (ts_events s1 ++ [EvLogNan; EvZeroGrad])).
  assert (Hrun : boundary args step s1 = inr s').
  { unfold optimizer_boundary.
    apply Z.eqb_neq in Hgas. rewrite Hgas.
    rewrite Hmod. rewrite Z.eqb_refl. rewrite Hmode.
    fold (descaled args s1).
    change (ts_param_optimizer s1) with (ts_param_optimizer s0).
    rewrite Hset. reflexivity. }
  destruct (set_loop_result _ _ _ _ _ _ Hset) as [Hvals Hflag].
  exists s'. split; [exact Hrun |].
  split; [reflexivity |]. split; [reflexivity |].
  split; [apply zero_grad_zeroed |].
  split; [simpl; rewrite zero_grad_values; apply descaled_values |].
  split; [exact Hvals |].
  split; [reflexivity |]. split; [reflexivity |]. split; [reflexivity |].
  split.
  - simpl in Hflag. symmetry in Hflag. apply existsb_exists in Hflag.
    destruct Hflag as [np [Hin Hnan]]. exists np. split; [| exact Hnan].
    rewrite <- (firstn_skipn (length (ts_param_optimizer s0)) (descaled args s1)).
    apply in_or_app. left. exact Hin.
  - intros rest tr_loss nb_tr_steps.
    change (run_loop args step (b :: rest) (s0, (tr_loss, nb_tr_steps)))
      with (bind (run_batch args step b (s0, (tr_loss, nb_tr_steps)))
                 (fun st' => run_loop args (step + 1) rest st')).
    change (run_batch args step b (s0, (tr_loss, nb_tr_steps)))
      with (bind (boundary args step s1)
                 (fun s2 =>
                    ret (s2, ((tr_loss + model_loss (ts_model s0) b
                                         * loss_factor args (ts_loss_scale s0))%Q,
                              nb_tr_steps + 1)))).
    rewrite Hrun. reflexivity.
Qed.

End TrainingProperties.

(** *** A run of the training step *)

(** A tensor as a list of entries, [None] standing for NaN; enough of the
    tensor library to run the step on an example. *)
Definition toy_tensor : Type := list (option Q).

Definition toy_has_nan (t : toy_tensor) : bool :=
  existsb (fun x => match x with None => true | Some _ => false end) t.

Definition toy_copy (dst src : toy_tensor) : toy_tensor := src.

Definition toy_zeros (t : toy_tensor) : toy_tensor := map (fun _ => Some 0%Q) t.

Definition toy_div (t : toy_tensor) (c : Q) : toy_tensor :=
  map (option_map (fun x => (x / c)%Q)) t.

(** An optimizer that only counts its steps. *)
Definition toy_step {P : Type} (n : nat) (params : P) : nat * P := (S n, params).

Definition toy_args : train_args := mkTrainArgs true false 1.

Definition toy_state : train_state toy_tensor nat :=
  mkTrainState [("w"%string, mkModelParam [Some 1%Q] [None])]
               [("w"%string, mkOptiParam [Some 1%Q] None)]
               0%nat 128%Q 0 [].

Lemma nan_step_is_skipped_witness :
  exists s',
    optimizer_boundary toy_tensor toy_has_nan toy_copy toy_zeros toy_div toy_zeros
                       nat toy_step toy_step toy_args 0 toy_state = inr s' /\
    ts_loss_scale s' = (128 / 2)%Q /\
    ts_global_step s' = 0 /\
    ts_events s' = [EvLogNan; EvZeroGrad].
Proof.
  destruct (nan_step_is_skipped
              toy_tensor toy_has_nan toy_copy toy_zeros toy_div toy_zeros
              nat toy_step toy_step unit
              (fun _ _ => 1%Q) (fun m _ _ => m)
              toy_args 0 tt toy_state
              [("w"%string, mkOptiParam [Some 1%Q] (Some [None]))])
    as [s' [Hrun [Hscale [_ [_ [_ [_ [_ [Hstep [Hev _]]]]]]]]]].
  - reflexivity.
  - simpl. lia.
  - reflexivity.
  - reflexivity.
  - exists s'. repeat split; assumption.
Defined.

(** ** The bridge on parameters without gradient *)

Section BridgeWithoutGradient.

Variable tensor : Type.
Variable has_nan : tensor -> bool.
Variable copy_ : tensor -> tensor -> tensor.
Variable new_like : tensor -> tensor.

Local Abbreviation parameters := (Bridge.named_parameters tensor).
Local Abbreviation copy_any := (Bridge.copy_optimizer_params_to_model tensor copy_).
Local Abbreviation set_any_loop := (Bridge.set_grad_loop tensor has_nan copy_ new_like).
Local Abbreviation set_any :=
  (Bridge.set_optimizer_params_grad tensor has_nan copy_ new_like).
















(** A model parameter without gradient stops [set_optimizer_params_grad]
    although the names agree: with [TypeError] when it tests for NaN,
    with [AttributeError] when it does not. *)
Lemma set_grad_without_gradient (name : string) (param_opti param_model : Bridge.parameter tensor)
      (po pm : parameters) :
  Bridge.p_grad param_model = None ->
  set_any ((name, param_opti) :: po) ((name, param_model) :: pm) true = inl TypeError /\
  set_any ((name, param_opti) :: po) ((name, param_model) :: pm) false
  = inl AttributeError.
Proof.
  intros Hg. unfold Bridge.set_optimizer_params_grad. cbn [Bridge.set_grad_loop].
  rewrite String.eqb_refl, Hg. split; reflexivity.
Qed.

(** The bridge of the training step is this bridge on a model whose
    gradients are all present. *)
Definition of_model (np : string * model_param tensor)
  : string * Bridge.parameter tensor :=
  (fst np, Bridge.mkParameter (m_data (snd np)) (Some (m_grad (snd np)))).

Definition of_opti (np : string * opti_param tensor)
  : string * Bridge.parameter tensor :=
  (fst np, Bridge.mkParameter (o_data (snd np)) (o_grad (snd np))).

Lemma set_grad_loop_with_gradients (po : named_opti tensor) :
  forall (m : named_model tensor) (test_nan is_nan : bool),
    set_any_loop (map of_opti po) (map of_model m) test_nan is_nan =
    match set_grad_loop tensor has_nan copy_ new_like po m test_nan is_nan with
    | inl e => inl e
    | inr (flag, po') => inr (flag, map of_opti po')
    end.
Proof.
  induction po as [| [n1 p1] po IH]; intros m test_nan is_nan.
  - reflexivity.
  - destruct m as [| [n2 p2] m]; [reflexivity |].
    cbn [map of_opti of_model fst snd Bridge.set_grad_loop set_grad_loop
             Bridge.p_grad Bridge.p_data].
    destruct (String.eqb n1 n2); cbn [negb]; [| reflexivity].
    assert (Hflag : (if test_nan
                     then ret (if has_nan (m_grad p2) then true else is_nan)
                     else ret is_nan)
                    = @inr exn bool
                           (if test_nan && has_nan (m_grad p2) then true else is_nan))
      by (destruct test_nan; reflexivity).
    rewrite Hflag, bind_inr_l. rewrite IH.
    destruct (set_grad_loop tensor has_nan copy_ new_like po m test_nan
                            (if test_nan && has_nan (m_grad p2) then true else is_nan))
      as [e | [flag po']]; reflexivity.
Qed.

Lemma copy_to_model_with_gradients (po : named_opti tensor) :
  forall m : named_model tensor,
    copy_any (map of_model m) (map of_opti po) =
    match copy_optimizer_params_to_model tensor copy_ m po with
    | inl e => inl e
    | inr m' => inr (map of_model m')
    end.
Proof.
  induction po as [| [n1 p1] po IH]; intros m.
  - destruct m; reflexivity.
  - destruct m as [| [n2 p2] m]; [reflexivity |].
    cbn [map of_opti of_model fst snd Bridge.copy_optimizer_params_to_model
             copy_optimizer_params_to_model Bridge.p_grad Bridge.p_data].
    destruct (String.eqb n1 n2); cbn [negb]; [| reflexivity].
    rewrite IH.
    destruct (copy_optimizer_params_to_model tensor copy_ m po) as [e | m'];
      reflexivity.
Qed.

End BridgeWithoutGradient.










(** ** [datset_collate_fn] *)

(** The columns kept by the collator: those holding a token other than the
    pad token in some sample. *)
Definition kept_columns (pad : Z) (ids : list (list Z)) : list nat :=
  filter (fun j => existsb (fun row => negb (nth j row pad =? pad)) ids)
         (seq 0 (width ids)).

(** The matrix made of the listed columns, in the listed order. *)
Definition take_columns (cols : list nat) (m : list (list Z)) : list (list Z) :=
  map (fun row => map (fun j => nth j row 0) cols) m.

(** The tokens of a sample that are not padding, in order. *)
Definition content (pad : Z) (row : list Z) : list Z :=
  filter (fun x => negb (x =? pad)) row.

(** The non-padding length of a sample: its number of non-pad tokens. *)
Definition nonpad_length (pad : Z) (row : list Z) : nat := length (content pad row).

(** The position after the last non-pad token of a sample. *)
Fixpoint content_end (pad : Z) (row : list Z) : nat :=
  match row with
  | [] => 0%nat
  | x :: row' =>
      match content_end pad row' with
      | 0%nat => if x =? pad then 0%nat else 1%nat
      | S n => S (S n)
      end
  end.

(** A sample padded on the right: non-pad tokens, then pad tokens only. *)
Definition right_padded (pad : Z) (row : list Z) : Prop :=
  exists tokens k, row = tokens ++ repeat pad k /\ Forall (fun x => x <> pad) tokens.

(** The samples of a batch have tensors of one width [w], and label
    vectors of one length. *)
Definition well_shaped (w : nat) (samples : list sample) : Prop :=
  samples <> [] /\
  Forall (fun sm =>
            length (s_input_ids sm) = w /\ length (s_input_mask sm) = w /\
            length (s_segment_ids sm) = w /\ length (s_e1_mask sm) = w /\
            length (s_e2_mask sm) = w /\
            length (s_label_ids sm) = length (s_label_ids (hd sm samples)))
         samples.

Lemma stack_ok {A B : Type} (f : A -> list B) (l : list A) (w : nat) :
  l <> [] -> Forall (fun a => length (f a) = w) l ->
  stack (map f l) = inr (map f l) /\ width (map f l) = w.
Proof.
  intros Hne Hall. destruct l as [| a l]; [contradiction |].
  inversion Hall as [| ? ? Ha Hl]; subst. simpl. split; [| reflexivity].
  assert (Hb : forallb (fun r' => (length r' =? length (f a))%nat) (map f l) = true).
  { apply forallb_forall. intros r Hr. apply in_map_iff in Hr.
    destruct Hr as [a' [Heq Hin]]. subst r. rewrite Forall_forall in Hl.
    rewrite (Hl a' Hin). apply Nat.eqb_refl. }
  rewrite Hb. reflexivity.
Qed.

Lemma ne_any_length (pad : Z) (m : list (list Z)) :
  length (ne_any pad m) = width m.
Proof. unfold ne_any. rewrite length_map, length_seq. reflexivity. Qed.

Lemma index_columns_ok (m : list (list Z)) (mask : list bool) :
  length mask = width m -> index_columns m mask = inr (map (select mask) m).
Proof.
  intros H. unfold index_columns. rewrite H, Nat.eqb_refl. reflexivity.
Qed.

(** [select] keeps the entries at the true positions of the mask. *)
Lemma select_map (f : nat -> bool) (row : list Z) :
  forall a,
    select (map f (seq a (length row))) row =
    map (fun j => nth (j - a) row 0) (filter f (seq a (length row))).
Proof.
  induction row as [| x row IH]; intros a; simpl.
  - reflexivity.
  - rewrite IH. destruct (f a); simpl.
    + rewrite Nat.sub_diag. f_equal.
      apply map_ext_in. intros j Hj. apply filter_In in Hj. destruct Hj as [Hj _].
      apply in_seq in Hj. replace (j - a)%nat with (S (j - S a)) by lia. reflexivity.
    + apply map_ext_in. intros j Hj. apply filter_In in Hj. destruct Hj as [Hj _].
      apply in_seq in Hj. replace (j - a)%nat with (S (j - S a)) by lia. reflexivity.
Qed.

Lemma select_take (pad : Z) (ids m : list (list Z)) :
  Forall (fun row => length row = width ids) m ->
  map (select (ne_any pad ids)) m = take_columns (kept_columns pad ids) m.
Proof.
  intros Hall. unfold take_columns, kept_columns, ne_any.
  apply map_ext_in. intros row Hrow. rewrite Forall_forall in Hall.
  rewrite <- (Hall row Hrow). rewrite select_map.
  apply map_ext. intros j. rewrite Nat.sub_0_r. reflexivity.
Qed.

Lemma kept_columns_In (pad : Z) (ids : list (list Z)) (j : nat) :
  In j (kept_columns pad ids) <->
  (j < width ids)%nat /\ exists row, In row ids /\ nth j row pad <> pad.
Proof.
  unfold kept_columns. rewrite filter_In, in_seq, existsb_exists. split.
  - intros [Hj [row [Hrow Hne]]]. split; [lia |]. exists row. split; [exact Hrow |].
    apply negb_true_iff in Hne. apply Z.eqb_neq. exact Hne.
  - intros [Hj [row [Hrow Hne]]]. split; [lia |]. exists row. split; [exact Hrow |].
    apply negb_true_iff. apply Z.eqb_neq. exact Hne.
Qed.

Lemma ne_any_nth (pad : Z) (ids : list (list Z)) (j : nat) :
  (j < width ids)%nat ->
  nth j (ne_any pad ids) true = existsb (fun row => negb (nth j row pad =? pad)) ids.
Proof.
  intros Hj. unfold ne_any.
  rewrite (nth_indep _ true
                     (existsb (fun row => negb (nth 0 row pad =? pad)) ids))
    by (rewrite length_map, length_seq; exact Hj).
  rewrite (map_nth (fun j0 => existsb (fun row => negb (nth j0 row pad =? pad)) ids)
                   (seq 0 (width ids)) 0%nat j).
  rewrite seq_nth by exact Hj. reflexivity.
Qed.

(** Dropping positions that hold the pad token does not change the
    non-pad content of a row. *)
Lemma select_content (pad : Z) (mask : list bool) :
  forall row,
    length mask = length row ->
    (forall j, (j < length row)%nat -> nth j mask true = false -> nth j row pad = pad) ->
    content pad (select mask row) = content pad row.
Proof.
  unfold content. induction mask as [| b mask IH]; intros row Hlen Hpad.
  - destruct row; [reflexivity | discriminate Hlen].
  - destruct row as [| x row]; [discriminate Hlen |].
    simpl in Hlen. injection Hlen as Hlen.
    assert (IH' : filter (fun x0 => negb (x0 =? pad)) (select mask row)
                  = filter (fun x0 => negb (x0 =? pad)) row).
    { apply IH; [exact Hlen |]. intros j Hj Hm. apply (Hpad (S j)); [simpl; lia | exact Hm]. }
    destruct b; simpl.
    + rewrite IH'. reflexivity.
    + rewrite IH'. assert (Hx : x = pad) by (apply (Hpad 0%nat); [simpl; lia | reflexivity]).
      subst x. rewrite Z.eqb_refl. reflexivity.
Qed.

Lemma collate_content (pad : Z) (ids : list (list Z)) (row : list Z) :
  In row ids -> length row = width ids ->
  content pad (select (ne_any pad ids) row) = content pad row.
Proof.
  intros Hin Hlen. apply select_content.
  - rewrite ne_any_length. symmetry. exact Hlen.
  - intros j Hj Hm. rewrite ne_any_nth in Hm by lia.
    destruct (Z.eq_dec (nth j row pad) pad) as [Heq | Hne]; [exact Heq |].
    exfalso.
    assert (Ht : existsb (fun r => negb (nth j r pad =? pad)) ids = true).
    { apply existsb_exists. exists row. split; [exact Hin |].
      apply negb_true_iff. apply Z.eqb_neq. exact Hne. }
    congruence.
Qed.

(** *** Right-padded batches *)

Lemma right_padded_nth (pad : Z) (row : list Z) :
  right_padded pad row ->
  forall j, negb (nth j row pad =? pad) = (j <? nonpad_length pad row)%nat.
Proof.
  intros [tokens [k [Hrow Htok]]] j. subst row.
  assert (Hlen : nonpad_length pad (tokens ++ repeat pad k) = length tokens).
  { unfold nonpad_length, content. rewrite filter_app.
    assert (H1 : filter (fun x => negb (x =? pad)) tokens = tokens).
    { apply forallb_filter_id. apply forallb_forall. intros x Hx.
      rewrite Forall_forall in Htok. apply negb_true_iff. apply Z.eqb_neq.
      apply Htok. exact Hx. }
    assert (H2 : filter (fun x => negb (x =? pad)) (repeat pad k) = []).
    { induction k as [| k IHk]; simpl; [reflexivity |].
      rewrite Z.eqb_refl. simpl. exact IHk. }
    rewrite H1, H2, app_nil_r. reflexivity. }
  rewrite Hlen. destruct (Nat.ltb_spec j (length tokens)) as [Hj | Hj].
  - rewrite app_nth1 by exact Hj. apply negb_true_iff. apply Z.eqb_neq.
    rewrite Forall_forall in Htok. apply Htok. apply nth_In. exact Hj.
  - rewrite app_nth2 by exact Hj. rewrite nth_repeat. rewrite Z.eqb_refl. reflexivity.
Qed.

Lemma existsb_ltb_list_max (j : nat) (ns : list nat) :
  existsb (fun n => (j <? n)%nat) ns = (j <? list_max ns)%nat.
Proof.
  induction ns as [| n ns IH]; simpl.
  - reflexivity.
  - rewrite IH.
    destruct (Nat.ltb_spec j n), (Nat.ltb_spec j (list_max ns)),
      (Nat.ltb_spec j (Nat.max n (list_max ns))); simpl; try reflexivity; lia.
Qed.

Lemma count_below (m w : nat) :
  length (filter (fun j => (j <? m)%nat) (seq 0 w)) = Nat.min m w.
Proof.
  induction w as [| w IH].
  - simpl. lia.
  - rewrite seq_S, filter_app, length_app, IH. simpl.
    destruct (Nat.ltb_spec w m); simpl; lia.
Qed.

Lemma nonpad_length_le (pad : Z) (row : list Z) :
  (nonpad_length pad row <= length row)%nat.
Proof. unfold nonpad_length, content. apply filter_length_le. Qed.

Lemma kept_columns_right_padded (pad : Z) (ids : list (list Z)) (w : nat) :
  ids <> [] ->
  Forall (fun row => length row = w) ids ->
  Forall (right_padded pad) ids ->
  length (kept_columns pad ids) = list_max (map (nonpad_length pad) ids).
Proof.
  intros Hne Hw Hrp. unfold kept_columns.
  rewrite (filter_ext _ (fun j => (j <? list_max (map (nonpad_length pad) ids))%nat)).
  - rewrite count_below. apply Nat.min_l.
    apply list_max_le. apply Forall_forall. intros n Hn.
    apply in_map_iff in Hn. destruct Hn as [row [Hn Hrow]]. subst n.
    assert (Hwid : width ids = w).
    { destruct ids as [| r ids']; [contradiction |].
      inversion Hw; subst. reflexivity. }
    rewrite Hwid. rewrite Forall_forall in Hw. rewrite <- (Hw row Hrow).
    apply nonpad_length_le.
  - intros j. rewrite <- existsb_ltb_list_max.
    clear Hne Hw. induction Hrp as [| row ids' Hrow _ IH]; simpl.
    + reflexivity.
    + rewrite IH. rewrite (right_padded_nth pad row Hrow). reflexivity.
Qed.

(** The token ids of the samples of a batch, one row per sample. *)
Definition batch_ids (samples : list sample) : list (list Z) := map s_input_ids samples.

(** The last clause of the sentence on collation, in its two readings of
    "non-padding length": the width of the collated token ids is the
    largest number of non-pad tokens of a sample, or the largest position
    after the last non-pad token of a sample. *)
Definition pruned_to_max_length (pad : Z) (samples : list sample) (b : collated) : Prop :=
  width (b_input_ids b) = list_max (map (nonpad_length pad) (batch_ids samples)) \/
  width (b_input_ids b) = list_max (map (content_end pad) (batch_ids samples)).

Definition sample_of (ids : list Z) : sample :=
  mkSample ids (Z.of_nat (length ids)) (map (fun x => if x =? 0 then 0 else 1) ids)
           (map (fun _ => 0) ids) (map (fun _ => 0) ids) (map (fun _ => 0) ids)
           [0%Q].

(** Two samples with pad token 0 inside the text: column 3 is the only
    column that holds the pad token in both. *)
Definition samples_interior_pad : list sample :=
  [sample_of [5; 0; 7; 0; 9]; sample_of [0; 6; 0; 0; 0]].

Lemma collate_interior_pad :
  exists b,
    datset_collate_fn 0 samples_interior_pad = inr b /\
    b_input_ids b = [[5; 0; 7; 9]; [0; 6; 0; 0]] /\
    width (b_input_ids b) = 4%nat /\
    list_max (map (nonpad_length 0) (batch_ids samples_interior_pad)) = 3%nat /\
    list_max (map (content_end 0) (batch_ids samples_interior_pad)) = 5%nat.
Proof. eexists. repeat split. Qed.

(** C6, as stated, fails: the collated batch of [samples_interior_pad] has
    width 4, which is not the maximal non-padding length of its samples
    (3 non-pad tokens, last non-pad token at position 5). *)
Lemma collate_not_pruned_to_max_length :
  ~ (forall b, datset_collate_fn 0 samples_interior_pad = inr b ->
               pruned_to_max_length 0 samples_interior_pad b).
Proof.
  intros Hclaim.
  destruct collate_interior_pad as [b [Hrun [_ [Hw [Hn He]]]]].
  destruct (Hclaim b Hrun) as [H | H]; rewrite Hw in H.
  - rewrite Hn in H. discriminate H.
  - rewrite He in H. discriminate H.
Qed.

(** C6, amended. The collator removes a column from the five per-token
    tensors exactly when that column of [input_ids] holds the pad token in
    every sample; the columns kept are unchanged and in order, so the
    non-pad tokens of every sample are preserved, and the width of the
    result is the number of columns kept; when every sample is padded on
    the right that width is the maximal non-padding length of the batch. *)
Theorem collate_keeps_nonpad_columns (pad : Z) (w : nat) (samples : list sample) :
  well_shaped w samples ->
  exists b,
    datset_collate_fn pad samples = inr b /\
    b_input_ids b = take_columns (kept_columns pad (batch_ids samples)) (batch_ids samples) /\
    b_input_mask b =
      take_columns (kept_columns pad (batch_ids samples)) (map s_input_mask samples) /\
    b_segment_ids b =
      take_columns (kept_columns pad (batch_ids samples)) (map s_segment_ids samples) /\
    b_e1_mask b =
      take_columns (kept_columns pad (batch_ids samples)) (map s_e1_mask samples) /\
    b_e2_mask b =
      take_columns (kept_columns pad (batch_ids samples)) (map s_e2_mask samples) /\
    b_input_lens b = map s_input_len samples /\
    b_label_ids b = map s_label_ids samples /\
    (forall j, In j (kept_columns pad (batch_ids samples)) <->
               (j < w)%nat /\
               exists sm, In sm samples /\ nth j (s_input_ids sm) pad <> pad) /\
    Forall2 (fun row row' => content pad row' = content pad row)
            (batch_ids samples) (b_input_ids b) /\
    width (b_input_ids b) = length (kept_columns pad (batch_ids samples)) /\
    (Forall (right_padded pad) (batch_ids samples) ->
     width (b_input_ids b) = list_max (map (nonpad_length pad) (batch_ids samples))).
Proof.
  intros [Hne Hall].
  destruct samples as [| sm0 rest]; [contradiction |].
  set (samples := sm0 :: rest) in *.
  assert (Hids : Forall (fun sm => length (s_input_ids sm) = w) samples)
    by (eapply Forall_impl; [| exact Hall]; intros sm H; apply H).
  assert (Hmask : Forall (fun sm => length (s_input_mask sm) = w) samples)
    by (eapply Forall_impl; [| exact Hall]; intros sm H; apply H).
  assert (Hseg : Forall (fun sm => length (s_segment_ids sm) = w) samples)
    by (eapply Forall_impl; [| exact Hall]; intros sm H; apply H).
  assert (He1 : Forall (fun sm => length (s_e1_mask sm) = w) samples)
    by (eapply Forall_impl; [| exact Hall]; intros sm H; apply H).
  assert (He2 : Forall (fun sm => length (s_e2_mask sm) = w) samples)
    by (eapply Forall_impl; [| exact Hall]; intros sm H; apply H).
  assert (Hlab : Forall (fun sm => length (s_label_ids sm) = length (s_label_ids sm0))
                        samples)
    by (eapply Forall_impl; [| exact Hall]; intros sm H; apply H).
  destruct (stack_ok s_input_ids samples w Hne Hids) as [S1 W1].
  destruct (stack_ok s_input_mask samples w Hne Hmask) as [S2 W2].
  destruct (stack_ok s_segment_ids samples w Hne Hseg) as [S3 W3].
  destruct (stack_ok s_e1_mask samples w Hne He1) as [S4 W4].
  destruct (stack_ok s_e2_mask samples w Hne He2) as [S5 W5].
  destruct (stack_ok s_label_ids samples _ Hne Hlab) as [S6 _].
  assert (S0 : stack0 (map s_input_len samples) = inr (map s_input_len samples))
    by reflexivity.
  assert (Hrows : forall (f : sample -> list Z),
             Forall (fun sm => length (f sm) = w) samples ->
             Forall (fun row => length row = width (batch_ids samples)) (map f samples)).
  { intros f Hf. unfold batch_ids. rewrite W1. apply Forall_forall. intros row Hrow.
    apply in_map_iff in Hrow. destruct Hrow as [sm [Heq Hin]]. subst row.
    rewrite Forall_forall in Hf. apply Hf. exact Hin. }
  assert (Hkeep : length (ne_any pad (batch_ids samples)) = w)
    by (rewrite ne_any_length; exact W1).
  assert (Hsel : forall (f : sample -> list Z),
             Forall (fun sm => length (f sm) = w) samples ->
             index_columns (map f samples) (ne_any pad (batch_ids samples))
             = inr (take_columns (kept_columns pad (batch_ids samples)) (map f samples))).
  { intros f Hf. destruct (stack_ok f samples w Hne Hf) as [_ Wf].
    rewrite index_columns_ok by (rewrite Hkeep, Wf; reflexivity).
    rewrite (select_take pad (batch_ids samples) (map f samples) (Hrows f Hf)).
    reflexivity. }
  unfold datset_collate_fn.
  rewrite S1, bind_inr_l, S0, bind_inr_l, S2, bind_inr_l, S3, bind_inr_l,
    S4, bind_inr_l, S5, bind_inr_l, S6, bind_inr_l.
  fold (batch_ids samples).
  rewrite (Hsel s_input_mask Hmask), (Hsel s_segment_ids Hseg),
    (Hsel s_e1_mask He1), (Hsel s_e2_mask He2).
  unfold batch_ids at 1. rewrite (Hsel s_input_ids Hids). rewrite !bind_inr_l.
  fold (batch_ids samples).
  eexists. split; [reflexivity |]. simpl b_input_ids. simpl b_input_mask.
  simpl b_segment_ids. simpl b_e1_mask. simpl b_e2_mask.
  simpl b_input_lens. simpl b_label_ids.
  repeat (split; [reflexivity |]).
  assert (Hwidth : width (take_columns (kept_columns pad (batch_ids samples))
                                       (batch_ids samples))
                   = length (kept_columns pad (batch_ids samples))).
  { unfold samples, batch_ids, take_columns. simpl. apply length_map. }
  split; [| split; [| split]].
  - intros j. rewrite kept_columns_In. unfold batch_ids at 1. rewrite W1.
    split; intros [Hj [x [Hx Hne']]]; (split; [exact Hj |]).
    + unfold batch_ids in Hx. apply in_map_iff in Hx.
      destruct Hx as [sm [Heq Hin]]. subst x. exists sm. split; assumption.
    + exists (s_input_ids x). split; [| exact Hne'].
      unfold batch_ids. apply in_map. exact Hx.
  - pose proof (Hrows s_input_ids Hids) as Hr. fold (batch_ids samples) in Hr.
    cut (Forall2 (fun row row' => content pad row' = content pad row)
                 (batch_ids samples)
                 (map (select (ne_any pad (batch_ids samples))) (batch_ids samples))).
    { intros Hcut. rewrite (select_take pad _ _ Hr) in Hcut. exact Hcut. }
    assert (Hgen : forall m,
               Forall (fun row => In row (batch_ids samples) /\
                                  length row = width (batch_ids samples)) m ->
               Forall2 (fun row row' => content pad row' = content pad row)
                       m (map (select (ne_any pad (batch_ids samples))) m)).
    { induction 1 as [| row m [Hin Hlen] _ IH]; simpl; constructor.
      - apply collate_content; assumption.
      - exact IH. }
    apply Hgen. apply Forall_forall. intros row Hrow. split; [exact Hrow |].
    rewrite Forall_forall in Hr. apply Hr. exact Hrow.
  - exact Hwidth.
  - intros Hrp. etransitivity; [exact Hwidth |].
    apply (kept_columns_right_padded pad (batch_ids samples) w).
    + unfold samples, batch_ids. simpl. discriminate.
    + unfold batch_ids. apply Forall_forall. intros row Hrow.
      apply in_map_iff in Hrow. destruct Hrow as [sm [Heq Hin]]. subst row.
      rewrite Forall_forall in Hids. apply Hids. exact Hin.
    + exact Hrp.
Qed.

Definition samples_right_padded : list sample :=
  [sample_of [5; 6; 0; 0]; sample_of [7; 8; 9; 0]].

Lemma collate_right_padded :
  exists b,
    datset_collate_fn 0 samples_right_padded = inr b /\
    b_input_ids b = [[5; 6; 0]; [7; 8; 9]] /\
    b_input_mask b = [[1; 1; 0]; [1; 1; 1]].
Proof. eexists. repeat split. Qed.

Lemma samples_right_padded_shape : well_shaped 4 samples_right_padded.
Proof.
  split; [discriminate |]. repeat constructor.
Defined.

Lemma collate_keeps_nonpad_columns_witness :
  exists b,
    datset_collate_fn 0 samples_right_padded = inr b /\
    width (b_input_ids b) = length (kept_columns 0 (batch_ids samples_right_padded)).
Proof.
  destruct (collate_keeps_nonpad_columns 0 4 samples_right_padded
                                         samples_right_padded_shape)
    as [b [Hrun [_ [_ [_ [_ [_ [_ [_ [_ [_ [Hw _]]]]]]]]]]]].
  exists b. split; [exact Hrun | exact Hw].
Defined.

(** ** Start-up validation *)

(** C9. The start-up checks raise exactly when
    [gradient_accumulation_steps] is below 1, or neither [do_train] nor
    [do_eval] is set, or the output directory holds [model.pt] while
    [do_train] is set and [resume] is not; what they raise is
    [ValueError]. *)
Theorem startup_checks_raise_iff (args : start_args) (output_dir : directory) :
  ((exists e, startup_checks args output_dir = inl e) <->
   (a_gradient_accumulation_steps args < 1 \/
    (a_do_train args = false /\ a_do_eval args = false) \/
    (has_model_pt output_dir = true /\ a_do_train args = true /\ a_resume args = false)))
  /\
  (forall e, startup_checks args output_dir = inl e -> e = ValueError).
Proof.
  unfold startup_checks.
  destruct args as [gas tbs do_train do_eval resume]. simpl.
  destruct (Z.ltb_spec gas 1) as [Hgas | Hgas].
  - split.
    + split; [intros _; left; exact Hgas | intros _; exists ValueError; reflexivity].
    + intros e He. inversion He. reflexivity.
  - destruct do_train, do_eval, resume, (has_model_pt output_dir); simpl;
      (split;
       [ split;
         [ intros [e He]; try discriminate He;
           first [ right; left; split; reflexivity
                 | right; right; repeat split; reflexivity ]
         | intros [H | [[H1 H2] | [H1 [H2 H3]]]];
           try lia; try discriminate;
           exists ValueError; reflexivity ]
       | intros e He; try discriminate He; inversion He; reflexivity ]).
Qed.

Example startup_checks_fresh_directory :
  startup_checks (mkStartArgs 2 24 true true false) None
  = inr (mkStartArgs 2 12 true true false, Some []).
Proof. reflexivity. Qed.

Example startup_checks_model_present :
  startup_checks (mkStartArgs 1 24 true true false) (Some ["model.pt"%string])
  = inl ValueError.
Proof. reflexivity. Qed.

(** ** [build_dataloader] *)

Lemma mapM_map {A B : Type} (f : A -> result B) (g : A -> B) (l : list A) :
  (forall a, In a l -> f a = inr (g a)) -> mapM f l = inr (map g l).
Proof.
  induction l as [| a l IH]; intros H; simpl.
  - reflexivity.
  - rewrite (H a (or_introl eq_refl)). simpl.
    rewrite IH by (intros a' Ha'; apply H; right; exact Ha'). reflexivity.
Qed.

Lemma getitem_nth {A : Type} (l : list A) (i : nat) (d : A) :
  (i < length l)%nat -> getitem l i = inr (nth i l d).
Proof.
  intros Hi. unfold getitem. rewrite (nth_error_nth' l d Hi). reflexivity.
Qed.

Lemma seven_fields {A : Type} (l : list (list A)) :
  length l = 7%nat -> map (fun i => nth i l []) (seq 0 7) = l.
Proof.
  intros H.
  do 7 (destruct l as [| ? l]; [discriminate H |]).
  destruct l; [reflexivity | discriminate H].
Qed.

Section LoaderProperties.

Variable fs : string -> option dataset.

(** The shards found on disk for a split, in the order of their indices. *)
Definition present_shards (save_data datatype : string) (idxs : list nat)
  : list dataset :=
  flat_map (fun idx => match fs (shard_path save_data datatype idx) with
                       | Some shard => [shard]
                       | None => []
                       end) idxs.

(** Field [i] of the data set [data_set] followed by field [i] of every
    shard, in order. *)
Definition merged_fields (data_set : dataset) (shards : list dataset) : dataset :=
  map (fun i => nth i data_set [] ++ concat (map (fun shard => nth i shard []) shards))
      (seq 0 7).

Lemma concat_fields_ok (data_set ith_data_set : dataset) :
  length data_set = 7%nat -> (7 <= length ith_data_set)%nat ->
  concat_fields data_set ith_data_set =
  inr (map (fun i => nth i data_set [] ++ nth i ith_data_set []) (seq 0 7)).
Proof.
  intros Hds Hith. unfold concat_fields. rewrite Hds.
  apply mapM_map. intros i Hi. apply in_seq in Hi.
  rewrite (getitem_nth data_set i []) by lia.
  rewrite (getitem_nth ith_data_set i []) by lia.
  reflexivity.
Qed.

Lemma load_shards_ok (save_data datatype : string) (idxs : list nat) :
  forall data_set,
    length data_set = 7%nat ->
    Forall (fun shard => (7 <= length shard)%nat)
           (present_shards save_data datatype idxs) ->
    load_shards fs save_data datatype idxs data_set =
    inr (merged_fields data_set (present_shards save_data datatype idxs)).
Proof.
  induction idxs as [| idx idxs IH]; intros data_set Hlen Hwf.
  - change (load_shards fs save_data datatype [] data_set) with (@inr exn _ data_set).
    apply (f_equal (@inr exn dataset)).
    rewrite <- (seven_fields data_set Hlen) at 1.
    unfold merged_fields, present_shards. apply map_ext. intros i. simpl.
    rewrite app_nil_r. reflexivity.
  - unfold present_shards in Hwf |- *. cbn [load_shards flat_map] in Hwf |- *.
    fold (present_shards save_data datatype idxs) in Hwf |- *.
    destruct (fs (shard_path save_data datatype idx)) as [shard |].
    + cbn [app] in Hwf |- *.
      apply Forall_cons_iff in Hwf. destruct Hwf as [Hshard Hwf].
      rewrite (getitem_nth shard 0 []) by lia. rewrite bind_inr_l.
      rewrite (getitem_nth shard 1 []) by lia. rewrite bind_inr_l.
      rewrite (concat_fields_ok data_set shard Hlen Hshard). rewrite bind_inr_l.
      rewrite IH; [| rewrite length_map, length_seq; reflexivity | exact Hwf].
      unfold merged_fields. apply (f_equal (@inr exn dataset)).
      apply map_ext_in. intros i Hi.
      apply in_seq in Hi. cbn [map concat].
      rewrite (nth_indep _ [] (nth 0 data_set [] ++ nth 0 shard []))
        by (rewrite length_map, length_seq; lia).
      rewrite (map_nth (fun i0 => nth i0 data_set [] ++ nth i0 shard []) (seq 0 7) 0%nat i).
      rewrite seq_nth by lia. cbn [Nat.add]. rewrite <- app_assoc. reflexivity.
    + cbn [app] in Hwf |- *. apply IH; assumption.
Qed.

Lemma merged_fields_empty (shards : list dataset) (i : nat) :
  (i < 7)%nat ->
  nth i (merged_fields (repeat [] 7) shards) [] =
  concat (map (fun shard => nth i shard []) shards).
Proof.
  intros Hi. unfold merged_fields.
  rewrite (nth_indep _ [] (nth 0 (repeat [] 7) []
                           ++ concat (map (fun shard => nth 0 shard []) shards)))
    by (rewrite length_map, length_seq; exact Hi).
  rewrite (map_nth (fun i0 => nth i0 (repeat [] 7) []
                              ++ concat (map (fun shard => nth i0 shard []) shards))
                   (seq 0 7) 0%nat i).
  rewrite seq_nth by exact Hi. simpl.
  do 7 (destruct i as [| i]; [reflexivity |]). lia.
Qed.

Lemma present_shards_count (save_data datatype : string) (idxs : list nat) :
  (length (present_shards save_data datatype idxs) <= length idxs)%nat.
Proof.
  induction idxs as [| idx idxs IH]; simpl; [lia |].
  destruct (fs (shard_path save_data datatype idx)); simpl; lia.
Qed.

End LoaderProperties.

Lemma mapM_inr_Forall {A B : Type} (f : A -> result B) (l : list A) (bs : list B) :
  mapM f l = inr bs -> Forall (fun a => exists b, f a = inr b) l.
Proof.
  revert bs. induction l as [| a l IH]; intros bs H.
  - constructor.
  - cbn [mapM] in H. apply bind_inr in H. destruct H as [b [Hb H]].
    apply bind_inr in H. destruct H as [bs' [Hbs' _]].
    constructor; [exists b; exact Hb | apply (IH bs'); exact Hbs'].
Qed.

(** [f1_eval] returns only when every entry of the label field is a vector
    of 36 entries: this is where the 36-way cardinality is asserted. *)
Lemma f1_eval_asserts_36 (sigmoid : Q -> Q) (logits : list (list Q))
      (examples : dataset) (r : float * float) :
  f1_eval sigmoid logits examples = inr r ->
  exists label_id_lst,
    nth_error examples 6 = Some label_id_lst /\ Forall label_vector label_id_lst.
Proof.
  intros H. unfold f1_eval in H.
  apply bind_inr in H. destruct H as [array [_ H]].
  apply bind_inr in H. destruct H as [label_id_lst [Hget H]].
  apply bind_inr in H. destruct H as [labels [Hlabels _]].
  exists label_id_lst. split.
  - unfold getitem in Hget. destruct (nth_error examples 6) as [l |].
    + apply inr_inj in Hget. subst l. reflexivity.
    + discriminate Hget.
  - apply mapM_inr_Forall in Hlabels.
    eapply Forall_impl; [| exact Hlabels].
    intros it [l Hl]. apply gold_label_inr in Hl.
    destruct Hl as [v [Hv [Hlen _]]]. exists v. split; assumption.
Qed.

Lemma f1_eval_rejects_short_label (sigmoid : Q -> Q) (logits : list (list Q))
      (examples : dataset) (label_id_lst : list item) (v : list Z) :
  nth_error examples 6 = Some label_id_lst ->
  In (IVec v) label_id_lst -> length v <> 36%nat ->
  exists e, f1_eval sigmoid logits examples = inl e.
Proof.
  intros H6 Hin Hlen.
  destruct (f1_eval sigmoid logits examples) as [e | r] eqn:E; [exists e; reflexivity |].
  exfalso. apply f1_eval_asserts_36 in E. destruct E as [lst [H6' Hwf]].
  rewrite H6 in H6'. inversion H6'; subst lst.
  rewrite Forall_forall in Hwf. destruct (Hwf _ Hin) as [v' [Hv Hl]].
  inversion Hv; subst v'. contradiction.
Qed.

Definition batch_size_of (args : loader_args) (datatype : string) : Z :=
  if String.eqb datatype "train" then train_batch_size args else eval_batch_size args.

Section LoaderClaims.

Variable fs : string -> option dataset.
Variable Tensor : Type.
Variable tensor_long : list item -> result Tensor.
Variable tensor_float : list item -> result Tensor.
Variable tensor_dataset : Type.
Variable TensorDataset : list Tensor -> result tensor_dataset.
Variable data_loader : Type.
Variable DataLoader : tensor_dataset -> Z -> bool -> result data_loader.

Local Abbreviation get_loader :=
  (get_dataloader Tensor tensor_long tensor_float tensor_dataset TensorDataset
                  data_loader DataLoader).
Local Abbreviation build :=
  (build_dataloader fs Tensor tensor_long tensor_float tensor_dataset TensorDataset
                    data_loader DataLoader).

(** C8, amended. For every split name, [build_dataloader] reads only the
    shards of indices 0 to 9 and skips the missing ones; the data set it
    builds has the 7 fields, each the concatenation over the shards found,
    in index order, of that field; what it returns or raises is what
    [get_dataloader] does on that data set, or [AssertionError] when the
    name is not one of a split. The assertion that a label vector has 36
    entries is made by [f1_eval], which returns only on label vectors of
    36 entries. *)
Theorem build_dataloader_concatenates (args : loader_args) (datatype : string) :
  Forall (fun shard => (7 <= length shard)%nat)
         (present_shards fs (save_data args) datatype (seq 0 max_split)) ->
  exists data_set,
    load_shards fs (save_data args) datatype (seq 0 max_split) (repeat [] 7)
    = inr data_set /\
    (length (present_shards fs (save_data args) datatype (seq 0 max_split)) <= 10)%nat /\
    length data_set = 7%nat /\
    (forall i, (i < 7)%nat ->
               nth i data_set [] =
               concat (map (fun shard => nth i shard [])
                           (present_shards fs (save_data args) datatype
                                           (seq 0 max_split)))) /\
    build args datatype =
      (if valid_datatype datatype
       then bind (get_loader data_set args (batch_size_of args datatype) datatype)
                 (fun loader => ret (data_set, loader))
       else inl AssertionError) /\
    (forall sigmoid logits r,
        f1_eval sigmoid logits data_set = inr r ->
        exists label_id_lst,
          nth_error data_set 6 = Some label_id_lst /\
          Forall label_vector label_id_lst).
Proof.
  intros Hwf.
  set (shards := present_shards fs (save_data args) datatype (seq 0 max_split)) in *.
  set (data_set := merged_fields (repeat [] 7) shards).
  assert (Hload : load_shards fs (save_data args) datatype (seq 0 max_split)
                              (repeat [] 7) = inr data_set).
  { apply load_shards_ok; [reflexivity | exact Hwf]. }
  assert (Hlen : length data_set = 7%nat).
  { unfold data_set, merged_fields. rewrite length_map, length_seq. reflexivity. }
  exists data_set. split; [exact Hload |]. split.
  { pose proof (present_shards_count fs (save_data args) datatype (seq 0 max_split)) as H.
    rewrite length_seq in H. exact H. }
  split; [exact Hlen |]. split.
  { intros i Hi. apply merged_fields_empty. exact Hi. }
  split.
  - unfold build_dataloader. destruct (valid_datatype datatype); [| reflexivity].
    change (assert true) with (@ret unit tt). rewrite bind_ret.
    rewrite Hload, bind_inr_l.
    rewrite (getitem_nth data_set 0 []) by lia. rewrite bind_inr_l.
    reflexivity.
  - intros sigmoid logits r Hr. eapply f1_eval_asserts_36. exact Hr.
Qed.

End LoaderClaims.

(** *** A run of the loader

    A stand-in for the tensor library, to run the loader on examples: a
    tensor is the field it was made of, a field being accepted when it is
    a list of [int]s or a list of equally long lists; [TensorDataset]
    wants fields of one length; [DataLoader] wants a positive batch size
    and, to shuffle, a data set that is not empty. Which exception the
    library raises otherwise is not part of the stand-in: [ValueError]
    stands for it. *)
Definition tensorable (field : list item) : bool :=
  match field with
  | [] => true
  | IInt _ :: rest =>
      forallb (fun it => match it with IInt _ => true | IVec _ => false end) rest
  | IVec v :: rest =>
      forallb (fun it => match it with
                         | IInt _ => false
                         | IVec v' => (length v' =? length v)%nat
                         end) rest
  end.

Definition field_tensor (field : list item) : result (list item) :=
  if tensorable field then ret field else raise ValueError.

Definition field_dataset (tensors : list (list item)) : result dataset :=
  _ <- assert (forallb (fun t => (length t =? length (hd [] tensors))%nat) tensors) ;;
  ret tensors.

(** The [DataLoader], represented by the arguments of its constructor. *)
Record dataloader : Type := mkLoader {
  ld_data : dataset;
  ld_batch_size : Z;
  ld_shuffle : bool
}.

Definition field_loader (data : dataset) (batch_size : Z) (shuffled : bool)
  : result dataloader :=
  if batch_size <=? 0 then raise ValueError
  else if shuffled && (length (hd [] data) =? 0)%nat then raise ValueError
  else ret (mkLoader data batch_size shuffled).

Definition build_dataloader_fields (fs : string -> option dataset) :=
  build_dataloader fs (list item) field_tensor field_tensor dataset field_dataset
                   dataloader field_loader.

(** The sentence on the label cardinality as the specification words it:
    a data set returned by [build_dataloader] has label vectors of 36
    entries only. *)
Definition loader_asserts_36 (fs : string -> option dataset) (args : loader_args)
           (datatype : string) : Prop :=
  forall data_set loader label_id_lst,
    build_dataloader_fields fs args datatype = inr (data_set, loader) ->
    nth_error data_set 6 = Some label_id_lst ->
    Forall label_vector label_id_lst.

Definition toy_loader_args : loader_args := mkLoaderArgs "data" 8 8 false.

(** One training shard with one example whose label vector has 1 entry. *)
Definition shard_short_label : dataset :=
  [[IVec [101; 2023; 102]]; [IInt 3]; [IVec [1; 1; 1]]; [IVec [0; 0; 0]];
   [IVec [0; 1; 0]]; [IVec [0; 0; 1]]; [IVec [1]]].

Definition fs_short_label (path : string) : option dataset :=
  if String.eqb path "data/train-0.pkl" then Some shard_short_label else None.

Lemma build_dataloader_short_label :
  build_dataloader_fields fs_short_label toy_loader_args "train"
  = inr (shard_short_label, mkLoader shard_short_label 8 false).
Proof. reflexivity. Qed.

(** C8, as stated, fails: [build_dataloader] returns a data set whose
    label vector has one entry. *)
Lemma build_dataloader_does_not_assert_36 :
  ~ loader_asserts_36 fs_short_label toy_loader_args "train".
Proof.
  intros Hclaim.
  pose proof (Hclaim _ _ [IVec [1]] build_dataloader_short_label eq_refl) as Hwf.
  inversion Hwf as [| it l [v [Hv Hlen]] _]; subst.
  inversion Hv; subst v. discriminate Hlen.
Qed.

Definition shard_of (token : Z) (hot : nat) : dataset :=
  [[IVec [101; token; 102]]; [IInt 3]; [IVec [1; 1; 1]]; [IVec [0; 0; 0]];
   [IVec [0; 1; 0]]; [IVec [0; 0; 1]]; [one_hot hot]].

(** Shards 0 and 2 of the dev split; shard 1 is missing. *)
Definition fs_dev (path : string) : option dataset :=
  if String.eqb path "data/dev-0.pkl" then Some (shard_of 7 3)
  else if String.eqb path "data/dev-2.pkl" then Some (shard_of 9 35)
  else None.

Example build_dataloader_dev :
  match build_dataloader_fields fs_dev toy_loader_args "dev" with
  | inr (data_set, _) =>
      nth 0 data_set [] = [IVec [101; 7; 102]; IVec [101; 9; 102]] /\
      nth 6 data_set [] = [one_hot 3; one_hot 35]
  | inl _ => False
  end.
Proof. vm_compute. split; reflexivity. Qed.

Lemma build_dataloader_concatenates_witness :
  exists data_set,
    load_shards fs_dev "data" "dev" (seq 0 max_split) (repeat [] 7) = inr data_set /\
    length data_set = 7%nat /\
    build_dataloader_fields fs_dev toy_loader_args "dev" =
    bind (get_dataloader (list item) field_tensor field_tensor dataset field_dataset
                         dataloader field_loader data_set toy_loader_args 8 "dev")
         (fun loader => ret (data_set, loader)).
Proof.
  destruct (build_dataloader_concatenates
              fs_dev (list item) field_tensor field_tensor dataset field_dataset
              dataloader field_loader toy_loader_args "dev")
    as [data_set [Hload [_ [Hlen [_ [Hbuild _]]]]]].
  - vm_compute. repeat constructor.
  - exists data_set. split; [exact Hload |]. split; [exact Hlen | exact Hbuild].
Defined.

(** * Further properties of the evaluator *)

(** ** [getpred]: the classes it can return *)

Lemma getpred_row_cases (T1 T2 : Q) (row : list Q) :
  (above T1 row 0 <> [] /\ getpred_row T1 T2 row = above T1 row 0) \/
  (above T1 row 0 = [] /\
   ((getpred_row T1 T2 row = [36] /\
     (sc_maxl (getpred_scan T1 row 0 scan0) <= T2)%Q) \/
    (getpred_row T1 T2 row = [sc_maxj (getpred_scan T1 row 0 scan0)] /\
     (T2 < sc_maxl (getpred_scan T1 row 0 scan0))%Q))).
Proof.
  destruct (above T1 row 0) as [| c l] eqn:E.
  - right. split; [reflexivity |].
    rewrite (getpred_row_fallback T1 T2 row E). cbv zeta.
    destruct (Qle_bool (sc_maxl (getpred_scan T1 row 0 scan0)) T2) eqn:Eb.
    + left. split; [reflexivity | apply Qle_bool_iff; exact Eb].
    + right. split; [reflexivity |].
      apply Qnot_le_lt. intros Hle. apply Qle_bool_iff in Hle. congruence.
  - left. split; [discriminate |]. rewrite <- E. apply getpred_row_above.
    rewrite E. discriminate.
Qed.

(** What a prediction can hold. *)
Definition class_of_row (T2 : Q) (row : list Q) (c : Z) : Prop :=
  c = 36 \/
  (0 <= c < Z.of_nat (length row)) \/
  (c = -1 /\ (T2 < -1 # 1)%Q /\ forall x, In x row -> (x <= -1 # 1)%Q).

(** X1. Every class predicted by [getpred] for an example is the
    no-relation class 36 or the index of one of the example's scores; the
    only exception is the sentinel -1, returned when no score is above -1
    and [T2] is below -1. Predictions hold no class twice. *)
Theorem getpred_classes (result : list (list Q)) (T1 T2 : Q) :
  Forall2 (fun row r => NoDup r /\ forall c, In c r -> class_of_row T2 row c)
          result (getpred result T1 T2).
Proof.
  unfold getpred. induction result as [| row result IH]; simpl; constructor;
    [| exact IH].
  split; [apply getpred_row_NoDup |].
  intros c Hc. unfold class_of_row.
  destruct (getpred_row_cases T1 T2 row) as [[_ Hr] | [_ [[Hr _] | [Hr Hlt]]]];
    rewrite Hr in Hc.
  - apply above_In in Hc. destruct Hc as [k [Hk [Hlen _]]]. right. left. lia.
  - destruct Hc as [Hc | []]. left. symmetry. exact Hc.
  - destruct Hc as [Hc | []]. subst c.
    destruct (getpred_scan_max T1 row 0 scan0)
      as [[Hl [Hj Hall]] | [k [Hk [Hj _]]]].
    + right. right. rewrite Hj. rewrite Hl in Hlt. simpl in Hlt.
      split; [reflexivity |]. split; [exact Hlt |].
      intros x Hx. destruct (In_nth row x 0%Q Hx) as [i [Hi Hnth]].
      rewrite <- Hnth. apply Hall. exact Hi.
    + right. left. rewrite Hj. lia.
Qed.

(** X2. When the fallback threshold [T2] is at least [T1] (and at least
    -1), the highest-scoring class is never predicted on its own: an
    example without a score above [T1] is predicted no-relation. *)
Theorem getpred_high_T2 (result : list (list Q)) (T1 T2 : Q) :
  (T1 <= T2)%Q -> (-1 # 1 <= T2)%Q ->
  getpred result T1 T2 =
  map (fun row => match above T1 row 0 with
                  | [] => [36]
                  | classes => classes
                  end) result.
Proof.
  intros H12 Hm. unfold getpred. apply map_ext. intros row.
  destruct (getpred_row_cases T1 T2 row) as [[Hne Hr] | [He [[Hr _] | [_ Hlt]]]].
  - rewrite Hr. destruct (above T1 row 0); [contradiction | reflexivity].
  - rewrite Hr, He. reflexivity.
  - exfalso.
    destruct (getpred_scan_max T1 row 0 scan0)
      as [[Hl _] | [k [Hk [_ [Hl _]]]]]; rewrite Hl in Hlt.
    + simpl in Hlt. lra.
    + assert (Hk' : (nth k row 0%Q <= T1)%Q).
      { destruct (Qlt_le_dec T1 (nth k row 0%Q)) as [Hgt | Hle]; [| exact Hle].
        exfalso. assert (Hin : In (0 + Z.of_nat k) (above T1 row 0)).
        { apply above_In. exists k. repeat split; assumption. }
        rewrite He in Hin. exact Hin. }
      lra.
Qed.

Lemma getpred_high_T2_witness :
  getpred probs_example (1 # 2) (1 # 2) = [[1]; [36]; [36]].
Proof.
  rewrite (getpred_high_T2 probs_example (1 # 2) (1 # 2)).
  - reflexivity.
  - unfold Qle. simpl. lia.
  - unfold Qle. simpl. lia.
Defined.

(** X3. Raising [T2] changes a prediction in one way only: it becomes
    no-relation. *)
Theorem getpred_T2_monotone (result : list (list Q)) (T1 T2 T2' : Q) :
  (T2 <= T2')%Q ->
  Forall2 (fun r r' => r' = r \/ r' = [36])
          (getpred result T1 T2) (getpred result T1 T2').
Proof.
  intros Hle. unfold getpred.
  induction result as [| row result IH]; simpl; constructor; [| exact IH].
  destruct (getpred_row_cases T1 T2' row) as [[Hne Hr'] | [He [[Hr' _] | [Hr' Hlt']]]].
  - left. rewrite Hr'. symmetry. apply getpred_row_above. exact Hne.
  - right. exact Hr'.
  - left. rewrite Hr'.
    destruct (getpred_row_cases T1 T2 row) as [[Hne _] | [_ [[_ Hle2] | [Hr _]]]].
    + contradiction.
    + exfalso. lra.
    + symmetry. exact Hr.
Qed.

Lemma getpred_T2_monotone_witness :
  Forall2 (fun r r' => r' = r \/ r' = [36])
          (getpred probs_example (1 # 2) (2 # 5))
          (getpred probs_example (1 # 2) (1 # 2)).
Proof.
  apply (getpred_T2_monotone probs_example (1 # 2) (2 # 5) (1 # 2)).
  unfold Qle. simpl. lia.
Defined.

(** ** [geteval]: errors, range and closed form *)

Lemma geteval_loop_firstn (data : list (list Z)) :
  forall devp c,
    geteval_loop (firstn (length data) devp) data c = geteval_loop devp data c.
Proof.
  induction data as [| d ds IH]; intros devp c; simpl.
  - reflexivity.
  - destruct devp as [| p ps]; simpl; [reflexivity | apply IH].
Qed.

(** X4. [geteval] raises [IndexError] exactly when there are fewer
    predictions than gold examples; otherwise it returns, and predictions
    beyond the last gold example are not looked at. *)
Theorem geteval_index_error (devp data : list (list Z)) :
  ((length devp < length data)%nat <-> geteval devp data = inl IndexError) /\
  ((length data <= length devp)%nat <-> exists f_1, geteval devp data = inr f_1) /\
  geteval (firstn (length data) devp) data = geteval devp data.
Proof.
  split; [| split].
  - split.
    + intros H. unfold geteval. rewrite geteval_loop_short by exact H. reflexivity.
    + intros H. destruct (Nat.lt_ge_cases (length devp) (length data)) as [Hlt | Hge];
        [exact Hlt |].
      rewrite (geteval_spec devp data Hge) in H. discriminate H.
  - split.
    + intros H. rewrite (geteval_spec devp data H). eexists. reflexivity.
    + intros [f_1 H].
      destruct (Nat.lt_ge_cases (length devp) (length data)) as [Hlt | Hge];
        [| exact Hge].
      unfold geteval in H. rewrite geteval_loop_short in H by exact Hlt.
      discriminate H.
  - unfold geteval. rewrite geteval_loop_firstn. reflexivity.
Qed.



(** A gold list holding a class twice counts its hit twice: the F1 is 4/3. *)
Example geteval_duplicate_gold :
  match geteval [[1]] [[1; 1]] with
  | inr f_1 => (f_1 == 4 # 3)%Q
  | inl _ => False
  end.
Proof. vm_compute. reflexivity. Qed.








(** ** [f1_eval]: when it returns, and which threshold it returns *)

Lemma gold_labels_wrong_length (label_id_lst : list item) :
  Forall (fun it => exists v, it = IVec v) label_id_lst ->
  ~ Forall label_vector label_id_lst ->
  gold_labels label_id_lst = inl AssertionError.
Proof.
  unfold gold_labels. induction 1 as [| it lst [v Hv] _ IH]; intros Hnot.
  - exfalso. apply Hnot. constructor.
  - subst it. cbn [mapM].
    destruct (Nat.eq_dec (length v) 36) as [E | E].
    + rewrite (gold_label_vec v E), bind_inr_l.
      rewrite IH; [reflexivity |].
      intros Hwf. apply Hnot. constructor; [exists v; split; [reflexivity | exact E] |].
      exact Hwf.
    + unfold gold_label. apply Nat.eqb_neq in E. rewrite E. reflexivity.
Qed.

Section F1EvalReturns.

Variable sigmoid : Q -> Q.

(** X7. [f1_eval] returns exactly when the logits form a matrix, the data
    set has a seventh field, every entry of that field is a vector of 36
    labels, and there are as many entries as rows of logits. On rows of
    unequal length it raises [ValueError], whatever the data set. On a
    matrix of logits it raises [IndexError] without a seventh field, and
    [AssertionError] on label vectors one of which has another length, or
    on a different number of rows. *)
Theorem f1_eval_returns_iff (logits : list (list Q)) (examples : dataset) :
  ((exists r, f1_eval sigmoid logits examples = inr r) <->
   (rectangular logits /\
    exists label_id_lst,
      nth_error examples 6 = Some label_id_lst /\
      Forall label_vector label_id_lst /\
      length label_id_lst = length logits)) /\
  (~ rectangular logits -> f1_eval sigmoid logits examples = inl ValueError) /\
  (rectangular logits -> nth_error examples 6 = None ->
   f1_eval sigmoid logits examples = inl IndexError) /\
  (forall label_id_lst,
      rectangular logits ->
      nth_error examples 6 = Some label_id_lst ->
      Forall (fun it => exists v, it = IVec v) label_id_lst ->
      ~ Forall label_vector label_id_lst ->
      f1_eval sigmoid logits examples = inl AssertionError) /\
  (forall label_id_lst,
      rectangular logits ->
      nth_error examples 6 = Some label_id_lst ->
      Forall label_vector label_id_lst ->
      length label_id_lst <> length logits ->
      f1_eval sigmoid logits examples = inl AssertionError).
Proof.
  split; [| split; [| split; [| split]]].
  - split.
    + intros [r H].
      destruct (f1_eval_asserts_36 sigmoid logits examples r H) as [lst [H6 Hwf]].
      unfold f1_eval, getitem in H.
      apply bind_inr in H. destruct H as [array [Harray H]].
      apply asarray_inr in Harray. destruct Harray as [-> Hrect].
      split; [exact Hrect |].
      exists lst. split; [exact H6 |]. split; [exact Hwf |].
      rewrite H6 in H. rewrite bind_ret in H.
      apply bind_inr in H. destruct H as [labels [Hl H]].
      apply bind_inr in H. destruct H as [u [Ha _]].
      apply assert_inr in Ha. apply Nat.eqb_eq in Ha.
      unfold gold_labels in Hl. rewrite (mapM_inr_length _ _ _ Hl) in Ha.
      rewrite length_map in Ha. exact Ha.
    + intros [Hrect [lst [H6 [Hwf Hlen]]]].
      destruct (gold_labels_total lst Hwf) as [labels Hl].
      rewrite (f1_eval_unfold sigmoid logits examples lst labels Hrect H6 Hl Hlen).
      assert (Hle : (length labels <= length (map (map sigmoid) logits))%nat).
      { rewrite length_map. unfold gold_labels in Hl.
        rewrite (mapM_inr_length _ _ _ Hl). lia. }
      destruct (f1_search_spec _ labels Hle 51 0 (0%float, 0%float)) as [b [Hrun _]].
      exists b. exact Hrun.
  - intros Hnot. unfold f1_eval. rewrite (asarray_ragged logits Hnot). reflexivity.
  - intros Hrect H6. unfold f1_eval, getitem.
    rewrite (asarray_rectangular logits Hrect), bind_inr_l, H6. reflexivity.
  - intros lst Hrect H6 Hvec Hnot. unfold f1_eval, getitem.
    rewrite (asarray_rectangular logits Hrect), bind_inr_l, H6, bind_ret.
    rewrite (gold_labels_wrong_length lst Hvec Hnot). reflexivity.
  - intros lst Hrect H6 Hwf Hlen. unfold f1_eval, getitem.
    rewrite (asarray_rectangular logits Hrect), bind_inr_l, H6, bind_ret.
    destruct (gold_labels_total lst Hwf) as [labels Hl]. rewrite Hl, bind_ret.
    unfold gold_labels in Hl. rewrite (mapM_inr_length _ _ _ Hl), length_map.
    apply Nat.eqb_neq in Hlen. rewrite Hlen. reflexivity.
Qed.

End F1EvalReturns.

Section F1EvalFirst.

Variable sigmoid : Q -> Q.


End F1EvalFirst.

(** Three examples, of which the second has no relation. Up to threshold
    0.09 a relation is predicted for each, right for the first only; at
    0.10 the third prediction becomes class 36, from 0.11 on the second as
    well, and the micro-F1 grows from 2/5 over 1/2 to 2/3. The search
    returns the first threshold of the largest F1. *)
Definition logits_first : list (list Q) :=
  [logits_of (Some 3%nat) 4 (-4); logits_of (Some 7%nat) (-39 # 10) (-4);
   logits_of None 0 (-4)]%Q.

Definition examples_first : dataset :=
  [[]; []; []; []; []; []; [one_hot 3; IVec (repeat 0 36); one_hot 5]].

Example f1_eval_first_example :
  f1_eval rational_sigmoid logits_first examples_first
  = inr (micro_f1 (map (map rational_sigmoid) logits_first) [[3]; [36]; [5]] 11,
         (float_of_nat 11 / 100)%float).
Proof. vm_compute. reflexivity. Qed.




(** * Further properties of the optimizer bridge *)

Section BridgeEffects.

Variable tensor : Type.
Variable has_nan : tensor -> bool.
Variable copy_ : tensor -> tensor -> tensor.
Variable new_like : tensor -> tensor.

Local Abbreviation copy_to_model := (copy_optimizer_params_to_model tensor copy_).
Local Abbreviation set_loop := (set_grad_loop tensor has_nan copy_ new_like).
Local Abbreviation set_grad := (set_optimizer_params_grad tensor has_nan copy_ new_like).

(** The parameter of the optimizer after its gradient was written. *)
Definition with_grad (param_opti : opti_param tensor)
           (param_model : model_param tensor) : opti_param tensor :=
  mkOptiParam (o_data param_opti)
              (Some (copy_ (match o_grad param_opti with
                            | None => new_like (o_data param_opti)
                            | Some g => g
                            end)
                           (m_grad param_model))).


Lemma set_loop_entries (po : named_opti tensor) :
  forall (m : named_model tensor) (test_nan is_nan flag : bool)
         (po' : named_opti tensor),
    set_loop po m test_nan is_nan = inr (flag, po') ->
    length po' = length po /\
    (forall i name param_opti name' param_model,
        nth_error po i = Some (name, param_opti) ->
        nth_error m i = Some (name', param_model) ->
        nth_error po' i = Some (name, with_grad param_opti param_model)) /\
    (forall i, (length m <= i)%nat -> nth_error po' i = nth_error po i).
Proof.
  induction po as [| [n1 p1] po IH]; intros m test_nan is_nan flag po' H.
  - cbn [set_grad_loop] in H. apply inr_inj in H. inversion H; subst.
    split; [reflexivity |]. split; [| reflexivity].
    intros i ? ? ? ? Hi. destruct i; discriminate Hi.
  - destruct m as [| [n2 p2] m].
    + cbn [set_grad_loop] in H. apply inr_inj in H. inversion H; subst.
      split; [reflexivity |]. split; [| reflexivity].
      intros i ? ? ? ? _ Hi. destruct i; discriminate Hi.
    + cbn [set_grad_loop] in H.
      destruct (String.eqb n1 n2); cbn [negb] in H; [| discriminate H].
      apply bind_inr in H. destruct H as [[f r] [Hr H]].
      apply inr_inj in H. inversion H; subst flag po'. cbn [fst snd].
      destruct (IH _ _ _ _ _ Hr) as [Hlen [Hvis Hrest]].
      split; [simpl; rewrite Hlen; reflexivity |]. split.
      * intros [| i] name param_opti name' param_model Hpo Hm; simpl in *.
        -- inversion Hpo; subst. inversion Hm; subst. reflexivity.
        -- eapply Hvis; eassumption.
      * intros [| i] Hi; simpl in *; [lia | apply Hrest; lia].
Qed.



Lemma copy_to_model_values (po : named_opti tensor) :
  (forall dst src, copy_ dst src = src) ->
  forall (m m' : named_model tensor),
    length po = length m ->
    copy_to_model m po = inr m' ->
    map (fun np => (fst np, m_data (snd np))) m'
    = map (fun np => (fst np, o_data (snd np))) po.
Proof.
  intros Hcopy. induction po as [| [n1 p1] po IH]; intros m m' Hlen H.
  - destruct m; [| discriminate Hlen]. apply inr_inj in H. subst m'. reflexivity.
  - destruct m as [| [n2 p2] m]; [discriminate Hlen |].
    cbn [copy_optimizer_params_to_model] in H.
    destruct (String.eqb_spec n1 n2) as [Heq | Hne]; cbn [negb] in H;
      [| discriminate H].
    apply bind_inr in H. destruct H as [r [Hr H]].
    apply inr_inj in H. subst m' n2. simpl. rewrite Hcopy.
    f_equal. apply (IH m r); [simpl in Hlen; lia | exact Hr].
Qed.

(** X11. Under a copy that stores the source as it is, and with as many
    parameters on both sides, the model holds after
    [copy_optimizer_params_to_model] exactly the names and values of the
    optimizer's parameters. *)
Theorem copy_to_model_round_trip (po : named_opti tensor) (m : named_model tensor) :
  (forall dst src, copy_ dst src = src) ->
  length po = length m ->
  ~ name_mismatch tensor po m ->
  exists m',
    copy_to_model m po = inr m' /\
    map (fun np => (fst np, m_data (snd np))) m'
    = map (fun np => (fst np, o_data (snd np))) po.
Proof.
  intros Hcopy Hlen Hnames.
  destruct (copy_to_model_cases tensor copy_ po m) as [[Hm _] | [_ [m' Hr]]];
    [contradiction |].
  exists m'. split; [exact Hr |]. apply (copy_to_model_values po Hcopy m m' Hlen Hr).
Qed.

End BridgeEffects.

Lemma names_agree (tensor : Type) (po : named_opti tensor) (m : named_model tensor) :
  map fst po = map fst m -> ~ name_mismatch tensor po m.
Proof.
  intros Hn [i [n1 [p1 [n2 [p2 [H1 [H2 Hne]]]]]]].
  apply (map_nth_error fst) in H1. apply (map_nth_error fst) in H2.
  rewrite Hn in H1. rewrite H1 in H2. inversion H2. contradiction.
Qed.

Definition toy_model : named_model toy_tensor :=
  [("w"%string, mkModelParam [Some 1%Q] [Some 2%Q]);
   ("b"%string, mkModelParam [Some 0%Q] [Some 3%Q])].

Definition toy_shadow : named_opti toy_tensor :=
  [("w"%string, mkOptiParam [Some 5%Q] None);
   ("b"%string, mkOptiParam [Some 6%Q] (Some [Some 0%Q]))].

Example toy_bridge_run :
  set_optimizer_params_grad toy_tensor toy_has_nan toy_copy toy_zeros
                            toy_shadow toy_model true
  = inr (false, [("w"%string, mkOptiParam [Some 5%Q] (Some [Some 2%Q]));
                 ("b"%string, mkOptiParam [Some 6%Q] (Some [Some 3%Q]))]) /\
  copy_optimizer_params_to_model toy_tensor toy_copy toy_model toy_shadow
  = inr [("w"%string, mkModelParam [Some 5%Q] [Some 2%Q]);
         ("b"%string, mkModelParam [Some 6%Q] [Some 3%Q])].
Proof. split; reflexivity. Qed.


Lemma copy_to_model_round_trip_witness :
  exists m',
    copy_optimizer_params_to_model toy_tensor toy_copy toy_model toy_shadow = inr m' /\
    map (fun np => (fst np, m_data (snd np))) m'
    = map (fun np => (fst np, o_data (snd np))) toy_shadow.
Proof.
  apply (copy_to_model_round_trip toy_tensor toy_copy toy_shadow toy_model).
  - intros dst src. reflexivity.
  - reflexivity.
  - apply names_agree. reflexivity.
Defined.

(** * The whole of [train] (run.py, lines 223-292) *)

Section Train.

Variable tensor : Type.
Variable has_nan : tensor -> bool.
Variable copy_ : tensor -> tensor -> tensor.
Variable new_like : tensor -> tensor.
Variable tdiv : tensor -> Q -> tensor.
Variable zeros_like : tensor -> tensor.
Variable opt_state : Type.
Variable optimizer_step :
  opt_state -> named_opti tensor -> opt_state * named_opti tensor.
Variable optimizer_step_model :
  opt_state -> named_model tensor -> opt_state * named_model tensor.
Variable batch : Type.
Variable model_loss : named_model tensor -> batch -> Q.
Variable backward : named_model tensor -> batch -> Q -> named_model tensor.

(** [train]: the loop over the batches of the data loader, [step] counted
    from 0, then the result [{"train_loss": tr_loss / nb_tr_steps,
    "global_step": global_step}]; the state left behind comes first. *)
Definition train (args : train_args) (dataloader : list batch)
           (s : @train_state tensor opt_state)
  : result (@train_state tensor opt_state * (Q * Z)) :=
  st <- train_loop tensor has_nan copy_ new_like tdiv zeros_like opt_state
                   optimizer_step optimizer_step_model batch model_loss backward
                   args 0 dataloader (s, (0%Q, 0)) ;;
  let '(s', (tr_loss, nb_tr_steps)) := st in
  if nb_tr_steps =? 0 then raise ZeroDivisionError
  else ret (s', ((tr_loss / inject_Z nb_tr_steps)%Q, ts_global_step s')).

End Train.

(** ** What the training loop keeps count of *)

Definition event_eqb (e1 e2 : event) : bool :=
  match e1, e2 with
  | EvOptimizerStep, EvOptimizerStep => true
  | EvCopyToModel, EvCopyToModel => true
  | EvZeroGrad, EvZeroGrad => true
  | EvLogNan, EvLogNan => true
  | _, _ => false
  end.

(** The number of calls of one kind in a list of calls. *)
Definition calls (e : event) (evs : list event) : nat :=
  length (filter (event_eqb e) evs).

Lemma calls_app (e : event) (evs1 evs2 : list event) :
  calls e (evs1 ++ evs2) = (calls e evs1 + calls e evs2)%nat.
Proof. unfold calls. rewrite filter_app, length_app. reflexivity. Qed.

Section TrainAccounting.

Variable tensor : Type.
Variable has_nan : tensor -> bool.
Variable copy_ : tensor -> tensor -> tensor.
Variable new_like : tensor -> tensor.
Variable tdiv : tensor -> Q -> tensor.
Variable zeros_like : tensor -> tensor.
Variable opt_state : Type.
Variable optimizer_step :
  opt_state -> named_opti tensor -> opt_state * named_opti tensor.
Variable optimizer_step_model :
  opt_state -> named_model tensor -> opt_state * named_model tensor.
Variable batch : Type.
Variable model_loss : named_model tensor -> batch -> Q.
Variable backward : named_model tensor -> batch -> Q -> named_model tensor.

Local Abbreviation state := (@train_state tensor opt_state).
Local Abbreviation set_grad := (set_optimizer_params_grad tensor has_nan copy_ new_like).
Local Abbreviation copy_to_model := (copy_optimizer_params_to_model tensor copy_).
Local Abbreviation boundary :=
  (optimizer_boundary tensor has_nan copy_ new_like tdiv zeros_like opt_state
                      optimizer_step optimizer_step_model).
Local Abbreviation run_batch :=
  (train_batch tensor has_nan copy_ new_like tdiv zeros_like opt_state
               optimizer_step optimizer_step_model batch model_loss backward).
Local Abbreviation run_loop :=
  (train_loop tensor has_nan copy_ new_like tdiv zeros_like opt_state
              optimizer_step optimizer_step_model batch model_loss backward).
Local Abbreviation run_train :=
  (train tensor has_nan copy_ new_like tdiv zeros_like opt_state
         optimizer_step optimizer_step_model batch model_loss backward).

(** The calls [evs] made between two states account for the change of
    [global_step] and of the loss scale. *)
Definition accounted (s s' : state) (evs : list event) : Prop :=
  ts_events s' = ts_events s ++ evs /\
  ts_global_step s' = ts_global_step s + Z.of_nat (calls EvOptimizerStep evs) /\
  (ts_loss_scale s' * inject_Z (2 ^ Z.of_nat (calls EvLogNan evs)) == ts_loss_scale s)%Q /\
  calls EvZeroGrad evs = (calls EvOptimizerStep evs + calls EvLogNan evs)%nat /\
  (calls EvOptimizerStep evs + calls EvLogNan evs <= length evs)%nat.

Lemma accounted_refl (s s' : state) :
  ts_events s' = ts_events s -> ts_global_step s' = ts_global_step s ->
  ts_loss_scale s' = ts_loss_scale s ->
  accounted s s' [].
Proof.
  intros He Hg Hl. unfold accounted, calls. simpl. rewrite He, Hg, Hl, app_nil_r.
  repeat split; try lia. ring.
Qed.

Lemma accounted_trans (s1 s2 s3 : state) (evs1 evs2 : list event) :
  accounted s1 s2 evs1 -> accounted s2 s3 evs2 -> accounted s1 s3 (evs1 ++ evs2).
Proof.
  intros [He1 [Hg1 [Hl1 [Hz1 Hb1]]]] [He2 [Hg2 [Hl2 [Hz2 Hb2]]]].
  unfold accounted. rewrite !calls_app, length_app.
  split; [rewrite He2, He1, app_assoc; reflexivity |].
  split; [lia |]. split; [| split; lia].
  rewrite Nat2Z.inj_add, Z.pow_add_r by lia. rewrite inject_Z_mult.
  rewrite <- Hl1, <- Hl2. ring.
Qed.

Lemma boundary_accounted (args : train_args) (step : Z) (s s' : state) :
  boundary args step s = inr s' ->
  exists evs, accounted s s' evs /\ (length evs <= 3)%nat.
Proof.
  unfold optimizer_boundary. intros H.
  destruct (gradient_accumulation_steps args =? 0); [discriminate H |].
  destruct ((step + 1) mod gradient_accumulation_steps args =? 0).
  - destruct (fp16 args || optimize_on_cpu args).
    + apply bind_inr in H. destruct H as [[is_nan po1] [Hset H]].
      destruct is_nan.
      * apply inr_inj in H. subst s'. exists [EvLogNan; EvZeroGrad].
        split; [| simpl; lia].
        split; [reflexivity |]. split; [unfold calls; simpl; lia |].
        split; [| split; unfold calls; simpl; lia].
        change (ts_loss_scale s / 2 * 2 == ts_loss_scale s)%Q. field.
      * destruct (optimizer_step (ts_optimizer s) po1) as [opt2 po2].
        apply bind_inr in H. destruct H as [model2 [_ H]].
        apply inr_inj in H. subst s'. exists [EvOptimizerStep; EvCopyToModel; EvZeroGrad].
        split; [| simpl; lia].
        split; [reflexivity |]. split; [unfold calls; simpl; lia |].
        split; [| split; unfold calls; simpl; lia].
        change (ts_loss_scale s * 1 == ts_loss_scale s)%Q. ring.
    + destruct (optimizer_step_model (ts_optimizer s) (ts_model s)) as [opt2 model2].
      apply inr_inj in H. subst s'. exists [EvOptimizerStep; EvZeroGrad].
      split; [| simpl; lia].
      split; [reflexivity |]. split; [unfold calls; simpl; lia |].
      split; [| split; unfold calls; simpl; lia].
      change (ts_loss_scale s * 1 == ts_loss_scale s)%Q. ring.
  - apply inr_inj in H. subst s'. exists []. split; [| simpl; lia].
    apply accounted_refl; reflexivity.
Qed.

Lemma run_batch_accounted (args : train_args) (step : Z) (b : batch)
      (s s' : state) (acc acc' : Q * Z) :
  run_batch args step b (s, acc) = inr (s', acc') ->
  snd acc' = snd acc + 1 /\ exists evs, accounted s s' evs.
Proof.
  destruct acc as [tr_loss nb]. unfold train_batch. intros H.
  apply bind_inr in H. destruct H as [s2 [Hb H]].
  apply inr_inj in H. inversion H; subst s' acc'. split; [reflexivity |].
  apply boundary_accounted in Hb. destruct Hb as [evs [[He [Hg [Hl Hrest]]] _]].
  exists evs. unfold accounted. simpl in He, Hg, Hl.
  split; [exact He |]. split; [exact Hg |]. split; [exact Hl | exact Hrest].
Qed.

(** X12. Whenever the loop of [train] returns, every batch was counted in
    [nb_tr_steps], [global_step] grew by the number of calls of
    [optimizer.step()], the loss scale was halved once for every NaN
    report, and the gradients were zeroed once for every optimizer step
    and once for every NaN report. *)
Theorem train_loop_accounting (args : train_args) (dataloader : list batch) :
  forall (step : Z) (s s' : state) (acc acc' : Q * Z),
    run_loop args step dataloader (s, acc) = inr (s', acc') ->
    snd acc' = snd acc + Z.of_nat (length dataloader) /\
    exists evs,
      ts_events s' = ts_events s ++ evs /\
      ts_global_step s' = ts_global_step s + Z.of_nat (calls EvOptimizerStep evs) /\
      (ts_loss_scale s' * inject_Z (2 ^ Z.of_nat (calls EvLogNan evs))
       == ts_loss_scale s)%Q /\
      calls EvZeroGrad evs = (calls EvOptimizerStep evs + calls EvLogNan evs)%nat.
Proof.
  assert (Hgen : forall (step : Z) (s s' : state) (acc acc' : Q * Z),
             run_loop args step dataloader (s, acc) = inr (s', acc') ->
             snd acc' = snd acc + Z.of_nat (length dataloader) /\
             exists evs, accounted s s' evs).
  { induction dataloader as [| b rest IH]; intros step s s' acc acc' H.
    - cbn [train_loop] in H. apply inr_inj in H. inversion H; subst.
      split; [simpl; lia |]. exists []. apply accounted_refl; reflexivity.
    - cbn [train_loop] in H. apply bind_inr in H. destruct H as [[s1 acc1] [Hb H]].
      apply run_batch_accounted in Hb. destruct Hb as [Hn [evs1 Hacc1]].
      apply IH in H. destruct H as [Hn' [evs2 Hacc2]].
      split; [rewrite Hn', Hn; simpl length; lia |].
      exists (evs1 ++ evs2). eapply accounted_trans; eassumption. }
  intros step s s' acc acc' H. apply Hgen in H. destruct H as [Hn [evs Hacc]].
  split; [exact Hn |]. exists evs.
  destruct Hacc as [He [Hg [Hl [Hz _]]]]. repeat split; assumption.
Qed.

End TrainAccounting.

Definition toy_run (dataloader : list unit) :=
  train_loop toy_tensor toy_has_nan toy_copy toy_zeros toy_div toy_zeros
             nat toy_step toy_step unit (fun _ _ => 1%Q) (fun m _ _ => m)
             toy_args 0 dataloader (toy_state, (0%Q, 0)).

(** Two batches from [toy_state]: the NaN of the first is reported and the
    step skipped, the second batch ends in an optimizer step. *)
Example toy_run_two_batches :
  match toy_run [tt; tt] with
  | inr (s', (_, nb_tr_steps)) =>
      ts_events s' = [EvLogNan; EvZeroGrad; EvOptimizerStep; EvCopyToModel; EvZeroGrad] /\
      ts_global_step s' = 1 /\ (ts_loss_scale s' == 64)%Q /\ nb_tr_steps = 2
  | inl _ => False
  end.
Proof. vm_compute. repeat split. Qed.

Lemma train_loop_accounting_witness :
  exists s' acc', toy_run [tt; tt] = inr (s', acc') /\ snd acc' = 0 + 2.
Proof.
  destruct (toy_run [tt; tt]) as [e | [s' acc']] eqn:E.
  - vm_compute in E. discriminate E.
  - exists s', acc'. split; [reflexivity |].
    destruct (train_loop_accounting
                toy_tensor toy_has_nan toy_copy toy_zeros toy_div toy_zeros
                nat toy_step toy_step unit (fun _ _ => 1%Q) (fun m _ _ => m)
                toy_args [tt; tt] 0 toy_state s' (0%Q, 0) acc' E) as [Hn _].
    exact Hn.
Defined.

Section TrainTotal.

Variable tensor : Type.
Variable has_nan : tensor -> bool.
Variable copy_ : tensor -> tensor -> tensor.
Variable new_like : tensor -> tensor.
Variable tdiv : tensor -> Q -> tensor.
Variable zeros_like : tensor -> tensor.
Variable opt_state : Type.
Variable optimizer_step :
  opt_state -> named_opti tensor -> opt_state * named_opti tensor.
Variable optimizer_step_model :
  opt_state -> named_model tensor -> opt_state * named_model tensor.
Variable batch : Type.
Variable model_loss : named_model tensor -> batch -> Q.
Variable backward : named_model tensor -> batch -> Q -> named_model tensor.

Local Abbreviation state := (@train_state tensor opt_state).
Local Abbreviation boundary :=
  (optimizer_boundary tensor has_nan copy_ new_like tdiv zeros_like opt_state
                      optimizer_step optimizer_step_model).
Local Abbreviation run_batch :=
  (train_batch tensor has_nan copy_ new_like tdiv zeros_like opt_state
               optimizer_step optimizer_step_model batch model_loss backward).
Local Abbreviation run_loop :=
  (train_loop tensor has_nan copy_ new_like tdiv zeros_like opt_state
              optimizer_step optimizer_step_model batch model_loss backward).
Local Abbreviation run_train :=
  (train tensor has_nan copy_ new_like tdiv zeros_like opt_state
         optimizer_step optimizer_step_model batch model_loss backward).

Lemma train_loop_counts_batches (args : train_args) (dataloader : list batch) :
  forall step st st',
    run_loop args step dataloader st = inr st' ->
    snd (snd st') = snd (snd st) + Z.of_nat (length dataloader).
Proof.
  induction dataloader as [| b rest IH]; intros step st st' H.
  - cbn [train_loop] in H. apply inr_inj in H. subst st'. simpl. lia.
  - cbn [train_loop] in H. apply bind_inr in H. destruct H as [st1 [Hb H]].
    apply IH in H. rewrite H.
    destruct st as [s0 [l0 n0]]. unfold train_batch in Hb.
    apply bind_inr in Hb. destruct Hb as [s2 [_ Hb]].
    apply inr_inj in Hb. subst st1. simpl length. cbn [snd]. lia.
Qed.

(** The losses that the loop adds up: the loss of the model on every
    batch, on the model as the batches before it left it, times the
    factor of lines 259-264. *)
Fixpoint batch_losses (args : train_args) (step : Z) (dataloader : list batch)
         (s : state) : list Q :=
  match dataloader with
  | [] => []
  | b :: rest =>
      (model_loss (ts_model s) b * loss_factor args (ts_loss_scale s))%Q ::
      match boundary args step
                     (mkTrainState
                        (backward (ts_model s) b (loss_factor args (ts_loss_scale s)))
                        (ts_param_optimizer s) (ts_optimizer s) (ts_loss_scale s)
                        (ts_global_step s) (ts_events s)) with
      | inr s2 => batch_losses args (step + 1) rest s2
      | inl _ => []
      end
  end.

Definition Qsum (l : list Q) : Q := fold_right Qplus 0%Q l.

Lemma train_loop_sums_losses (args : train_args) (dataloader : list batch) :
  forall step s s' tr_loss nb tr_loss' nb',
    run_loop args step dataloader (s, (tr_loss, nb)) = inr (s', (tr_loss', nb')) ->
    (tr_loss' == tr_loss + Qsum (batch_losses args step dataloader s))%Q.
Proof.
  induction dataloader as [| b rest IH]; intros step s s' l n l' n' H.
  - cbn [train_loop] in H. apply inr_inj in H. inversion H; subst.
    unfold Qsum. simpl. ring.
  - cbn [train_loop] in H. apply bind_inr in H. destruct H as [[s1 [l1 n1]] [Hb H]].
    unfold train_batch in Hb. apply bind_inr in Hb. destruct Hb as [s2 [Hbound Hb]].
    apply inr_inj in Hb. inversion Hb; subst s1 l1 n1.
    apply IH in H. cbn [batch_losses]. rewrite Hbound.
    unfold Qsum in *. cbn [fold_right]. rewrite H. ring.
Qed.

(** X14. On an empty data loader [train] raises [ZeroDivisionError], from
    the division by the number of batches; on a non-empty one it returns
    whenever its loop does: [train_loss] is then the sum of the losses of
    the batches divided by the number of batches, and [global_step] the
    final one. *)
Theorem train_result (args : train_args) (dataloader : list batch) (s : state) :
  (dataloader = [] -> run_train args dataloader s = inl ZeroDivisionError) /\
  (forall s' tr_loss nb_tr_steps,
      dataloader <> [] ->
      run_loop args 0 dataloader (s, (0%Q, 0)) = inr (s', (tr_loss, nb_tr_steps)) ->
      nb_tr_steps = Z.of_nat (length dataloader) /\
      (tr_loss == Qsum (batch_losses args 0 dataloader s))%Q /\
      run_train args dataloader s =
      inr (s', ((tr_loss / inject_Z (Z.of_nat (length dataloader)))%Q,
                ts_global_step s'))).
Proof.
  split.
  - intros ->. reflexivity.
  - intros s' tr_loss nb Hne Hloop.
    pose proof (train_loop_counts_batches args dataloader _ _ _ Hloop) as Hn.
    cbn [snd] in Hn. rewrite Z.add_0_l in Hn. split; [exact Hn |]. split.
    + rewrite (train_loop_sums_losses args dataloader _ _ _ _ _ _ _ Hloop). ring.
    + unfold train. rewrite Hloop, bind_inr_l. cbv beta iota.
      assert (Hpos : (nb =? 0) = false).
      { apply Z.eqb_neq. destruct dataloader; [contradiction | simpl in Hn; lia]. }
      rewrite Hpos, Hn. reflexivity.
Qed.

End TrainTotal.

(** Two batches of loss 3 and 5 under a loss scale of 128, which the NaN
    of the first batch halves: the losses added up are 3 * 128 and
    5 * 64. *)
Definition toy_loss (m : named_model toy_tensor) (b : Q) : Q := b.

Definition toy_train (dataloader : list Q) :=
  train toy_tensor toy_has_nan toy_copy toy_zeros toy_div toy_zeros
        nat toy_step toy_step Q toy_loss (fun m _ _ => m)
        toy_args dataloader toy_state.

Example toy_train_two_batches :
  match toy_train [3; 5]%Q with
  | inr (_, (train_loss, global_step)) =>
      (train_loss == (3 * 128 + 5 * 64) / 2)%Q /\ global_step = 1
  | inl _ => False
  end.
Proof. vm_compute. split; reflexivity. Qed.

Lemma train_result_witness :
  toy_train [] = inl ZeroDivisionError /\
  exists s' tr_loss,
    (tr_loss == 3 * 128 + 5 * 64)%Q /\
    toy_train [3; 5]%Q = inr (s', ((tr_loss / 2)%Q, ts_global_step s')).
Proof.
  split.
  - apply (train_result toy_tensor toy_has_nan toy_copy toy_zeros toy_div toy_zeros
                        nat toy_step toy_step Q toy_loss (fun m _ _ => m)
                        toy_args [] toy_state). reflexivity.
  - destruct (train_loop toy_tensor toy_has_nan toy_copy toy_zeros toy_div toy_zeros
                         nat toy_step toy_step Q toy_loss (fun m _ _ => m)
                         toy_args 0 [3; 5]%Q (toy_state, (0%Q, 0)))
      as [e | [s' [tr_loss nb]]] eqn:E.
    + vm_compute in E. discriminate E.
    + destruct (train_result toy_tensor toy_has_nan toy_copy toy_zeros toy_div toy_zeros
                             nat toy_step toy_step Q toy_loss (fun m _ _ => m)
                             toy_args [3; 5]%Q toy_state) as [_ Hrun].
      destruct (Hrun s' tr_loss nb ltac:(discriminate) E) as [_ [Hsum Hres]].
      exists s', tr_loss. split; [| exact Hres].
      rewrite Hsum. vm_compute. reflexivity.
Defined.

(** * Further properties of the collator *)

Lemma stack_inr {A : Type} (rows x : list (list A)) :
  stack rows = inr x ->
  x = rows /\ rows <> [] /\ Forall (fun r => length r = width rows) rows.
Proof.
  unfold stack. destruct rows as [| r rest]; [discriminate |].
  destruct (forallb (fun r' => (length r' =? length r)%nat) rest) eqn:E;
    [| discriminate].
  intros H. apply inr_inj in H. split; [symmetry; exact H |].
  split; [discriminate |]. simpl. constructor; [reflexivity |].
  apply Forall_forall. intros r' Hr'.
  rewrite forallb_forall in E. apply Nat.eqb_eq. apply E. exact Hr'.
Qed.

Lemma index_columns_inr {A : Type} (m x : list (list A)) (mask : list bool) :
  index_columns m mask = inr x -> length mask = width m.
Proof.
  unfold index_columns. destruct (length mask =? width m)%nat eqn:E; [| discriminate].
  intros _. apply Nat.eqb_eq. exact E.
Qed.

Lemma Forall_width {A : Type} (f : sample -> list A) (samples : list sample) (w : nat) :
  Forall (fun r => length r = w) (map f samples) ->
  forall sm, In sm samples -> length (f sm) = w.
Proof.
  intros H sm Hin. rewrite Forall_forall in H. apply H. apply in_map. exact Hin.
Qed.

Lemma collate_run (pad : Z) (w : nat) (samples : list sample) :
  well_shaped w samples ->
  datset_collate_fn pad samples =
  inr (mkCollated
         (take_columns (kept_columns pad (batch_ids samples)) (batch_ids samples))
         (map s_input_len samples)
         (take_columns (kept_columns pad (batch_ids samples)) (map s_input_mask samples))
         (take_columns (kept_columns pad (batch_ids samples)) (map s_segment_ids samples))
         (take_columns (kept_columns pad (batch_ids samples)) (map s_e1_mask samples))
         (take_columns (kept_columns pad (batch_ids samples)) (map s_e2_mask samples))
         (map s_label_ids samples)) /\
  width (batch_ids samples) = w.
Proof.
  intros [Hne Hall].
  destruct samples as [| sm0 rest]; [contradiction |].
  set (samples := sm0 :: rest) in *.
  assert (Hids : Forall (fun sm => length (s_input_ids sm) = w) samples)
    by (eapply Forall_impl; [| exact Hall]; intros sm H; apply H).
  assert (Hmask : Forall (fun sm => length (s_input_mask sm) = w) samples)
    by (eapply Forall_impl; [| exact Hall]; intros sm H; apply H).
  assert (Hseg : Forall (fun sm => length (s_segment_ids sm) = w) samples)
    by (eapply Forall_impl; [| exact Hall]; intros sm H; apply H).
  assert (He1 : Forall (fun sm => length (s_e1_mask sm) = w) samples)
    by (eapply Forall_impl; [| exact Hall]; intros sm H; apply H).
  assert (He2 : Forall (fun sm => length (s_e2_mask sm) = w) samples)
    by (eapply Forall_impl; [| exact Hall]; intros sm H; apply H).
  assert (Hlab : Forall (fun sm => length (s_label_ids sm) = length (s_label_ids sm0))
                        samples)
    by (eapply Forall_impl; [| exact Hall]; intros sm H; apply H).
  destruct (stack_ok s_input_ids samples w Hne Hids) as [S1 W1].
  destruct (stack_ok s_input_mask samples w Hne Hmask) as [S2 W2].
  destruct (stack_ok s_segment_ids samples w Hne Hseg) as [S3 W3].
  destruct (stack_ok s_e1_mask samples w Hne He1) as [S4 W4].
  destruct (stack_ok s_e2_mask samples w Hne He2) as [S5 W5].
  destruct (stack_ok s_label_ids samples _ Hne Hlab) as [S6 _].
  assert (S0 : stack0 (map s_input_len samples) = inr (map s_input_len samples))
    by reflexivity.
  assert (Hkeep : length (ne_any pad (batch_ids samples)) = w)
    by (rewrite ne_any_length; exact W1).
  assert (Hsel : forall (f : sample -> list Z),
             Forall (fun sm => length (f sm) = w) samples ->
             index_columns (map f samples) (ne_any pad (batch_ids samples))
             = inr (take_columns (kept_columns pad (batch_ids samples)) (map f samples))).
  { intros f Hf. destruct (stack_ok f samples w Hne Hf) as [_ Wf].
    rewrite index_columns_ok by (rewrite Hkeep, Wf; reflexivity).
    rewrite (select_take pad (batch_ids samples) (map f samples)); [reflexivity |].
    unfold batch_ids. rewrite W1. apply Forall_forall. intros row Hrow.
    apply in_map_iff in Hrow. destruct Hrow as [sm [Heq Hin]]. subst row.
    rewrite Forall_forall in Hf. apply Hf. exact Hin. }
  split; [| exact W1].
  unfold datset_collate_fn.
  rewrite S1, bind_inr_l, S0, bind_inr_l, S2, bind_inr_l, S3, bind_inr_l,
    S4, bind_inr_l, S5, bind_inr_l, S6, bind_inr_l.
  fold (batch_ids samples).
  rewrite (Hsel s_input_mask Hmask), (Hsel s_segment_ids Hseg),
    (Hsel s_e1_mask He1), (Hsel s_e2_mask He2).
  unfold batch_ids at 1. rewrite (Hsel s_input_ids Hids). rewrite !bind_inr_l.
  reflexivity.
Qed.

(** X15. [datset_collate_fn] returns exactly on a non-empty batch whose
    five per-token tensors have one common width and whose label vectors
    have one common length; an empty batch raises [RuntimeError]. *)
Theorem collate_returns_iff (pad : Z) (samples : list sample) :
  ((exists b, datset_collate_fn pad samples = inr b) <->
   (exists w, well_shaped w samples)) /\
  (samples = [] -> datset_collate_fn pad samples = inl RuntimeError).
Proof.
  split; [| intros ->; reflexivity].
  split.
  - intros [b H]. unfold datset_collate_fn in H.
    apply bind_inr in H. destruct H as [ids [S1 H]].
    apply bind_inr in H. destruct H as [lens [_ H]].
    apply bind_inr in H. destruct H as [mask [S2 H]].
    apply bind_inr in H. destruct H as [seg [S3 H]].
    apply bind_inr in H. destruct H as [e1 [S4 H]].
    apply bind_inr in H. destruct H as [e2 [S5 H]].
    apply bind_inr in H. destruct H as [lab [S6 H]].
    apply bind_inr in H. destruct H as [ids' [_ H]].
    apply bind_inr in H. destruct H as [mask' [I2 H]].
    apply bind_inr in H. destruct H as [seg' [I3 H]].
    apply bind_inr in H. destruct H as [e1' [I4 H]].
    apply bind_inr in H. destruct H as [e2' [I5 _]].
    apply stack_inr in S1. destruct S1 as [-> [Hne1 F1]].
    apply stack_inr in S2. destruct S2 as [-> [_ F2]].
    apply stack_inr in S3. destruct S3 as [-> [_ F3]].
    apply stack_inr in S4. destruct S4 as [-> [_ F4]].
    apply stack_inr in S5. destruct S5 as [-> [_ F5]].
    apply stack_inr in S6. destruct S6 as [-> [_ F6]].
    apply index_columns_inr in I2. apply index_columns_inr in I3.
    apply index_columns_inr in I4. apply index_columns_inr in I5.
    rewrite ne_any_length in I2, I3, I4, I5.
    exists (width (map s_input_ids samples)).
    assert (Hne : samples <> []) by (intros ->; apply Hne1; reflexivity).
    split; [exact Hne |].
    apply Forall_forall. intros sm Hin.
    rewrite <- I2 in F2. rewrite <- I3 in F3. rewrite <- I4 in F4. rewrite <- I5 in F5.
    repeat split;
      try (eapply Forall_width; [eassumption | exact Hin]).
    destruct samples as [| sm0 rest]; [contradiction |].
    simpl hd. apply (Forall_width s_label_ids (sm0 :: rest) _ F6 sm Hin).
  - intros [w Hws]. destruct (collate_run pad w samples Hws) as [Hrun _].
    eexists. exact Hrun.
Qed.

Lemma filter_all {A : Type} (f : A -> bool) (l : list A) :
  (forall x, In x l -> f x = true) -> filter f l = l.
Proof.
  intros H. apply forallb_filter_id. apply forallb_forall. exact H.
Qed.

(** X16. What the collator returns has as many rows as the batch has
    samples, all of one width, and no column left that holds only the pad
    token: collating the result again would keep every column. *)
Theorem collate_leaves_no_pad_column (pad : Z) (w : nat) (samples : list sample) :
  well_shaped w samples ->
  exists b,
    datset_collate_fn pad samples = inr b /\
    length (b_input_ids b) = length samples /\
    Forall (fun row => length row = width (b_input_ids b)) (b_input_ids b) /\
    (width (b_input_ids b) <= w)%nat /\
    kept_columns pad (b_input_ids b) = seq 0 (width (b_input_ids b)).
Proof.
  intros Hws. destruct (collate_run pad w samples Hws) as [Hrun W1].
  eexists. split; [exact Hrun |]. cbn [b_input_ids].
  destruct Hws as [Hne Hall].
  set (ids := batch_ids samples) in *. set (cols := kept_columns pad ids).
  assert (Hidsne : ids <> []).
  { unfold ids, batch_ids. destruct samples; [contradiction | discriminate]. }
  assert (Hwid : width (take_columns cols ids) = length cols).
  { unfold take_columns. destruct ids; [contradiction |]. simpl. apply length_map. }
  assert (Hrowlen : forall row, In row ids -> length row = w).
  { intros row Hrow. unfold ids, batch_ids in Hrow. apply in_map_iff in Hrow.
    destruct Hrow as [sm [Heq Hin]]. subst row.
    rewrite Forall_forall in Hall. apply (Hall sm Hin). }
  split; [unfold take_columns, ids, batch_ids; rewrite !length_map; reflexivity |].
  split.
  { rewrite Hwid. unfold take_columns. apply Forall_forall. intros row Hrow.
    apply in_map_iff in Hrow. destruct Hrow as [r [Heq _]]. subst row.
    apply length_map. }
  split.
  { rewrite Hwid. unfold cols, kept_columns. rewrite W1.
    etransitivity; [apply filter_length_le |]. rewrite length_seq. lia. }
  unfold kept_columns at 1. rewrite Hwid. apply filter_all.
  intros j Hj. apply in_seq in Hj.
  assert (Hc : In (nth j cols 0%nat) cols) by (apply nth_In; lia).
  unfold cols in Hc at 2. apply kept_columns_In in Hc.
  destruct Hc as [Hcw [row [Hrow Hpad]]].
  apply existsb_exists.
  exists (map (fun i => nth i row 0) cols). split.
  - unfold take_columns. apply in_map_iff. exists row.
    split; [reflexivity | exact Hrow].
  - apply negb_true_iff. apply Z.eqb_neq.
    rewrite (nth_indep _ pad (nth 0%nat row 0)) by (rewrite length_map; lia).
    rewrite (map_nth (fun i => nth i row 0) cols 0%nat j).
    rewrite (nth_indep row 0 pad) by (rewrite (Hrowlen row Hrow), <- W1; exact Hcw).
    exact Hpad.
Qed.

Lemma collate_leaves_no_pad_column_witness :
  exists b,
    datset_collate_fn 0 samples_right_padded = inr b /\
    length (b_input_ids b) = length samples_right_padded.
Proof.
  destruct (collate_leaves_no_pad_column 0 4 samples_right_padded
                                         samples_right_padded_shape)
    as [b [Hrun [Hlen _]]].
  exists b. split; [exact Hrun | exact Hlen].
Defined.

(** * Further properties of the loaders *)

Lemma mapM_error {A B : Type} (f : A -> result B) (e : exn) (l : list A) :
  (forall a, In a l -> (exists b, f a = inr b) \/ f a = inl e) ->
  (exists a, In a l /\ f a = inl e) ->
  mapM f l = inl e.
Proof.
  induction l as [| a l IH]; intros Hall [x [Hx Hfx]].
  - destruct Hx.
  - cbn [mapM]. destruct (Hall a (or_introl eq_refl)) as [[b Hb] | He].
    + rewrite Hb, bind_inr_l. rewrite IH; [reflexivity | |].
      * intros a' Ha'. apply Hall. right. exact Ha'.
      * destruct Hx as [-> | Hx]; [rewrite Hb in Hfx; discriminate Hfx |].
        exists x. split; assumption.
    + rewrite He. reflexivity.
Qed.

Lemma getitem_short {A : Type} (l : list A) (i : nat) :
  (length l <= i)%nat -> getitem l i = inl IndexError.
Proof.
  intros H. unfold getitem. apply nth_error_None in H. rewrite H. reflexivity.
Qed.

Section LoaderErrors.

Variable fs : string -> option dataset.
Variable Tensor : Type.
Variable tensor_long : list item -> result Tensor.
Variable tensor_float : list item -> result Tensor.
Variable tensor_dataset : Type.
Variable TensorDataset : list Tensor -> result tensor_dataset.
Variable data_loader : Type.
Variable DataLoader : tensor_dataset -> Z -> bool -> result data_loader.

Local Abbreviation build :=
  (build_dataloader fs Tensor tensor_long tensor_float tensor_dataset TensorDataset
                    data_loader DataLoader).

Lemma concat_fields_short (data_set ith_data_set : dataset) :
  length data_set = 7%nat -> (length ith_data_set < 7)%nat ->
  concat_fields data_set ith_data_set = inl IndexError.
Proof.
  intros Hds Hith. unfold concat_fields. rewrite Hds. apply mapM_error.
  - intros i Hi. apply in_seq in Hi.
    rewrite (getitem_nth data_set i []) by lia. rewrite bind_inr_l.
    destruct (Nat.lt_ge_cases i (length ith_data_set)) as [Hlt | Hge].
    + left. rewrite (getitem_nth ith_data_set i []) by exact Hlt. eexists. reflexivity.
    + right. rewrite getitem_short by exact Hge. reflexivity.
  - exists (length ith_data_set). split; [apply in_seq; lia |].
    rewrite (getitem_nth data_set _ []) by lia. rewrite bind_inr_l.
    rewrite getitem_short by lia. reflexivity.
Qed.

Lemma load_shards_short (save_data datatype : string) (idxs : list nat) :
  forall data_set,
    length data_set = 7%nat ->
    (exists shard, In shard (present_shards fs save_data datatype idxs) /\
                   (length shard < 7)%nat) ->
    load_shards fs save_data datatype idxs data_set = inl IndexError.
Proof.
  induction idxs as [| idx idxs IH]; intros data_set Hlen [shard [Hin Hshort]].
  - destruct Hin.
  - unfold present_shards in Hin. cbn [load_shards flat_map] in Hin |- *.
    fold (present_shards fs save_data datatype idxs) in Hin.
    destruct (fs (shard_path save_data datatype idx)) as [ith |].
    + destruct (Nat.lt_ge_cases (length ith) 7) as [Hlt | Hge].
      * destruct (Nat.lt_ge_cases 0 (length ith)) as [H0 | H0];
          [| rewrite getitem_short by lia; reflexivity].
        rewrite (getitem_nth ith 0 []) by lia. rewrite bind_inr_l.
        destruct (Nat.lt_ge_cases 1 (length ith)) as [H1 | H1];
          [| rewrite getitem_short by lia; reflexivity].
        rewrite (getitem_nth ith 1 []) by lia. rewrite bind_inr_l.
        rewrite (concat_fields_short data_set ith Hlen Hlt). reflexivity.
      * rewrite (getitem_nth ith 0 []) by lia. rewrite bind_inr_l.
        rewrite (getitem_nth ith 1 []) by lia. rewrite bind_inr_l.
        rewrite (concat_fields_ok data_set ith Hlen Hge), bind_inr_l.
        apply IH; [rewrite length_map, length_seq; reflexivity |].
        cbn [app] in Hin. destruct Hin as [-> | Hin]; [lia |].
        exists shard. split; assumption.
    + cbn [app] in Hin. apply IH; [exact Hlen |]. exists shard. split; assumption.
Qed.

(** X17. For a valid split name, a shard file that holds fewer than 7
    fields makes [build_dataloader] raise [IndexError]. *)
Theorem build_dataloader_short_shard (args : loader_args) (datatype : string) :
  valid_datatype datatype = true ->
  (exists shard,
      In shard (present_shards fs (save_data args) datatype (seq 0 max_split)) /\
      (length shard < 7)%nat) ->
  build args datatype = inl IndexError.
Proof.
  intros Hvalid Hshort. unfold build_dataloader. rewrite Hvalid.
  change (assert true) with (@ret unit tt). rewrite bind_ret.
  rewrite (load_shards_short (save_data args) datatype (seq 0 max_split)
                             (repeat [] 7) eq_refl Hshort).
  reflexivity.
Qed.

End LoaderErrors.

Lemma load_shards_ext (fs1 fs2 : string -> option dataset)
      (save_data datatype : string) (idxs : list nat) :
  (forall idx, In idx idxs ->
               fs1 (shard_path save_data datatype idx)
               = fs2 (shard_path save_data datatype idx)) ->
  forall data_set,
    load_shards fs1 save_data datatype idxs data_set
    = load_shards fs2 save_data datatype idxs data_set.
Proof.
  induction idxs as [| idx idxs IH]; intros Hagree data_set.
  - reflexivity.
  - cbn [load_shards]. rewrite <- (Hagree idx (or_introl eq_refl)).
    assert (IH' : forall ds, load_shards fs1 save_data datatype idxs ds
                             = load_shards fs2 save_data datatype idxs ds)
      by (apply IH; intros i Hi; apply Hagree; right; exact Hi).
    destruct (fs1 (shard_path save_data datatype idx)) as [ith |]; [| apply IH'].
    destruct (getitem ith 0) as [e | x0]; [reflexivity |]. rewrite !bind_inr_l.
    destruct (getitem ith 1) as [e | x1]; [reflexivity |]. rewrite !bind_inr_l.
    destruct (concat_fields data_set ith) as [e | ds']; [reflexivity |].
    rewrite !bind_inr_l. apply IH'.
Qed.

Section LoaderPaths.

Variable Tensor : Type.
Variable tensor_long : list item -> result Tensor.
Variable tensor_float : list item -> result Tensor.
Variable tensor_dataset : Type.
Variable TensorDataset : list Tensor -> result tensor_dataset.
Variable data_loader : Type.
Variable DataLoader : tensor_dataset -> Z -> bool -> result data_loader.

Local Abbreviation build_on fs :=
  (build_dataloader fs Tensor tensor_long tensor_float tensor_dataset TensorDataset
                    data_loader DataLoader).

(** X19. [build_dataloader] looks at the ten files [{split}-0.pkl] to
    [{split}-9.pkl] of [args.save_data] and at nothing else: on two file
    systems that agree on these ten paths it does the same. *)
Theorem build_dataloader_reads_ten_paths
        (fs1 fs2 : string -> option dataset) (args : loader_args) (datatype : string) :
  (forall idx, (idx < 10)%nat ->
               fs1 (shard_path (save_data args) datatype idx)
               = fs2 (shard_path (save_data args) datatype idx)) ->
  build_on fs1 args datatype = build_on fs2 args datatype.
Proof.
  intros Hagree. unfold build_dataloader.
  rewrite (load_shards_ext fs1 fs2 (save_data args) datatype (seq 0 max_split));
    [reflexivity |].
  intros idx Hidx. apply in_seq in Hidx. apply Hagree. unfold max_split in Hidx. lia.
Qed.

End LoaderPaths.

Definition fs_short_shard (path : string) : option dataset :=
  if String.eqb path "data/dev-0.pkl" then Some [[IVec [101; 102]]; [IInt 2]] else None.

Lemma build_dataloader_short_shard_witness :
  build_dataloader_fields fs_short_shard toy_loader_args "dev" = inl IndexError.
Proof.
  apply (build_dataloader_short_shard
           fs_short_shard (list item) field_tensor field_tensor dataset field_dataset
           dataloader field_loader toy_loader_args "dev").
  - reflexivity.
  - exists [[IVec [101; 102]]; [IInt 2]]. split; [left; reflexivity | simpl; lia].
Defined.

(** The dev shards of [fs_dev] and an eleventh shard. *)
Definition fs_dev_eleven (path : string) : option dataset :=
  if String.eqb path "data/dev-10.pkl" then Some (shard_of 11 1) else fs_dev path.

Lemma build_dataloader_reads_ten_paths_witness :
  build_dataloader_fields fs_dev_eleven toy_loader_args "dev"
  = build_dataloader_fields fs_dev toy_loader_args "dev".
Proof.
  apply (build_dataloader_reads_ten_paths
           (list item) field_tensor field_tensor dataset field_dataset
           dataloader field_loader fs_dev_eleven fs_dev toy_loader_args "dev").
  intros idx Hidx.
  do 10 (destruct idx as [| idx]; [reflexivity |]). lia.
Defined.

(** * Further properties of the start-up code *)

(** X21. When the start-up checks pass, [gradient_accumulation_steps] is
    at least 1, one of [do_train] and [do_eval] is set, the output
    directory exists afterwards with the entries it had (none when it was
    created), and [args.train_batch_size] has become the batch size of one
    accumulation step: for a requested size [n] with [0 <= n < 2^53], the
    largest size whose product with the number of accumulation steps is at
    most [n]. Line 382 divides as floats, [int(n / g)]; for [n] below
    [2^53] the float quotient is not rounded up to the next integer, and
    its integer part is the integer quotient of [startup_checks]. *)
Theorem startup_checks_effect (args args' : start_args) (output_dir output_dir' : directory) :
  startup_checks args output_dir = inr (args', output_dir') ->
  1 <= a_gradient_accumulation_steps args /\
  (a_do_train args = true \/ a_do_eval args = true) /\
  a_gradient_accumulation_steps args' = a_gradient_accumulation_steps args /\
  a_do_train args' = a_do_train args /\ a_do_eval args' = a_do_eval args /\
  a_resume args' = a_resume args /\
  output_dir' = Some (match output_dir with Some entries => entries | None => [] end) /\
  (0 <= a_train_batch_size args < 2 ^ 53 ->
   0 <= a_train_batch_size args' /\
   a_train_batch_size args' * a_gradient_accumulation_steps args
   <= a_train_batch_size args
   < (a_train_batch_size args' + 1) * a_gradient_accumulation_steps args).
Proof.
  unfold startup_checks.
  destruct args as [gas tbs do_train do_eval resume]. cbn [a_gradient_accumulation_steps
    a_train_batch_size a_do_train a_do_eval a_resume].
  destruct (Z.ltb_spec gas 1) as [Hgas | Hgas]; [discriminate |].
  assert (Hquot : 0 <= tbs ->
                  0 <= Z.quot tbs gas /\
                  Z.quot tbs gas * gas <= tbs < (Z.quot tbs gas + 1) * gas).
  { intros Htbs. rewrite Z.quot_div_nonneg by lia.
    pose proof (Z.div_mod tbs gas ltac:(lia)) as Hdm.
    pose proof (Z.mod_pos_bound tbs gas ltac:(lia)) as Hmod.
    assert (0 <= tbs / gas) by (apply Z.div_pos; lia). nia. }
  intros H.
  assert (Hflags : (do_train = true \/ do_eval = true) /\
                   args' = mkStartArgs gas (Z.quot tbs gas) do_train do_eval resume /\
                   output_dir' =
                   Some (match output_dir with Some entries => entries | None => [] end)).
  { destruct do_train, do_eval; cbn [negb andb] in H; try discriminate H;
      destruct (has_model_pt output_dir) eqn:Hpt;
      destruct resume; cbn [negb andb] in H; try discriminate H;
      apply inr_inj in H; injection H as Ha Hd;
      (split; [first [left; reflexivity | right; reflexivity] |]);
      (split; [symmetry; exact Ha |]);
      rewrite <- Hd;
      destruct output_dir; first [reflexivity | discriminate Hpt]. }
  destruct Hflags as [Hmode [-> ->]].
  cbn [a_gradient_accumulation_steps a_train_batch_size a_do_train a_do_eval a_resume].
  split; [lia |]. split; [exact Hmode |].
  repeat (split; [reflexivity |]). intros [Hlow _]. exact (Hquot Hlow).
Qed.

Lemma startup_checks_effect_witness :
  1 <= 2 /\ Some ["runing.log"%string] = Some ["runing.log"%string] /\
  12 * 2 <= 25 < (12 + 1) * 2.
Proof.
  destruct (startup_checks_effect
              (mkStartArgs 2 25 true false false) (mkStartArgs 2 12 true false false)
              (Some ["runing.log"%string]) (Some ["runing.log"%string]) eq_refl)
    as [Hgas [_ [_ [_ [_ [_ [Hdir Hsize]]]]]]].
  split; [exact Hgas |]. split; [exact Hdir |].
  apply Hsize. cbn [a_train_batch_size]. split; [lia | reflexivity].
Defined.

(** ** The choice of the best epoch (run.py, lines 527-559) *)

Section BestEpoch.

(** The weights of the model, as saved by [torch.save(model.state_dict(), ...)]. *)
Variable weights : Type.

(** What an epoch leaves: the trained weights and the results of
    [evaluate] on the dev set. *)
Record epoch_result : Type := mkEpoch {
  ep_weights : weights;
  ep_f1 : Q;
  ep_accuracy : Q
}.

(** [val_result["f1"]] under [args.f1eval], [eval_accuracy] otherwise. *)
Definition metric_of (f1eval : bool) (ep : epoch_result) : Q :=
  if f1eval then ep_f1 ep else ep_accuracy ep.

(** The end of the body of the loop over the epochs: [best_metric] and the
    contents of [model_best.pt] ([None] when the file does not exist). *)
Definition keep_best (f1eval : bool) (st : Q * option weights) (ep : epoch_result)
  : Q * option weights :=
  if Qle_bool (fst st) (metric_of f1eval ep)
  then (metric_of f1eval ep, Some (ep_weights ep))
  else st.

(** The loop over the epochs, from [best_metric = 0]. *)
Definition best_epoch (f1eval : bool) (epochs : list epoch_result)
           (model_best : option weights) : Q * option weights :=
  fold_left (keep_best f1eval) epochs (0%Q, model_best).

Lemma best_epoch_spec (f1eval : bool) (model_best : option weights)
      (epochs : list epoch_result) :
  Forall (fun ep => (0 <= metric_of f1eval ep)%Q) epochs ->
  (epochs = [] /\ best_epoch f1eval epochs model_best = (0%Q, model_best)) \/
  (exists before ep after,
      epochs = before ++ ep :: after /\
      best_epoch f1eval epochs model_best
      = (metric_of f1eval ep, Some (ep_weights ep)) /\
      (forall ep', In ep' before -> (metric_of f1eval ep' <= metric_of f1eval ep)%Q) /\
      (forall ep', In ep' after -> (metric_of f1eval ep' < metric_of f1eval ep)%Q)).
Proof.
  unfold best_epoch.
  induction epochs as [| x l IH] using rev_ind; intros Hpos.
  - left. split; reflexivity.
  - right. apply Forall_app in Hpos. destruct Hpos as [Hl Hx].
    apply Forall_cons_iff in Hx. destruct Hx as [Hx _].
    rewrite fold_left_app. cbn [fold_left].
    destruct (IH Hl) as [[-> Hrun] | [before [ep [after [Heq [Hrun [Hb Ha]]]]]]];
      rewrite Hrun; unfold keep_best; cbn [fst].
    + assert (E : Qle_bool 0 (metric_of f1eval x) = true)
        by (apply Qle_bool_iff; exact Hx).
      rewrite E. exists [], x, []. repeat split; intros ep' [].
    + destruct (Qle_bool (metric_of f1eval ep) (metric_of f1eval x)) eqn:E.
      * apply Qle_bool_iff in E. exists l, x, []. split; [reflexivity |].
        split; [reflexivity |]. split; [| intros ep' []].
        intros ep' Hin. rewrite Heq in Hin. apply in_app_or in Hin.
        destruct Hin as [Hin | [<- | Hin]].
        -- specialize (Hb ep' Hin). lra.
        -- exact E.
        -- specialize (Ha ep' Hin). lra.
      * assert (Hlt : (metric_of f1eval x < metric_of f1eval ep)%Q).
        { apply Qnot_le_lt. intros Hle. apply Qle_bool_iff in Hle. congruence. }
        exists before, ep, (after ++ [x]). split.
        { rewrite Heq, <- app_assoc. reflexivity. }
        split; [reflexivity |]. split; [exact Hb |].
        intros ep' Hin. apply in_app_or in Hin.
        destruct Hin as [Hin | [<- | []]]; [apply Ha; exact Hin | exact Hlt].
Qed.

(** X22. After at least one epoch with metrics that are not negative,
    [model_best.pt] holds the weights of an epoch whose metric is the
    largest of all epochs, the last such epoch; a file left from an
    earlier run does not survive. Without any epoch the file is as it
    was. *)
Theorem best_epoch_is_last_maximum (f1eval : bool) (model_best : option weights)
        (epochs : list epoch_result) :
  Forall (fun ep => (0 <= metric_of f1eval ep)%Q) epochs ->
  (epochs = [] -> best_epoch f1eval epochs model_best = (0%Q, model_best)) /\
  (epochs <> [] ->
   exists before ep after,
     epochs = before ++ ep :: after /\
     best_epoch f1eval epochs model_best
     = (metric_of f1eval ep, Some (ep_weights ep)) /\
     (forall ep', In ep' epochs -> (metric_of f1eval ep' <= metric_of f1eval ep)%Q) /\
     (forall ep', In ep' after -> (metric_of f1eval ep' < metric_of f1eval ep)%Q)).
Proof.
  intros Hpos. split.
  - intros ->. reflexivity.
  - intros Hne.
    destruct (best_epoch_spec f1eval model_best epochs Hpos)
      as [[He _] | [before [ep [after [Heq [Hrun [Hb Ha]]]]]]]; [contradiction |].
    exists before, ep, after. split; [exact Heq |]. split; [exact Hrun |].
    split; [| exact Ha].
    intros ep' Hin. rewrite Heq in Hin. apply in_app_or in Hin.
    destruct Hin as [Hin | [<- | Hin]].
    + apply Hb. exact Hin.
    + apply Qle_refl.
    + apply Qlt_le_weak. apply Ha. exact Hin.
Qed.

End BestEpoch.

Arguments mkEpoch {weights}.
Arguments ep_weights {weights}.

Definition epochs_example : list (epoch_result nat) :=
  [mkEpoch 1%nat (3 # 5) (9 # 10); mkEpoch 2%nat (7 # 10) (8 # 10);
   mkEpoch 3%nat (7 # 10) (7 # 10); mkEpoch 4%nat (1 # 2) (9 # 10)]%Q.

Example best_epoch_example :
  snd (best_epoch nat true epochs_example None) = Some 3%nat /\
  snd (best_epoch nat false epochs_example None) = Some 4%nat.
Proof. split; reflexivity. Qed.

Lemma best_epoch_is_last_maximum_witness :
  exists before ep after,
    epochs_example = before ++ ep :: after /\
    best_epoch nat true epochs_example None
    = (metric_of nat true ep, Some (ep_weights ep)).
Proof.
  destruct (best_epoch_is_last_maximum nat true None epochs_example) as [_ H].
  - repeat constructor; unfold Qle; simpl; lia.
  - destruct H as [before [ep [after [Heq [Hrun _]]]]]; [discriminate |].
    exists before, ep, after. split; [exact Heq | exact Hrun].
Defined.

(** ** The parameter groups of the optimizer (run.py, lines 494-499) *)

(** [sub in s] on Python strings. *)
Fixpoint contains (sub s : string) : bool :=
  String.prefix sub s
  || match s with
     | EmptyString => false
     | String _ s' => contains sub s'
     end.

Definition no_decay : list string := ["bias"; "gamma"; "beta"]%string.

(** [any(nd in n for nd in no_decay)] *)
Definition in_no_decay (n : string) : bool :=
  existsb (fun nd => contains nd n) no_decay.

Section ParameterGroups.

Variable param : Type.

(** The group with [weight_decay_rate] 0.01. *)
Definition decay_group (param_optimizer : list (string * param)) : list param :=
  map snd (filter (fun np => negb (in_no_decay (fst np))) param_optimizer).

(** The group with [weight_decay_rate] 0.0. *)
Definition no_decay_group (param_optimizer : list (string * param)) : list param :=
  map snd (filter (fun np => in_no_decay (fst np)) param_optimizer).

End ParameterGroups.

Lemma prefix_app (sub s : string) :
  String.prefix sub s = true <-> exists post, s = (sub ++ post)%string.
Proof.
  revert s. induction sub as [| c sub IH]; intros s.
  - split; [intros _; exists s; reflexivity | intros _; destruct s; reflexivity].
  - destruct s as [| c' s]; simpl.
    + split; [discriminate | intros [post H]; discriminate H].
    + destruct (Ascii.ascii_dec c c') as [-> | Hne].
      * rewrite IH. split; intros [post H]; exists post.
        -- rewrite H. reflexivity.
        -- injection H as H. exact H.
      * split; [discriminate |]. intros [post H]. injection H as Hc _.
        exfalso. apply Hne. symmetry. exact Hc.
Qed.

(** [contains] is the substring test. *)
Lemma contains_substring (sub s : string) :
  contains sub s = true <-> exists pre post, s = (pre ++ sub ++ post)%string.
Proof.
  induction s as [| c s IH].
  - cbn [contains]. rewrite orb_false_r, prefix_app. split.
    + intros [post H]. exists EmptyString, post. exact H.
    + intros [pre [post H]]. destruct pre; [exists post; exact H | discriminate H].
  - cbn [contains]. rewrite orb_true_iff, prefix_app, IH. split.
    + intros [[post H] | [pre [post H]]].
      * exists EmptyString, post. exact H.
      * exists (String c pre), post. simpl. rewrite H. reflexivity.
    + intros [pre [post H]]. destruct pre as [| c' pre].
      * left. exists post. exact H.
      * right. simpl in H. injection H as _ H. exists pre, post. exact H.
Qed.

Lemma filter_partition {A : Type} (f : A -> bool) (l : list A) :
  Permutation (filter (fun a => negb (f a)) l ++ filter f l) l.
Proof.
  induction l as [| a l IH]; simpl.
  - constructor.
  - destruct (f a); simpl.
    + apply Permutation_sym. apply Permutation_cons_app.
      apply Permutation_sym. exact IH.
    + constructor. exact IH.
Qed.

(** X23. The two parameter groups handed to the optimizer split the
    parameters: together they hold every parameter exactly once, each in
    the order of the parameter list; a parameter is in the group without
    weight decay exactly when its name has "bias", "gamma" or "beta" as a
    substring. *)
Theorem parameter_groups_partition (param : Type)
        (param_optimizer : list (string * param)) :
  Permutation (decay_group param param_optimizer ++ no_decay_group param param_optimizer)
              (map snd param_optimizer) /\
  (length (decay_group param param_optimizer)
   + length (no_decay_group param param_optimizer) = length param_optimizer)%nat /\
  (forall n p,
      In (n, p) param_optimizer ->
      (exists nd pre post, In nd no_decay /\ n = (pre ++ nd ++ post)%string) ->
      In p (no_decay_group param param_optimizer)) /\
  (forall n p,
      In (n, p) param_optimizer ->
      ~ (exists nd pre post, In nd no_decay /\ n = (pre ++ nd ++ post)%string) ->
      In p (decay_group param param_optimizer)).
Proof.
  unfold decay_group, no_decay_group.
  assert (Hsub : forall n,
             in_no_decay n = true <->
             exists nd pre post, In nd no_decay /\ n = (pre ++ nd ++ post)%string).
  { intros n. unfold in_no_decay. rewrite existsb_exists. split.
    - intros [nd [Hnd Hc]]. apply contains_substring in Hc.
      destruct Hc as [pre [post Hc]]. exists nd, pre, post. split; assumption.
    - intros [nd [pre [post [Hnd Hc]]]]. exists nd. split; [exact Hnd |].
      apply contains_substring. exists pre, post. exact Hc. }
  split; [| split; [| split]].
  - rewrite <- map_app. apply Permutation_map.
    apply (filter_partition (fun np => in_no_decay (fst np))).
  - rewrite !length_map, <- length_app.
    apply Permutation_length.
    apply (filter_partition (fun np => in_no_decay (fst np))).
  - intros n p Hin Hname. apply in_map_iff. exists (n, p). split; [reflexivity |].
    apply filter_In. split; [exact Hin |]. apply Hsub. exact Hname.
  - intros n p Hin Hname. apply in_map_iff. exists (n, p). split; [reflexivity |].
    apply filter_In. split; [exact Hin |]. apply negb_true_iff.
    destruct (in_no_decay (fst (n, p))) eqn:E; [| reflexivity].
    exfalso. apply Hname. apply Hsub. exact E.
Qed.

Example parameter_groups_example :
  decay_group nat [("encoder.weight", 1); ("encoder.bias", 2);
                   ("LayerNorm.gamma", 3); ("classifier.weight", 4)]%string%nat
  = [1; 4]%nat /\
  no_decay_group nat [("encoder.weight", 1); ("encoder.bias", 2);
                      ("LayerNorm.gamma", 3); ("classifier.weight", 4)]%string%nat
  = [2; 3]%nat.
Proof. split; reflexivity. Qed.

(** * The file of logits (run.py, lines 576-584) *)

Definition newline : string := String (Ascii.ascii_of_nat 10) EmptyString.
Definition space : string := String (Ascii.ascii_of_nat 32) EmptyString.

Section ExportPredictions.

(** [str(x)] on a score. *)
Variable str_of : Q -> string.

(** [for j in range(len(logits_all[i]))]: each score, followed by a
    newline after the last one and by a space otherwise. *)
Fixpoint write_row (row : list Q) : string :=
  match row with
  | [] => EmptyString
  | x :: rest =>
      match rest with
      | [] => (str_of x ++ newline)%string
      | _ :: _ => (str_of x ++ space ++ write_row rest)%string
      end
  end.

(** [for i in range(len(logits_all))]: what is written to the file. *)
Definition write_logits (logits_all : list (list Q)) : string :=
  fold_right (fun row file => (write_row row ++ file)%string) EmptyString logits_all.

End ExportPredictions.

(** The number of occurrences of a character in a string. *)
Fixpoint count_char (c : ascii) (s : string) : nat :=
  match s with
  | EmptyString => 0%nat
  | String c' s' => ((if Ascii.eqb c c' then 1 else 0) + count_char c s')%nat
  end.

Lemma count_char_app (c : ascii) (s1 s2 : string) :
  count_char c (s1 ++ s2) = (count_char c s1 + count_char c s2)%nat.
Proof.
  induction s1 as [| c' s1 IH]; simpl; [reflexivity | rewrite IH; lia].
Qed.

(** The pieces of a string between the occurrences of a character, as a
    reader of the file gets them. *)
Fixpoint split_on (c : ascii) (s : string) : list string :=
  match s with
  | EmptyString => [EmptyString]
  | String c' s' =>
      if Ascii.eqb c c' then EmptyString :: split_on c s'
      else match split_on c s' with
           | piece :: pieces => String c' piece :: pieces
           | [] => [String c' EmptyString]
           end
  end.

Lemma split_on_cons (c : ascii) (s : string) :
  exists piece pieces, split_on c s = piece :: pieces.
Proof.
  destruct s as [| c' s]; simpl.
  - eexists. eexists. reflexivity.
  - destruct (Ascii.eqb c c'); [eexists; eexists; reflexivity |].
    destruct (split_on c s); eexists; eexists; reflexivity.
Qed.

(** A text without the character goes whole into the first piece. *)
Lemma split_on_app (c : ascii) (s1 s2 : string) (piece : string) (pieces : list string) :
  count_char c s1 = 0%nat ->
  split_on c s2 = piece :: pieces ->
  split_on c (s1 ++ s2) = (s1 ++ piece)%string :: pieces.
Proof.
  induction s1 as [| c' s1 IH]; intros H Hs.
  - exact Hs.
  - simpl in H |- *. destruct (Ascii.eqb c c'); [discriminate H |].
    rewrite (IH H Hs). reflexivity.
Qed.

Lemma split_on_sep (c : ascii) (s : string) :
  split_on c (String c s) = EmptyString :: split_on c s.
Proof. simpl. rewrite Ascii.eqb_refl. reflexivity. Qed.

Lemma append_nil_r (s : string) : (s ++ EmptyString)%string = s.
Proof. induction s as [| c s IH]; simpl; [reflexivity | rewrite IH; reflexivity]. Qed.

Lemma append_assoc (s1 s2 s3 : string) :
  ((s1 ++ s2) ++ s3)%string = (s1 ++ s2 ++ s3)%string.
Proof. induction s1 as [| c s1 IH]; simpl; [reflexivity | rewrite IH; reflexivity]. Qed.

(** Texts without the character, joined by it and split at it again. *)
Lemma split_concat (c : ascii) (texts : list string) :
  texts <> [] ->
  Forall (fun t => count_char c t = 0%nat) texts ->
  split_on c (String.concat (String c EmptyString) texts) = texts.
Proof.
  induction texts as [| t rest IH]; [contradiction |]. intros _ Hall.
  apply Forall_cons_iff in Hall. destruct Hall as [Ht Hrest].
  destruct rest as [| t' rest'].
  - cbn [String.concat]. rewrite <- (append_nil_r t) at 1.
    rewrite (split_on_app c t EmptyString EmptyString []);
      [rewrite append_nil_r; reflexivity | exact Ht | reflexivity].
  - change (String.concat (String c EmptyString) (t :: t' :: rest'))
      with (t ++ String c (String.concat (String c EmptyString) (t' :: rest')))%string.
    rewrite (split_on_app c t _ EmptyString (t' :: rest')).
    + rewrite append_nil_r. reflexivity.
    + exact Ht.
    + rewrite split_on_sep. rewrite IH; [reflexivity | discriminate | exact Hrest].
Qed.

Section ExportFormat.

Variable str_of : Q -> string.

(** The text of a row: its scores, in order, with a space between two. *)
Definition row_text (row : list Q) : string := String.concat space (map str_of row).

(** The line written for a row: nothing for a row without scores. *)
Definition line_of (row : list Q) : string :=
  match row with
  | [] => EmptyString
  | _ :: _ => (row_text row ++ newline)%string
  end.

Lemma write_row_line (row : list Q) : write_row str_of row = line_of row.
Proof.
  induction row as [| x rest IH]; [reflexivity |].
  destruct rest as [| y rest]; [reflexivity |].
  change (write_row str_of (x :: y :: rest))
    with (str_of x ++ space ++ write_row str_of (y :: rest))%string.
  rewrite IH. unfold line_of, row_text. cbn [map String.concat].
  rewrite !append_assoc. reflexivity.
Qed.

Lemma write_logits_lines (logits_all : list (list Q)) :
  write_logits str_of logits_all
  = fold_right String.append EmptyString (map line_of logits_all).
Proof.
  induction logits_all as [| row rows IH]; [reflexivity |].
  cbn [write_logits fold_right map]. fold (write_logits str_of rows).
  rewrite IH, write_row_line. reflexivity.
Qed.

(** The text of a score holds neither a newline nor a space. *)
Hypothesis str_of_plain :
  forall x, count_char (Ascii.ascii_of_nat 10) (str_of x) = 0%nat /\
            count_char (Ascii.ascii_of_nat 32) (str_of x) = 0%nat.

Lemma row_text_no_newline (row : list Q) :
  count_char (Ascii.ascii_of_nat 10) (row_text row) = 0%nat.
Proof.
  unfold row_text. induction row as [| x rest IH]; [reflexivity |].
  destruct rest as [| y rest].
  - apply str_of_plain.
  - cbn [map String.concat] in IH |- *.
    rewrite !count_char_app, IH, (proj1 (str_of_plain x)). reflexivity.
Qed.

(** Splitting the text of a row at the spaces gives back the texts of its
    scores, in order. *)
Lemma split_row_text (row : list Q) :
  row <> [] -> split_on (Ascii.ascii_of_nat 32) (row_text row) = map str_of row.
Proof.
  intros Hrow. unfold row_text. apply split_concat.
  - destruct row; [contradiction | discriminate].
  - apply Forall_forall. intros t Ht. apply in_map_iff in Ht.
    destruct Ht as [x [<- _]]. apply str_of_plain.
Qed.

(** Splitting the file at the newlines gives back the texts of the rows
    that have a score, in order, and an empty piece after the last
    newline. *)
Lemma split_lines (logits_all : list (list Q)) :
  split_on (Ascii.ascii_of_nat 10) (write_logits str_of logits_all)
  = map row_text (filter (fun row => negb (length row =? 0)%nat) logits_all)
    ++ [EmptyString].
Proof.
  rewrite write_logits_lines.
  induction logits_all as [| row rows IH]; [reflexivity |].
  cbn [map fold_right filter]. destruct row as [| x rest].
  - cbn [line_of length Nat.eqb negb String.append]. exact IH.
  - cbn [length Nat.eqb negb map app]. unfold line_of.
    rewrite append_assoc.
    rewrite (split_on_app _ _ _ EmptyString
               (map row_text (filter (fun row => negb (length row =? 0)%nat) rows)
                ++ [EmptyString])).
    + rewrite append_nil_r. reflexivity.
    + apply row_text_no_newline.
    + unfold newline. cbn [String.append]. rewrite split_on_sep.
      f_equal. exact IH.
Qed.

(** X24. The file written by [export_predictions] is the concatenation,
    in the order of the examples, of one line per example that has a
    score: the texts of its scores in order, a single space between two
    of them, a newline after the last; an example without scores adds
    nothing. When the text of a score holds neither newline nor space, the
    file reads back: cut at the newlines it gives the lines of the
    examples that have a score, and a line cut at the spaces gives the
    texts of the scores of its example. *)
Theorem write_logits_format (logits_all : list (list Q)) :
  write_logits str_of logits_all
  = fold_right String.append EmptyString (map line_of logits_all) /\
  split_on (Ascii.ascii_of_nat 10) (write_logits str_of logits_all)
  = map row_text (filter (fun row => negb (length row =? 0)%nat) logits_all)
    ++ [EmptyString] /\
  (forall row, In row logits_all -> row <> [] ->
               split_on (Ascii.ascii_of_nat 32) (row_text row) = map str_of row).
Proof.
  split; [apply write_logits_lines |]. split; [apply split_lines |].
  intros row _ Hrow. apply split_row_text. exact Hrow.
Qed.

End ExportFormat.

(** A text for scores that tells their sign only. *)
Definition sign_text (x : Q) : string :=
  if Qle_bool x 0 then "-1.0"%string else "1.0"%string.

Example write_logits_example :
  write_logits sign_text [[1; -2]; []; [3]]%Q
  = ("1.0 -1.0" ++ newline ++ "1.0" ++ newline)%string.
Proof. reflexivity. Qed.

Lemma write_logits_format_witness :
  split_on (Ascii.ascii_of_nat 10) (write_logits sign_text [[1; -2]; []; [3]]%Q)
  = ["1.0 -1.0"%string; "1.0"%string; EmptyString] /\
  split_on (Ascii.ascii_of_nat 32) "1.0 -1.0" = ["1.0"; "-1.0"]%string.
Proof.
  destruct (write_logits_format sign_text) with (logits_all := [[1; -2]; []; [3]]%Q)
    as [_ [Hlines Hrow]].
  - intros x. unfold sign_text. destruct (Qle_bool x 0); split; reflexivity.
  - split; [exact Hlines |].
    apply (Hrow [1; -2]%Q); [left; reflexivity | discriminate].
Defined.
